(** * Makespan evaluation of a job-to-machine assignment

    Shallow embedding of [src/scheduling/calculate_makespan.py]:
    [_find_last_completed], [_calc_makespan] and the two entry points
    [calculate_makespan] (ordered-list mode) and [calculate_bin_makespan]
    (dynamic-bin mode).  The circuit builders of [src/circuits/ghz.py],
    [create_ghz] and [create_quantum_only_ghz], follow in a part of their
    own.

    Modelling choices.
    - Times are Python floats in the source.  The embedding takes them as
      exact integers ([Z]): the code only adds, compares ([<=], [==], [>])
      and takes maxima, and on integer-valued floats below 2^53 these
      agree with the operations on [Z].  Rounding, infinities and NaN are
      outside the model: on other floats an addition may round, so the
      theorems relate sums that the code computes in the same way, or
      use that addition is monotone, and none rests on a sum of several
      table entries being exact.
    - Job records are mutable objects shared between the caller's list, the
      per-machine lists and the sorted iteration order.  They live in a
      [heap] (object identity -> record); lists hold references, so a write
      through one list is seen through the others.
    - Exceptions are values of [exn]; a computation that raises keeps the
      heap as mutated so far, as in Python. *)

From stdpp Require Import gmap strings list sorting.
From Stdlib Require Import ZArith Lia.

Open Scope Z_scope.

(** ** Job records and the heap *)

(** Modelled from the spec: [types.py] (the dataclass [JobResultInfo]) is
    not among the sources.  The five positional fields are those of the
    constructor call [JobResultInfo("0", machine, 0.0, 0.0, 0)] in the
    source; the fifth is the opaque workload size of the spec's data
    model, never read by the makespan code. *)
Record JobResultInfo : Type := mkJob {
  name : string;
  machine : string;
  start_time : Z;
  completion_time : Z;
  capacity : Z
}.

#[global] Instance JobResultInfo_eq_dec : EqDecision JobResultInfo.
Proof. solve_decision. Defined.

(** [JobResultInfo("0", machine, 0.0, 0.0, 0)]: the dummy job. *)
Definition dummy_job (m : string) : JobResultInfo := mkJob "0" m 0 0 0.

(** Object identities and the store of job objects. *)
Abbreviation ref := nat (only parsing).
Definition heap := ref -> JobResultInfo.

Definition set_start (j : JobResultInfo) (v : Z) : JobResultInfo :=
  mkJob (name j) (machine j) v (completion_time j) (capacity j).

Definition set_completion (j : JobResultInfo) (v : Z) : JobResultInfo :=
  mkJob (name j) (machine j) (start_time j) v (capacity j).

Definition upd (h : heap) (r : ref) (j : JobResultInfo) : heap :=
  fun r' => if Nat.eqb r' r then j else h r'.

(** A heap holding pairwise distinct objects, given by their field values:
    object [i] is the [i]-th record.  A job list over it is a list of
    indices, such as [[0; 1]]. *)
Definition heap_of_list (l : list JobResultInfo) : heap :=
  fun r => nth r l (dummy_job "").

(** ** Exceptions and the two monads *)

(** [ValueError_not_found] is the [raise ValueError] of
    [_find_last_completed]; [ValueError_max_empty] is what the builtin
    [max] raises on an empty iterable; [IndexError] is list indexing out
    of range; [NameError] is reading a closure variable that was never
    assigned. *)
Inductive exn : Type :=
| ValueError_not_found (job_name : string)
| ValueError_max_empty
| IndexError
| NameError.

Inductive result (A : Type) : Type :=
| Ok (a : A)
| Raise (e : exn).
Arguments Ok {A} a.
Arguments Raise {A} e.

#[global] Instance result_ret : MRet result := fun A a => Ok a.
#[global] Instance result_bind : MBind result := fun A B k m =>
  match m with Ok a => k a | Raise e => Raise e end.
#[global] Instance result_fmap : FMap result := fun A B f m =>
  match m with Ok a => Ok (f a) | Raise e => Raise e end.

(** Stateful computations over the heap that may raise. *)
Definition M (A : Type) : Type := heap -> result A * heap.

#[global] Instance M_ret : MRet M := fun A a h => (Ok a, h).
#[global] Instance M_bind : MBind M := fun A B k m h =>
  match m h with
  | (Ok a, h') => k a h'
  | (Raise e, h') => (Raise e, h')
  end.

Definition lift {A} (x : result A) : M A := fun h => (x, h).
Definition read (r : ref) : M JobResultInfo := fun h => (Ok (h r), h).
Definition read_all (rs : list ref) : M (list JobResultInfo) :=
  fun h => (Ok (map h rs), h).
Definition write_start_time (r : ref) (v : Z) : M unit :=
  fun h => (Ok tt, upd h r (set_start (h r) v)).
Definition write_completion_time (r : ref) (v : Z) : M unit :=
  fun h => (Ok tt, upd h r (set_completion (h r) v)).

(** [for x in xs: body(x)] *)
Fixpoint for_each {A} (body : A -> M unit) (xs : list A) : M unit :=
  match xs with
  | [] => mret tt
  | x :: xs' => body x ≫= fun _ => for_each body xs'
  end.

(** [for x in xs: out.append(body(x))] *)
Fixpoint for_collect {A B} (body : A -> M B) (xs : list A) : M (list B) :=
  match xs with
  | [] => mret []
  | x :: xs' => b ← body x; bs ← for_collect body xs'; mret (b :: bs)
  end.

(** ** Python builtins used by the code *)

(** [max(xs, key=key)]: the first element whose key is maximal (a later
    element replaces the current one only when its key is strictly
    greater); raises on an empty iterable. *)
Fixpoint max_from {A} (key : A -> Z) (cur : A) (xs : list A) : A :=
  match xs with
  | [] => cur
  | x :: xs' => max_from key (if key cur <? key x then x else cur) xs'
  end.

Definition py_max {A} (key : A -> Z) (xs : list A) : result A :=
  match xs with
  | [] => Raise ValueError_max_empty
  | x :: xs' => Ok (max_from key x xs')
  end.

(** [sorted(xs, key=key)]: ascending and stable. *)
Fixpoint insert_sorted {A} (key : A -> Z) (x : A) (l : list A) : list A :=
  match l with
  | [] => [x]
  | y :: l' => if key x <=? key y then x :: y :: l'
               else y :: insert_sorted key x l'
  end.

Definition py_sorted {A} (key : A -> Z) (xs : list A) : list A :=
  foldr (insert_sorted key) [] xs.

(** [next((f(x) for x in xs if p(x)), default)] *)
Fixpoint py_next {A B} (p : A -> bool) (f : A -> B) (xs : list A)
    (default : B) : B :=
  match xs with
  | [] => default
  | x :: xs' => if p x then f x else py_next p f xs' default
  end.

(** ** Time tables: [pulp.makeDict(headers, array, 0)] *)

(** Modelled from the spec: [pulp.makeDict] belongs to the third-party
    library PuLP and is not among the sources.  The spec (section 3, Time
    Tables) says: two lookup structures built once per call from flat
    tabular input, keyed by the name/machine combination, defaulting to 0
    for unknown combinations.  The definitions below follow the way
    PuLP's [__makeDict] realises this: a nest of
    [collections.defaultdict]s, one level per header list.  The innermost
    level is [dict(zip(headers[0], array))] with default factory
    [lambda: 0]; an outer level indexes [array[i]] for the [i]-th header
    ([IndexError] on a short array), and its default factory returns the
    (empty) default dictionary handed up by the last row it built, a
    variable that stays unassigned when its header list is empty. *)
Record defaultdict (V : Type) : Type := mkDD {
  items : gmap string V;
  default_factory : option V   (* [None]: the factory's variable is unbound *)
}.
Arguments mkDD {V} _ _.
Arguments items {V} _.
Arguments default_factory {V} _.

(** [d[k]] *)
Definition getitem {V} (d : defaultdict V) (k : string) : result V :=
  match items d !! k with
  | Some v => Ok v
  | None => match default_factory d with
            | Some v => Ok v
            | None => Raise NameError
            end
  end.

(** [d.update(pairs)] and [dict(pairs)]: a later pair overrides an earlier
    one with the same key. *)
Definition dict_update {V} (d : gmap string V) (pairs : list (string * V))
    : gmap string V :=
  fold_left (fun d kv => <[kv.1 := kv.2]> d) pairs d.

Definition dict_of {V} (pairs : list (string * V)) : gmap string V :=
  dict_update ∅ pairs.

(** [__makeDict] on one header list: the result and the default value
    handed to the level above. *)
Definition makeDict_leaf (headers0 : list string) (array : list Z)
    : result (defaultdict Z * defaultdict Z) :=
  Ok (mkDD (dict_of (zip headers0 array)) (Some 0), mkDD ∅ (Some 0)).

(** The loop [for i, h in enumerate(headers[0]):
      result[h], defaultvalue = __makeDict(headers[1:], array[i], default)] *)
Fixpoint makeDict_rows {A V} (sub : A -> result (V * V))
    (headers0 : list string) (array : list A) (i : nat)
    (res : gmap string V) (defaultvalue : option V)
    : result (gmap string V * option V) :=
  match headers0 with
  | [] => Ok (res, defaultvalue)
  | h :: hs =>
      match array !! i with
      | None => Raise IndexError
      | Some a =>
          match sub a with
          | Raise e => Raise e
          | Ok (d, dv) =>
              makeDict_rows sub hs array (S i) (<[h := d]> res) (Some dv)
          end
      end
  end.

(** [__makeDict] on more than one header list. *)
Definition makeDict_node {A V} (sub : A -> result (V * V))
    (headers0 : list string) (array : list A)
    : result (defaultdict V * defaultdict V) :=
  '(res, dv) ← makeDict_rows sub headers0 array 0%nat ∅ None;
  Ok (mkDD res dv, mkDD ∅ dv).

Definition PTimes := list (list Z).
Definition STimes := list (list (list Z)).
Definition PDict := defaultdict (defaultdict Z).
Definition SDict := defaultdict (defaultdict (defaultdict Z)).

(** Modelled from the spec: [pulp.makeDict([h0, h1], array, 0)], the
    processing-time table (see above). *)
Definition makeDict2 (h0 h1 : list string) (array : PTimes) : result PDict :=
  fst <$> makeDict_node (makeDict_leaf h1) h0 array.

(** Modelled from the spec: [pulp.makeDict([h0, h1, h2], array, 0)], the
    setup-time table (see above). *)
Definition makeDict3 (h0 h1 h2 : list string) (array : STimes)
    : result SDict :=
  fst <$> makeDict_node (makeDict_node (makeDict_leaf h2) h1) h0 array.

(** [p_times[job][machine]] *)
Definition p_lookup (p_times : PDict) (job m : string) : result Z :=
  row ← getitem p_times job; getitem row m.

(** [s_times[last][job][machine]] *)
Definition s_lookup (s_times : SDict) (last job m : string) : result Z :=
  plane ← getitem s_times last; row ← getitem plane job; getitem row m.

(** ** [_find_last_completed] *)

(** The [for ... break / else: raise ValueError] loop: the start time of
    the first job called [job_name]. *)
Fixpoint original_starttime_of (job_name : string)
    (jobs : list JobResultInfo) : result Z :=
  match jobs with
  | [] => Raise (ValueError_not_found job_name)
  | job :: jobs' =>
      if String.eqb (name job) job_name then Ok (start_time job)
      else original_starttime_of job_name jobs'
  end.

Definition _find_last_completed (job_name : string)
    (jobs : list JobResultInfo) (m : string) : result JobResultInfo :=
  original_starttime ← original_starttime_of job_name jobs;
  let completed_before :=
    filter (fun j => completion_time j ≤ original_starttime) jobs in
  if (length completed_before =? 0)%nat then Ok (dummy_job m)
  else py_max completion_time completed_before.

(** ** [_calc_makespan] *)

(** [assigned_machines[job.machine].append(job)] on an insertion-ordered
    [defaultdict(list)]. *)
Fixpoint dict_append (d : list (string * list ref)) (m : string) (r : ref)
    : list (string * list ref) :=
  match d with
  | [] => [(m, [r])]
  | (k, l) :: d' =>
      if String.eqb k m then (k, l ++ [r]) :: d'
      else (k, l) :: dict_append d' m r
  end.

(** The loop that fills [assigned_machines]. *)
Definition assign_machines (jobs : list ref)
    : M (list (string * list ref)) :=
  fun h => (Ok (fold_left (fun d r => dict_append d (machine (h r)) r) jobs []),
            h).

(** Lines 109-129: the predecessor [last_completed] of [job], and the
    write to [job.start_time]. *)
Definition last_completed_of (for_bin : bool) (m : string)
    (assigned_jobs : list ref) (assigned_jobs_copy : list JobResultInfo)
    (job : ref) : M JobResultInfo :=
  if for_bin then
    live ← read_all assigned_jobs;
    last_completed ← lift (py_max completion_time live);
    j ← read job;
    let last_completed :=
      if start_time j =? 0 then dummy_job m else last_completed in
    write_start_time job (completion_time last_completed);;
    mret last_completed
  else
    j ← read job;
    last_completed ← lift (_find_last_completed (name j) assigned_jobs_copy m);
    j ← read job;
    let last_completed :=
      if start_time j =? 0 then dummy_job m else last_completed in
    live ← read_all assigned_jobs;
    write_start_time job
      (py_next (fun j' => String.eqb (name last_completed) (name j'))
               completion_time live 0);;
    mret last_completed.

(** The body of the loop over the sorted jobs of one machine. *)
Definition process_job (for_bin : bool) (p_times : PDict) (s_times : SDict)
    (m : string) (assigned_jobs : list ref)
    (assigned_jobs_copy : list JobResultInfo) (job : ref) : M unit :=
  last_completed ←
    last_completed_of for_bin m assigned_jobs assigned_jobs_copy job;
  j ← read job;
  p ← lift (p_lookup p_times (name j) m);
  s ← lift (s_lookup s_times (name last_completed) (name j) m);
  write_completion_time job (completion_time last_completed + p + s).

(** [sorted(assigned_jobs, key=lambda x: x.start_time)]: the keys are
    read once, when the loop starts. *)
Definition sorted_by_start_time (assigned_jobs : list ref) : M (list ref) :=
  fun h => (Ok (py_sorted (fun r => start_time (h r)) assigned_jobs), h).

(** The body of the loop over [assigned_machines.items()]: the value
    appended to [makespans]. *)
Definition process_machine (for_bin : bool) (p_times : PDict)
    (s_times : SDict) (item : string * list ref) : M Z :=
  let '(m, assigned_jobs) := item in
  assigned_jobs_copy ← read_all assigned_jobs;
  order ← sorted_by_start_time assigned_jobs;
  for_each (process_job for_bin p_times s_times m assigned_jobs
              assigned_jobs_copy) order;;
  live ← read_all assigned_jobs;
  lift (py_max id (map completion_time live)).

(** Lines 98-137: the partition by machine and the loop over the
    machines; the value is the list [makespans]. *)
Definition propagate (for_bin : bool) (p_times : PDict) (s_times : SDict)
    (jobs : list ref) : M (list Z) :=
  assigned_machines ← assign_machines jobs;
  for_collect (process_machine for_bin p_times s_times) assigned_machines.

Definition _calc_makespan (jobs : list ref) (process_times : PTimes)
    (setup_times : STimes) (job_names machines : list string)
    (for_bin : bool) : M Z :=
  s_times ← lift (makeDict3 job_names job_names machines setup_times);
  p_times ← lift (makeDict2 (tail job_names) machines process_times);
  makespans ← propagate for_bin p_times s_times jobs;
  lift (py_max id makespans).

(** ** Entry points *)

(** Modelled from the spec: [types.py] (the class [LPInstance]) is not
    among the sources; the two attributes are those read by
    [calculate_makespan]: the job names (the dummy name first, as
    [job_names[1:]] keys the processing times) and the machine names. *)
Module LPInstance.
Record t : Type := mk { jobs : list string; machines : list string }.
End LPInstance.

Definition calculate_makespan (lp_instance : LPInstance.t)
    (jobs : list ref) (process_times : PTimes) (setup_times : STimes)
    : M Z :=
  _calc_makespan jobs process_times setup_times
    (LPInstance.jobs lp_instance) (LPInstance.machines lp_instance) false.

(** [accelerators] is a [dict[str, int]], given by its items in insertion
    order; only the keys are read. *)
Definition calculate_bin_makespan (jobs : list ref) (process_times : PTimes)
    (setup_times : STimes) (accelerators : list (string * Z)) : M Z :=
  fun h =>
    let lp_jobs := "0"%string :: map (fun r => name (h r)) jobs in
    let machines := map fst accelerators in
    _calc_makespan jobs process_times setup_times lp_jobs machines true h.

(** * GHZ circuit builders ([circuits/ghz.py]) *)

(** ** Circuits *)

(** A [for] loop over a list that ends with the first error. *)
Fixpoint for_in {A B} (body : A → B → option A) (xs : list B) (acc : A)
    : option A :=
  match xs with
  | [] => Some acc
  | x :: xs' =>
      match body acc x with
      | Some acc' => for_in body xs' acc'
      | None => None
      end
  end.

(** [qiskit.QuantumCircuit] belongs to the third-party library Qiskit and
    is not among the sources.  A circuit is modelled by what the builders
    use of it: the numbers of qubits and of classical bits it was created
    with and the list of instructions appended so far ([circuit.data]).
    A call that Qiskit rejects with [CircuitError] gives [None]: a
    negative register size, a qubit or classical-bit index that is out of
    range, the same qubit as control and target, argument lists of
    [measure] that cannot be paired.  The builders pass the literal [0]
    and values of [range] as indices, so indices are natural numbers. *)
Module QuantumCircuit.

Inductive instruction : Type :=
| HGate (qubit : nat)
| CXGate (control_qubit target_qubit : nat)
| Measure (qubit cbit : nat).

Record t : Type := mk {
  num_qubits : nat;
  num_clbits : nat;
  data : list instruction
}.

(** [QuantumCircuit(n_qubits, n_clbits)]; [QuantumCircuit(n_qubits)] is
    the case [n_clbits = 0]. *)
Definition new (n_qubits n_clbits : Z) : option t :=
  if decide (0 ≤ n_qubits ∧ 0 ≤ n_clbits)
  then Some (mk (Z.to_nat n_qubits) (Z.to_nat n_clbits) [])
  else None.

Definition append (circuit : t) (i : instruction) : t :=
  mk (num_qubits circuit) (num_clbits circuit) (data circuit ++ [i]).

(** [circuit.h(qubit)] *)
Definition h (circuit : t) (qubit : nat) : option t :=
  if decide (qubit < num_qubits circuit)%nat
  then Some (append circuit (HGate qubit))
  else None.

(** [circuit.cx(control_qubit, target_qubit)] *)
Definition cx (circuit : t) (control_qubit target_qubit : nat) : option t :=
  if decide ((control_qubit < num_qubits circuit)%nat ∧
             (target_qubit < num_qubits circuit)%nat ∧
             control_qubit ≠ target_qubit)
  then Some (append circuit (CXGate control_qubit target_qubit))
  else None.

(** One measurement, [circuit.measure(qubit, cbit)] on two indices. *)
Definition measure1 (circuit : t) (qc : nat * nat) : option t :=
  if decide ((qc.1 < num_qubits circuit)%nat ∧ (qc.2 < num_clbits circuit)%nat)
  then Some (append circuit (Measure qc.1 qc.2))
  else None.

(** [circuit.measure(qubits, cbits)] on two lists of indices: the lists
    are paired position by position when they are as long as each other,
    a single qubit goes with every classical bit of a list that is not
    empty, and other lists are rejected. *)
Definition measure (circuit : t) (qubits cbits : list nat) : option t :=
  if decide (length qubits = length cbits)
  then for_in measure1 (zip qubits cbits) circuit
  else match qubits, cbits with
       | [q], _ :: _ => for_in measure1 (map (fun c => (q, c)) cbits) circuit
       | _, _ => None
       end.

End QuantumCircuit.

(** [range(n)] for an integer [n]: empty when [n] is not positive. *)
Definition py_range (n : Z) : list nat := seq 0 (Z.to_nat n).

(** ** The builders *)

(** The decorator [@lru_cache] hands out the circuit object built by the
    first call for every later call with the same argument; the
    definitions give the circuit a call returns, for a first call as for
    a later one. *)
Definition create_ghz (n_qubits : Z) : option QuantumCircuit.t :=
  circuit ← QuantumCircuit.new n_qubits n_qubits;
  circuit ← QuantumCircuit.h circuit 0;
  circuit ← for_in (fun circuit i => QuantumCircuit.cx circuit i (i + 1))
              (py_range (n_qubits - 1)) circuit;
  QuantumCircuit.measure circuit (py_range n_qubits) (py_range n_qubits).

Definition create_quantum_only_ghz (n_qubits : Z) : option QuantumCircuit.t :=
  circuit ← QuantumCircuit.new n_qubits 0;
  circuit ← QuantumCircuit.h circuit 0;
  for_in (fun circuit i => QuantumCircuit.cx circuit i (i + 1))
    (py_range (n_qubits - 1)) circuit.

(** * Definitions used in the statements and proofs *)

(** The predecessor resolved for [job] in heap [h]: the value of
    [last_completed_of]. *)
Definition predecessor (for_bin : bool) (m : string)
    (assigned_jobs : list ref) (assigned_jobs_copy : list JobResultInfo)
    (job : ref) (h : heap) : result JobResultInfo :=
  (last_completed_of for_bin m assigned_jobs assigned_jobs_copy job h).1.

(** The value written to [job.start_time]. *)
Definition new_start_time (for_bin : bool) (assigned_jobs : list ref)
    (last_completed : JobResultInfo) (h : heap) : Z :=
  if for_bin then completion_time last_completed
  else py_next (fun j' => String.eqb (name last_completed) (name j'))
         completion_time (map h assigned_jobs) 0.

(** One iteration of the loop body as a function of the heap. *)
Definition step (for_bin : bool) (p_times : PDict) (s_times : SDict)
    (m : string) (assigned : list ref) (copy : list JobResultInfo)
    (job : ref) (h : heap) : result unit * heap :=
  match predecessor for_bin m assigned copy job h with
  | Raise e => (Raise e, h)
  | Ok lc =>
      let h1 :=
        upd h job (set_start (h job) (new_start_time for_bin assigned lc h)) in
      match p_lookup p_times (name (h job)) m with
      | Raise e => (Raise e, h1)
      | Ok p =>
          match s_lookup s_times (name lc) (name (h job)) m with
          | Raise e => (Raise e, h1)
          | Ok s =>
              (Ok tt,
               upd h1 job
                 (set_completion (h1 job) (completion_time lc + p + s)))
          end
      end
  end.

(** Two results: both values, related, or both the same exception. *)
Inductive result_rel {A B} (R : A → B → Prop) : result A → result B → Prop :=
| result_rel_Ok a b : R a b → result_rel R (Ok a) (Ok b)
| result_rel_Raise e : result_rel R (Raise e) (Raise e).

(** Every key of both dictionaries resolves, to related values ([bound]),
    or no key of either resolves ([¬ bound]). *)
Definition dd_rel {V V'} (bound : Prop) (R : string → V → V' → Prop)
    (d : defaultdict V) (d' : defaultdict V') : Prop :=
  (bound → ∀ k, ∃ v v', getitem d k = Ok v ∧ getitem d' k = Ok v' ∧ R k v v') ∧
  (¬ bound → ∀ k, getitem d k = Raise NameError ∧ getitem d' k = Raise NameError).

(** Rows of the flat input, compared entry by entry under the machine
    names that head the columns. *)
Definition row_rel (Rz : string → Z → Z → Prop) (h : list string)
    (row row' : list Z) : Prop :=
  length row = length row' ∧
  ∀ i m v v', h !! i = Some m → row !! i = Some v → row' !! i = Some v' →
              Rz m v v'.

(** Two processing-time tables: every lookup resolves in both, to related
    values, or every lookup raises in both. *)
Definition ptable_rel (bound : Prop) (R : string → string → Z → Z → Prop)
    (p p' : PDict) : Prop :=
  (bound → ∀ job m, ∃ v v',
      p_lookup p job m = Ok v ∧ p_lookup p' job m = Ok v' ∧ R job m v v') ∧
  (¬ bound → ∀ job m, p_lookup p job m = Raise NameError ∧
                      p_lookup p' job m = Raise NameError).

(** The same for two setup-time tables. *)
Definition stable_rel (bound : Prop)
    (R : string → string → string → Z → Z → Prop) (s s' : SDict) : Prop :=
  (bound → ∀ last job m, ∃ v v',
      s_lookup s last job m = Ok v ∧ s_lookup s' last job m = Ok v' ∧
      R last job m v v') ∧
  (¬ bound → ∀ last job m, s_lookup s last job m = Raise NameError ∧
                           s_lookup s' last job m = Raise NameError).

(** Every entry of the array is 0. *)
Definition all_zero2 (P : PTimes) : Prop :=
  ∀ row v, row ∈ P → v ∈ row → v = 0.

(** Every entry of the three-level array is 0. *)
Definition all_zero3 (S : STimes) : Prop :=
  ∀ plane, plane ∈ S → all_zero2 plane.

(** Two runs of a loop over the same list, iteration by iteration: both
    go on with related values and heaps, or both raise the same
    exception.  The invariant may mention what is left to iterate. *)
Definition outcome_rel {B} (Rv : B → B → Prop) (Rok Rfail : heap → heap → Prop)
    (o1 o2 : result B * heap) : Prop :=
  match o1.1, o2.1 with
  | Ok b1, Ok b2 => Rv b1 b2 ∧ Rok o1.2 o2.2
  | Raise e1, Raise e2 => e1 = e2 ∧ Rfail o1.2 o2.2
  | _, _ => False
  end.

(** Two heaps hold the same records at the listed objects. *)
Definition agree_on (rs : list ref) (h1 h2 : heap) : Prop :=
  ∀ r, r ∈ rs → h1 r = h2 r.

(** One machine, as a function of the heap. *)
Definition machine_run (for_bin : bool) (p_times : PDict) (s_times : SDict)
    (m : string) (assigned : list ref) (h : heap) : result Z * heap :=
  let copy := map h assigned in
  let order := py_sorted (fun r => start_time (h r)) assigned in
  match for_each (step for_bin p_times s_times m assigned copy) order h with
  | (Ok _, h') => (py_max id (map completion_time (map h' assigned)), h')
  | (Raise e, h') => (Raise e, h')
  end.

(** The jobs of machine [m], in list order. *)
Definition jobs_on (h : heap) (jobs : list ref) (m : string) : list ref :=
  filter (fun r => machine (h r) = m) jobs.

(** [assigned_machines] for the machine names [keys]. *)
Definition groups_of (h : heap) (jobs : list ref) (keys : list string)
    : list (string * list ref) :=
  map (fun m => (m, jobs_on h jobs m)) keys.

(** The list [makespans] after the loop: lines 87-137 of [_calc_makespan]. *)
Definition makespans_of (jobs : list ref) (process_times : PTimes)
    (setup_times : STimes) (job_names machines : list string)
    (for_bin : bool) : M (list Z) :=
  s_times ← lift (makeDict3 job_names job_names machines setup_times);
  p_times ← lift (makeDict2 (tail job_names) machines process_times);
  propagate for_bin p_times s_times jobs.

(** Two lists of the same length, related element by element. *)
Fixpoint forall2b {A} (f : A → A → bool) (xs ys : list A) : bool :=
  match xs, ys with
  | [], [] => true
  | x :: xs', y :: ys' => f x y && forall2b f xs' ys'
  | _, _ => false
  end.

(** Two rows of the same length whose entries are equal in every column
    except those headed by [M2]. *)
Fixpoint row_agrees_off (M2 : string) (machines : list string)
    (row row' : list Z) : bool :=
  match row, row' with
  | [], [] => true
  | v :: r, v' :: r' =>
      match machines with
      | [] => (v =? v') && row_agrees_off M2 [] r r'
      | m :: ms => (String.eqb m M2 || (v =? v')) && row_agrees_off M2 ms r r'
      end
  | _, _ => false
  end.

(** Two processing-time arrays of the same shape that differ only in the
    entries of machine [M2]. *)
Definition ptimes_agree_off (M2 : string) (machines : list string)
    (P P' : PTimes) : bool :=
  forall2b (row_agrees_off M2 machines) P P'.

(** Two setup-time arrays of the same shape that differ only in the
    entries of machine [M2]. *)
Definition stimes_agree_off (M2 : string) (machines : list string)
    (S S' : STimes) : bool :=
  forall2b (forall2b (row_agrees_off M2 machines)) S S'.

(** The two-job scenario: jobs A (start time 0) and B (start time 5) on
    machine M, listed in this order; processing times 5 and 3; setup time
    2 from A to B and 0 elsewhere.  Input completion times and capacities
    are parameters. *)
Definition scen_lp := LPInstance.mk ["0";"A";"B"]%string ["M"]%string.

(** Processing times of A and B on M. *)
Definition scen_P : PTimes := [[5]; [3]].

(** Setup times, indexed by predecessor ("0", A, B), successor, machine. *)
Definition scen_S : STimes :=
  [[[0]; [0]; [0]]; [[0]; [0]; [2]]; [[0]; [0]; [0]]].

(** The two tables of the scenario, as [_calc_makespan] builds them. *)
Definition scen_s_times : SDict :=
  match makeDict3 ["0";"A";"B"]%string ["0";"A";"B"]%string ["M"]%string scen_S with
  | Ok s => s | Raise _ => mkDD ∅ None end.

Definition scen_p_times : PDict :=
  match makeDict2 ["A";"B"]%string ["M"]%string scen_P with
  | Ok p => p | Raise _ => mkDD ∅ None end.

(** The heap of the scenario: object 0 is A, object 1 is B. *)
Definition scen_heap cA cB qA qB : heap :=
  heap_of_list [mkJob "A" "M" 0 cA qA; mkJob "B" "M" 5 cB qB].

(** The records of A and B on input. *)
Definition scen_A cA qA := mkJob "A" "M" 0 cA qA.

Definition scen_B cB qB := mkJob "B" "M" 5 cB qB.

(** The heap of the scenario after A has been processed. *)
Definition scen_heap_A cA cB qA qB : heap :=
  let h := scen_heap cA cB qA qB in
  upd (upd h 0%nat (set_start (h 0%nat) 0)) 0%nat
    (set_completion (set_start (h 0%nat) 0) 5).

(** Every entry of the array is 0, as a test. *)
Definition all_zero2b (P : PTimes) : bool := forallb (forallb (Z.eqb 0)) P.

(** Every entry of the three-level array is 0, as a test. *)
Definition all_zero3b (S : STimes) : bool := forallb all_zero2b S.

(** The completion time the loop body computes for a job whose record is
    [j] when its turn comes, from the copy of the machine's jobs. *)
Definition ordered_value (p : PDict) (s : SDict) (m : string)
    (copy : list JobResultInfo) (j : JobResultInfo) : result Z :=
  match _find_last_completed (name j) copy m with
  | Raise e => Raise e
  | Ok lc0 =>
      let lc := if start_time j =? 0 then dummy_job m else lc0 in
      match p_lookup p (name j) m with
      | Raise e => Raise e
      | Ok pv =>
          match s_lookup s (name lc) (name j) m with
          | Raise e => Raise e
          | Ok sv => Ok (completion_time lc + pv + sv)
          end
      end
  end.

(** The first exception, or all the values. *)
Fixpoint collect_results (rs : list (result Z)) : result (list Z) :=
  match rs with
  | [] => Ok []
  | Ok v :: rs' =>
      match collect_results rs' with
      | Ok vs => Ok (v :: vs)
      | Raise e => Raise e
      end
  | Raise e :: _ => Raise e
  end.

(** The fields of a job object that identify it. *)
Definition same_identity (j j' : JobResultInfo) : Prop :=
  name j = name j' ∧ machine j = machine j' ∧ capacity j = capacity j'.

(** The position [i] holds the last occurrence of [a] in [l]. *)
Definition last_at (l : list string) (i : nat) (a : string) : Prop :=
  l !! i = Some a ∧ ∀ j : nat, (i < j)%nat → l !! j ≠ Some a.

(** The gates the docstring of [ghz.py] lists: a Hadamard gate on the
    first qubit, then a CNOT gate from each qubit to the next. *)
Definition ghz_gates (n : nat) : list QuantumCircuit.instruction :=
  QuantumCircuit.HGate 0
  :: map (fun i => QuantumCircuit.CXGate i (i + 1)) (seq 0 (n - 1)).

(** The measurements of the docstring: qubit [i] into classical bit [i]. *)
Definition ghz_measurements (n : nat) : list QuantumCircuit.instruction :=
  map (fun i => QuantumCircuit.Measure i i) (seq 0 n).

(** The sources give no meaning to the gates; the docstring of [ghz.py]
    states the state the circuit is to prepare.  A state is written as a
    list of terms, each a computational basis state, one bit per qubit,
    with an integer coefficient; a common factor of 1/sqrt(2) per Hadamard
    gate is left out.  A Hadamard gate turns |0> into |0> + |1> and |1>
    into |0> - |1>; a CNOT gate flips the target bit of the terms whose
    control bit is 1; a measurement leaves the terms as they are. *)
Definition term : Type := Z * list bool.

Definition apply_gate (i : QuantumCircuit.instruction) (t : term)
    : list term :=
  let '(a, bits) := (t : Z * list bool) in
  match i with
  | QuantumCircuit.HGate q =>
      [(a, <[q := false]> bits);
       ((if (bits !!! q : bool) then - a else a), <[q := true]> bits)]
  | QuantumCircuit.CXGate c q =>
      [(a, <[q := xorb (bits !!! c) (bits !!! q)]> bits)]
  | QuantumCircuit.Measure _ _ => [(a, bits)]
  end.

Definition apply_gates (gates : list QuantumCircuit.instruction)
    (state : list term) : list term :=
  foldl (fun state i => state ≫= apply_gate i) state gates.

(** The number of Hadamard gates: the power of 1/sqrt(2) left out. *)
Definition is_hadamard (i : QuantumCircuit.instruction) : bool :=
  match i with QuantumCircuit.HGate _ => true | _ => false end.

Definition hadamard_count (gates : list QuantumCircuit.instruction) : nat :=
  length (filter (fun i => is_hadamard i = true) gates).

(** * Inputs of the examples *)

(** Two jobs on two machines, with tables that differ in an entry of M2. *)
Definition ex_two_machines : list JobResultInfo :=
  [mkJob "A" "M1" 0 0 1; mkJob "B" "M2" 0 0 1].

Definition ex_job_names : list string := ["0"; "A"; "B"]%string.

Definition ex_machines : list string := ["M1"; "M2"]%string.

Definition ex_S0 : STimes :=
  [[[0; 0]; [0; 0]; [0; 0]]; [[0; 0]; [0; 0]; [0; 0]]; [[0; 0]; [0; 0]; [0; 0]]].

Definition ex_S1 : STimes :=
  [[[0; 0]; [0; 0]; [0; 4]]; [[0; 0]; [0; 0]; [0; 0]]; [[0; 0]; [0; 0]; [0; 0]]].

(** Three jobs on one machine; C has start time 0. *)
Definition ex_three_jobs : list JobResultInfo :=
  [mkJob "A" "M" 2 9 1; mkJob "B" "M" 1 4 1; mkJob "C" "M" 0 0 1].

(** One job J on machine M. *)
Definition ex_lp_J : LPInstance.t := LPInstance.mk ["0"; "J"]%string ["M"]%string.

Definition ex_S_J : STimes := [[[0]; [0]]; [[0]; [0]]].

Definition ex_P_zero : PTimes := [[0]].

(** Three jobs on machine M; A and B have the same input completion
    time; setup time 1 from A to C and 2 from B to C. *)
Definition ex_lp_ABC : LPInstance.t :=
  LPInstance.mk ["0"; "A"; "B"; "C"]%string ["M"]%string.

Definition ex_P_ABC : PTimes := [[1]; [1]; [1]].

Definition ex_S_ABC : STimes :=
  [[[0]; [0]; [0]; [0]]; [[0]; [0]; [0]; [1]];
   [[0]; [0]; [0]; [2]]; [[0]; [0]; [0]; [0]]].

Definition ex_heap_ABC : heap :=
  heap_of_list [mkJob "A" "M" 0 5 1; mkJob "B" "M" 0 5 1; mkJob "C" "M" 5 9 1].

(** Three jobs on two machines: A and B on M1, C on M2; B starts at 4. *)
Definition demo_jobs : list JobResultInfo :=
  [mkJob "A" "M1" 0 0 1; mkJob "B" "M1" 4 0 2; mkJob "C" "M2" 0 0 3].

Definition demo_heap : heap := heap_of_list demo_jobs.

Definition demo_names : list string := ["0"; "A"; "B"; "C"]%string.

Definition demo_machines : list string := ["M1"; "M2"]%string.

(** Processing times: one row per job A, B, C; one column per machine. *)
Definition demo_P : PTimes := [[5; 6]; [3; 4]; [2; 7]].

(** Setup times: one plane per predecessor 0, A, B, C; one row per
    successor 0, A, B, C; one column per machine. *)
Definition demo_S : STimes :=
  [[[0; 0]; [1; 1]; [2; 2]; [1; 3]];
   [[0; 0]; [0; 0]; [2; 1]; [0; 0]];
   [[0; 0]; [1; 1]; [0; 0]; [0; 0]];
   [[0; 0]; [0; 0]; [0; 0]; [0; 0]]].

Definition demo_accelerators : list (string * Z) :=
  [("M1"%string, 5); ("M2"%string, 7)].

(** The same jobs, all with start time 0. *)
Definition demo_heap_zero : heap :=
  heap_of_list
    [mkJob "A" "M1" 0 0 1; mkJob "B" "M1" 0 0 2; mkJob "C" "M2" 0 0 3].

(** The same jobs, A starting at 1: no job of M1 starts at 0. *)
Definition demo_heap_late : heap :=
  heap_of_list
    [mkJob "A" "M1" 1 0 1; mkJob "B" "M1" 4 0 2; mkJob "C" "M2" 0 0 3].

(** The two runs of the example, and the run with all start times 0. *)
Definition demo_run (for_bin : bool) : result Z * heap :=
  _calc_makespan [0; 1; 2]%nat demo_P demo_S demo_names demo_machines for_bin
    demo_heap.

Definition demo_run_zero : result Z * heap :=
  _calc_makespan [0; 1; 2]%nat demo_P demo_S demo_names demo_machines true
    demo_heap_zero.

(** * Properties *)

(** ** The step in closed form *)

Lemma predecessor_bin m assigned copy job h :
  predecessor true m assigned copy job h =
  match py_max completion_time (map h assigned) with
  | Ok lc => Ok (if start_time (h job) =? 0 then dummy_job m else lc)
  | Raise e => Raise e
  end.
Proof.
  unfold predecessor, last_completed_of, mbind, M_bind, read_all, lift, read.
  destruct (py_max completion_time (map h assigned)); reflexivity.
Qed.

Lemma predecessor_ordered m assigned copy job h :
  predecessor false m assigned copy job h =
  match _find_last_completed (name (h job)) copy m with
  | Ok lc => Ok (if start_time (h job) =? 0 then dummy_job m else lc)
  | Raise e => Raise e
  end.
Proof.
  unfold predecessor, last_completed_of, mbind, M_bind, read_all, lift, read.
  destruct (_find_last_completed (name (h job)) copy m); reflexivity.
Qed.

Lemma last_completed_of_eq for_bin m assigned copy job h :
  last_completed_of for_bin m assigned copy job h =
  match predecessor for_bin m assigned copy job h with
  | Ok lc =>
      (Ok lc,
       upd h job (set_start (h job) (new_start_time for_bin assigned lc h)))
  | Raise e => (Raise e, h)
  end.
Proof.
  destruct for_bin.
  - rewrite predecessor_bin.
    unfold last_completed_of, mbind, M_bind, read_all, lift, read.
    destruct (py_max completion_time (map h assigned)); reflexivity.
  - rewrite predecessor_ordered.
    unfold last_completed_of, mbind, M_bind, read_all, lift, read.
    destruct (_find_last_completed (name (h job)) copy m); reflexivity.
Qed.

Lemma upd_same h r j : upd h r j r = j.
Proof. unfold upd. by rewrite Nat.eqb_refl. Qed.

Lemma upd_other h r j r' : r' ≠ r → upd h r j r' = h r'.
Proof. intros H. unfold upd. by apply Nat.eqb_neq in H as ->. Qed.

Lemma process_job_eq for_bin p_times s_times m assigned copy job h :
  process_job for_bin p_times s_times m assigned copy job h =
  step for_bin p_times s_times m assigned copy job h.
Proof.
  unfold process_job, step.
  unfold mbind at 1. unfold M_bind at 1.
  rewrite last_completed_of_eq.
  destruct (predecessor for_bin m assigned copy job h) as [lc|e]; [|done].
  unfold mbind, M_bind, read, lift, write_completion_time.
  rewrite upd_same. simpl.
  destruct (p_lookup p_times (name (h job)) m); [|done].
  destruct (s_lookup s_times (name lc) (name (h job)) m); done.
Qed.

(** ** Facts about the builtins *)

Section builtins.
Context {A : Type} (key : A -> Z).

Lemma max_from_elem cur xs : max_from key cur xs ∈ cur :: xs.
Proof.
  revert cur. induction xs as [|x xs IH]; intros cur; simpl.
  - apply list_elem_of_here.
  - specialize (IH (if key cur <? key x then x else cur)).
    apply elem_of_cons in IH as [->|IH].
    + destruct (key cur <? key x); set_solver.
    + set_solver.
Qed.

Lemma max_from_ge_cur cur xs : key cur ≤ key (max_from key cur xs).
Proof.
  revert cur. induction xs as [|x xs IH]; intros cur; simpl; [lia|].
  specialize (IH (if key cur <? key x then x else cur)).
  destruct (Z.ltb_spec (key cur) (key x)); lia.
Qed.

Lemma max_from_ge cur xs y :
  y ∈ cur :: xs → key y ≤ key (max_from key cur xs).
Proof.
  revert cur. induction xs as [|x xs IH]; intros cur Hy; simpl.
  - apply list_elem_of_singleton in Hy as ->. lia.
  - apply elem_of_cons in Hy as [->|Hy].
    + pose proof (max_from_ge_cur (if key cur <? key x then x else cur) xs).
      destruct (Z.ltb_spec (key cur) (key x)); lia.
    + apply elem_of_cons in Hy as [->|Hy].
      * pose proof (max_from_ge_cur (if key cur <? key x then x else cur) xs).
        destruct (Z.ltb_spec (key cur) (key x)); lia.
      * apply IH. set_solver.
Qed.

Lemma py_max_Ok xs : xs ≠ [] → ∃ v, py_max key xs = Ok v.
Proof. destruct xs; [done|]. eauto. Qed.

Lemma py_max_elem xs v : py_max key xs = Ok v → v ∈ xs.
Proof.
  destruct xs as [|x xs]; [done|]. intros [= <-]. apply max_from_elem.
Qed.

Lemma py_max_ge xs v y : py_max key xs = Ok v → y ∈ xs → key y ≤ key v.
Proof.
  destruct xs as [|x xs]; [done|]. intros [= <-]. apply max_from_ge.
Qed.

Lemma py_max_Raise xs e : py_max key xs = Raise e → xs = [].
Proof. destruct xs; [done|]. discriminate. Qed.

(** With pairwise distinct keys the maximum does not depend on the
    order of the list. *)
Lemma key_inj_of_NoDup (xs : list A) x y :
  NoDup (map key xs) → x ∈ xs → y ∈ xs → key x = key y → x = y.
Proof.
  induction xs as [|a xs IH]; intros Hnd Hx Hy Hk; [by inversion Hx|].
  simpl in Hnd. apply NoDup_cons in Hnd as [Ha Hnd].
  apply elem_of_cons in Hx as [->|Hx]; apply elem_of_cons in Hy as [->|Hy].
  - done.
  - exfalso. apply Ha. rewrite Hk. by apply list_elem_of_fmap_2.
  - exfalso. apply Ha. rewrite <- Hk. by apply list_elem_of_fmap_2.
  - by apply IH.
Qed.

Lemma py_max_perm xs ys :
  xs ≡ₚ ys → NoDup (map key xs) → py_max key xs = py_max key ys.
Proof.
  intros Hp Hnd.
  destruct (py_max key xs) as [v|e] eqn:Hx.
  - assert (ys ≠ []) as Hne.
    { intros ->. apply Permutation_nil_r in Hp. by subst. }
    destruct (py_max_Ok ys Hne) as [w Hy]. rewrite Hy. f_equal.
    pose proof (py_max_elem _ _ Hx) as Hv.
    pose proof (py_max_elem _ _ Hy) as Hw.
    rewrite <- Hp in Hw.
    apply (key_inj_of_NoDup xs); [done..|].
    pose proof (py_max_ge _ _ _ Hx Hw).
    rewrite Hp in Hv.
    pose proof (py_max_ge _ _ _ Hy Hv). lia.
  - pose proof (py_max_Raise _ _ Hx) as ->.
    apply Permutation_nil_l in Hp. subst ys. done.
Qed.

Lemma insert_sorted_perm x l : insert_sorted key x l ≡ₚ x :: l.
Proof.
  induction l as [|y l IH]; simpl; [done|].
  destruct (key x <=? key y); [done|].
  rewrite IH. apply Permutation_swap.
Qed.

Lemma py_sorted_perm xs : py_sorted key xs ≡ₚ xs.
Proof.
  induction xs as [|x xs IH]; simpl; [done|].
  rewrite insert_sorted_perm. by rewrite IH.
Qed.
End builtins.

(** [sorted] keeps equal keys in list order; [max] returns the first of
    several maximal elements. *)
Example py_sorted_is_stable :
  py_sorted (fun x : Z * Z => x.2) [(1, 1); (2, 0); (3, 1); (4, 0)]
  = [(2, 0); (4, 0); (1, 1); (3, 1)].
Proof. reflexivity. Qed.

Example py_max_keeps_first :
  py_max (fun x : Z * Z => x.2) [(1, 3); (2, 7); (3, 7)] = Ok (2, 7).
Proof. reflexivity. Qed.

(** The maximum of a list of numbers is determined by its elements. *)
Lemma py_max_id_unique (xs ys : list Z) v :
  py_max id xs = Ok v → (∀ x, x ∈ xs ↔ x ∈ ys) → py_max id ys = Ok v.
Proof.
  intros Hx Hiff.
  pose proof (py_max_elem _ _ _ Hx) as Hv.
  assert (ys ≠ []) as Hne.
  { intros ->. apply Hiff in Hv. by inversion Hv. }
  destruct (py_max_Ok id ys Hne) as [w Hy]. rewrite Hy. f_equal.
  pose proof (py_max_elem _ _ _ Hy) as Hw.
  pose proof (py_max_ge _ _ _ _ Hx (proj2 (Hiff w) Hw)).
  pose proof (py_max_ge _ _ _ _ Hy (proj1 (Hiff v) Hv)).
  unfold id in *. lia.
Qed.

(** ** Facts about the time tables

    Two tables built over the same header lists are compared level by
    level; taking both tables equal gives the facts about one table. *)

Section leaf.
Context (Rz : string → Z → Z → Prop).
Hypothesis Rz_default : ∀ m, Rz m 0 0.

Lemma dict_of_zip_rel (h1 : list string) (row row' : list Z)
    (d d' : gmap string Z) :
  length row = length row' →
  (∀ i m v v', h1 !! i = Some m → row !! i = Some v → row' !! i = Some v' →
               Rz m v v') →
  (∀ m, option_Forall2 (Rz m) (d !! m) (d' !! m)) →
  ∀ m, option_Forall2 (Rz m)
         (dict_update d (zip h1 row) !! m)
         (dict_update d' (zip h1 row') !! m).
Proof.
  revert row row' d d'.
  induction h1 as [|k h1 IH]; intros row row' d d' Hlen Hrows Hd; [done|].
  destruct row as [|v row], row' as [|v' row']; simpl in *; try done.
  unfold dict_update in *. simpl. apply IH.
  - lia.
  - intros i m w w' ???. by apply (Hrows (S i) m w w').
  - intros m. destruct (decide (k = m)) as [->|Hne].
    + rewrite !lookup_insert_eq. constructor.
      by apply (Hrows 0%nat m v v').
    + rewrite !lookup_insert_ne by done. apply Hd.
Qed.

Lemma makeDict_leaf_rel (h1 : list string) (row row' : list Z) :
  length row = length row' →
  (∀ i m v v', h1 !! i = Some m → row !! i = Some v → row' !! i = Some v' →
               Rz m v v') →
  result_rel (fun x x' =>
      dd_rel True Rz x.1 x'.1 ∧
      dd_rel True (fun _ v v' => v = 0 ∧ v' = 0) x.2 x'.2)
    (makeDict_leaf h1 row) (makeDict_leaf h1 row').
Proof.
  intros Hlen Hrows. constructor. simpl. split; split; try tauto.
  - intros _ m. unfold getitem, dict_of. simpl.
    pose proof (dict_of_zip_rel h1 row row' ∅ ∅ Hlen Hrows) as H.
    specialize (H ltac:(intros ?; rewrite !lookup_empty; constructor) m).
    destruct H as [v v' Hv|].
    + by exists v, v'.
    + by exists 0, 0.
  - intros _ m. unfold getitem. simpl. rewrite lookup_empty.
    by exists 0, 0.
Qed.
End leaf.

Section node.
Context {A A' V V' : Type}.
Context (sub : A → result (V * V)) (sub' : A' → result (V' * V')).
Context (Ra : A → A' → Prop).
Context (Rrow Rdef : V → V' → Prop).
Hypothesis sub_rel : ∀ a a', Ra a a' →
  result_rel (fun x x' => Rrow x.1 x'.1 ∧ Rdef x.2 x'.2) (sub a) (sub' a').

(** The accumulators of the row loop after the headers [seen]. *)
Definition rows_inv (seen : list string)
    (acc : gmap string V * option V) (acc' : gmap string V' * option V')
    : Prop :=
  (∀ k, k ∈ seen →
        ∃ v v', acc.1 !! k = Some v ∧ acc'.1 !! k = Some v' ∧ Rrow v v') ∧
  (∀ k, k ∉ seen → acc.1 !! k = None ∧ acc'.1 !! k = None) ∧
  (seen = [] → acc.2 = None ∧ acc'.2 = None) ∧
  (seen ≠ [] → ∃ v v', acc.2 = Some v ∧ acc'.2 = Some v' ∧ Rdef v v').

Lemma makeDict_rows_rel h0 array array' :
  Forall2 Ra array array' →
  ∀ i seen res dv res' dv',
    rows_inv seen (res, dv) (res', dv') →
    result_rel (rows_inv (seen ++ h0))
      (makeDict_rows sub h0 array i res dv)
      (makeDict_rows sub' h0 array' i res' dv').
Proof.
  intros Harr. induction h0 as [|h hs IH]; intros i seen res dv res' dv' Hinv.
  - simpl. constructor. by rewrite app_nil_r.
  - simpl.
    destruct (array !! i) as [a|] eqn:Ha.
    + destruct (Forall2_lookup_l _ _ _ i a Harr Ha) as (a' & -> & Hrel).
      destruct (sub_rel a a' Hrel) as [[d dv1] [d' dv1'] [Hd Hdv]|e];
        [|constructor].
      simpl in Hd, Hdv.
      replace (seen ++ h :: hs) with ((seen ++ [h]) ++ hs)
        by (by rewrite <- app_assoc).
      apply IH.
      destruct Hinv as (Hin & Hout & _ & _).
      split; [|split; [|split]]; simpl.
      * intros k Hk. destruct (decide (h = k)) as [->|Hne].
        -- rewrite !lookup_insert_eq. eauto.
        -- rewrite !lookup_insert_ne by done. apply Hin.
           apply elem_of_app in Hk as [Hk|Hk]; [done|].
           by apply list_elem_of_singleton in Hk.
      * intros k Hk.
        assert (h ≠ k) by (intros ->; apply Hk, elem_of_app; right; constructor).
        rewrite !lookup_insert_ne by done.
        apply Hout. intros Hs. apply Hk, elem_of_app. by left.
      * intros Heq. by destruct seen.
      * intros _. eauto.
    + assert (array' !! i = None) as ->.
      { apply Forall2_length in Harr.
        apply lookup_ge_None. apply lookup_ge_None in Ha. lia. }
      constructor.
Qed.

Lemma makeDict_node_rel h0 array array' :
  Forall2 Ra array array' →
  result_rel (fun x x' =>
      dd_rel (h0 ≠ [])
        (fun k v v' => (k ∈ h0 → Rrow v v') ∧ (k ∉ h0 → Rdef v v'))
        x.1 x'.1 ∧
      dd_rel (h0 ≠ []) (fun _ v v' => Rdef v v') x.2 x'.2)
    (makeDict_node sub h0 array) (makeDict_node sub' h0 array').
Proof.
  intros Harr. unfold makeDict_node.
  assert (rows_inv [] (∅, None) (∅, None)) as Hinit.
  { split; [|split; [|split]]; simpl; [| |done|done].
    - intros k Hk. by apply elem_of_nil in Hk.
    - intros k _. by rewrite !lookup_empty. }
  pose proof (makeDict_rows_rel h0 array array' Harr 0%nat [] ∅ None ∅ None
                Hinit) as H.
  destruct H as [[res dv] [res' dv'] (Hin & Hout & Hnil & Hcons)|e].
  - simpl in *. constructor. simpl.
    split; split.
    + intros Hne k. destruct (Hcons Hne) as (v & v' & -> & -> & Hdef).
      unfold getitem; simpl.
      destruct (decide (k ∈ h0)) as [Hk|Hk].
      * destruct (Hin k Hk) as (w & w' & -> & -> & Hw).
        exists w, w'. tauto.
      * destruct (Hout k Hk) as [-> ->].
        exists v, v'. tauto.
    + intros Hne k. assert (h0 = []) as Heq
        by (destruct h0; [done|by exfalso; apply Hne]).
      destruct (Hnil Heq) as [-> ->]. unfold getitem; simpl.
      destruct (Hout k) as [-> ->]; [|done].
      subst h0. apply not_elem_of_nil.
    + intros Hne k. destruct (Hcons Hne) as (v & v' & -> & -> & Hdef).
      unfold getitem; simpl. rewrite !lookup_empty. by exists v, v'.
    + intros Hne k. assert (h0 = []) as Heq
        by (destruct h0; [done|by exfalso; apply Hne]).
      destruct (Hnil Heq) as [-> ->]. unfold getitem; simpl.
      by rewrite !lookup_empty.
  - constructor.
Qed.
End node.

Lemma result_rel_fmap {A B A' B'} (f : A → A') (g : B → B')
    (R : A → B → Prop) (R' : A' → B' → Prop) x y :
  (∀ a b, R a b → R' (f a) (g b)) →
  result_rel R x y → result_rel R' (f <$> x) (g <$> y).
Proof. intros Hf [a b Hab|e]; simpl; constructor. by apply Hf. Qed.

Section tables.
Context (Rz : string → Z → Z → Prop).
Hypothesis Rz_default : ∀ m, Rz m 0 0.

(** What relates two leaf dictionaries, and two default leaves. *)
Let leaf_rel : defaultdict Z → defaultdict Z → Prop := dd_rel True Rz.
Let leaf_default_rel : defaultdict Z → defaultdict Z → Prop :=
  dd_rel True (fun _ v v' => v = 0 ∧ v' = 0).

Lemma makeDict2_rel h0 h1 (P P' : PTimes) :
  Forall2 (row_rel Rz h1) P P' →
  result_rel
    (ptable_rel (h0 ≠ [])
       (fun job m v v' =>
          (job ∈ h0 → Rz m v v') ∧ (job ∉ h0 → v = 0 ∧ v' = 0)))
    (makeDict2 h0 h1 P) (makeDict2 h0 h1 P').
Proof.
  intros HP. unfold makeDict2.
  eapply result_rel_fmap;
    [|apply (makeDict_node_rel _ _ (row_rel Rz h1) leaf_rel leaf_default_rel);
      [|exact HP]].
  - intros [p dp] [p' dp'] [[Hb Hu] _]; simpl in *. split.
    + intros Hne job m. destruct (Hb Hne job) as (d & d' & Hd & Hd' & Hin & Hout).
      unfold p_lookup. rewrite Hd, Hd'. simpl.
      destruct (decide (job ∈ h0)) as [Hj|Hj].
      * destruct (Hin Hj) as [Hl _]. destruct (Hl I m) as (v & v' & ? & ? & ?).
        exists v, v'. tauto.
      * destruct (Hout Hj) as [Hl _]. destruct (Hl I m) as (v & v' & ? & ? & ?).
        exists v, v'. tauto.
    + intros Hne job m. destruct (Hu Hne job) as [Hd Hd'].
      unfold p_lookup. by rewrite Hd, Hd'.
  - intros row row' [Hlen Hrow]. by apply makeDict_leaf_rel.
Qed.

Lemma makeDict3_rel h0 h1 h2 (S S' : STimes) :
  Forall2 (Forall2 (row_rel Rz h2)) S S' →
  result_rel
    (stable_rel (h0 ≠ [] ∧ h1 ≠ [])
       (fun last job m v v' =>
          (last ∈ h0 → job ∈ h1 → Rz m v v') ∧
          (last ∉ h0 ∨ job ∉ h1 → v = 0 ∧ v' = 0)))
    (makeDict3 h0 h1 h2 S) (makeDict3 h0 h1 h2 S').
Proof.
  intros HS. unfold makeDict3.
  eapply result_rel_fmap;
    [|apply (makeDict_node_rel _ _ (Forall2 (row_rel Rz h2))
               (dd_rel (h1 ≠ [])
                  (fun k v v' => (k ∈ h1 → leaf_rel v v') ∧
                                 (k ∉ h1 → leaf_default_rel v v')))
               (dd_rel (h1 ≠ []) (fun _ v v' => leaf_default_rel v v')));
      [|exact HS]].
  - intros [s ds] [s' ds'] [[Hb Hu] _]; simpl in *. split.
    + intros [Hne0 Hne1] last job m.
      destruct (Hb Hne0 last) as (d & d' & Hd & Hd' & Hin & Hout).
      unfold s_lookup. rewrite Hd, Hd'. simpl.
      destruct (decide (last ∈ h0)) as [Hl|Hl].
      * destruct (Hin Hl) as [Hrow _].
        destruct (Hrow Hne1 job) as (r & r' & -> & -> & Hrin & Hrout). simpl.
        destruct (decide (job ∈ h1)) as [Hj|Hj].
        -- destruct (Hrin Hj) as [Hleaf _].
           destruct (Hleaf I m) as (v & v' & ? & ? & ?).
           exists v, v'. tauto.
        -- destruct (Hrout Hj) as [Hleaf _].
           destruct (Hleaf I m) as (v & v' & ? & ? & ?).
           exists v, v'. tauto.
      * destruct (Hout Hl) as [Hrow _].
        destruct (Hrow Hne1 job) as (r & r' & -> & -> & [Hleaf _]). simpl.
        destruct (Hleaf I m) as (v & v' & ? & ? & ?).
        exists v, v'. tauto.
    + intros Hne last job m. unfold s_lookup.
      destruct (decide (h0 = [])) as [H0|H0].
      * destruct (Hu ltac:(tauto) last) as [-> ->]. done.
      * destruct (Hb H0 last) as (d & d' & -> & -> & Hin & Hout). simpl.
        assert (¬ h1 ≠ []) as H1 by tauto.
        destruct (decide (last ∈ h0)) as [Hl|Hl].
        -- destruct (Hin Hl) as [_ Hrow]. by destruct (Hrow H1 job) as [-> ->].
        -- destruct (Hout Hl) as [_ Hrow]. by destruct (Hrow H1 job) as [-> ->].
  - intros plane plane' Hplane.
    apply (makeDict_node_rel _ _ (row_rel Rz h2) leaf_rel leaf_default_rel);
      [|done].
    intros row row' [Hlen Hrow]. by apply makeDict_leaf_rel.
Qed.
End tables.

(** Facts about one table. *)
Lemma result_rel_diag {A} (R : A → A → Prop) x a :
  result_rel R x x → x = Ok a → R a a.
Proof. intros H ->. by inversion H. Qed.

Lemma row_rel_diag (Rz : string → Z → Z → Prop) h (P : list (list Z)) :
  (∀ row i m v, row ∈ P → h !! i = Some m → row !! i = Some v → Rz m v v) →
  Forall2 (row_rel Rz h) P P.
Proof.
  intros H. apply Forall_Forall2_diag, Forall_forall. intros row Hrow.
  split; [done|]. intros i m v v' Hm Hv Hv'.
  assert (v' = v) as -> by congruence. by eapply H.
Qed.

Lemma plane_rel_diag (Rz : string → Z → Z → Prop) h (S : STimes) :
  (∀ plane row i m v, plane ∈ S → row ∈ plane → h !! i = Some m →
                      row !! i = Some v → Rz m v v) →
  Forall2 (Forall2 (row_rel Rz h)) S S.
Proof.
  intros H. apply Forall_Forall2_diag, Forall_forall. intros plane Hplane.
  apply row_rel_diag. intros row i m v Hrow. by eapply H.
Qed.

(** A key missing from a header list resolves to 0. *)
Lemma p_lookup_absent h0 h1 P p_times job m :
  makeDict2 h0 h1 P = Ok p_times → h0 ≠ [] →
  job ∉ h0 ∨ m ∉ h1 → p_lookup p_times job m = Ok 0.
Proof.
  intros Hp Hne Habs.
  pose proof (makeDict2_rel (fun m v _ => m ∉ h1 → v = 0) ltac:(done)
                h0 h1 P P) as H.
  eapply result_rel_diag in H; [| |exact Hp].
  - destruct H as [Hb _]. destruct (Hb Hne job m) as (v & v' & -> & _ & Hin & Hout).
    f_equal. destruct (decide (job ∈ h0)) as [Hj|Hj].
    + destruct Habs as [?|Hm]; [done|]. by apply Hin.
    + by apply Hout.
  - apply row_rel_diag. intros row i k v _ Hk _ Hnk.
    exfalso. apply Hnk. by eapply list_elem_of_lookup_2.
Qed.

Lemma s_lookup_absent h0 h1 h2 S s_times last job m :
  makeDict3 h0 h1 h2 S = Ok s_times → h0 ≠ [] → h1 ≠ [] →
  last ∉ h0 ∨ job ∉ h1 ∨ m ∉ h2 → s_lookup s_times last job m = Ok 0.
Proof.
  intros Hs Hne0 Hne1 Habs.
  pose proof (makeDict3_rel (fun m v _ => m ∉ h2 → v = 0) ltac:(done)
                h0 h1 h2 S S) as H.
  eapply result_rel_diag in H; [| |exact Hs].
  - destruct H as [Hb _].
    destruct (Hb (conj Hne0 Hne1) last job m) as (v & v' & -> & _ & Hin & Hout).
    f_equal.
    destruct (decide (last ∈ h0)) as [Hl|Hl]; [|by apply Hout; left].
    destruct (decide (job ∈ h1)) as [Hj|Hj]; [|by apply Hout; right].
    destruct Habs as [?|[?|Hm]]; [done..|]. by apply Hin.
  - apply plane_rel_diag. intros plane row i k v _ _ Hk _ Hnk.
    exfalso. apply Hnk. by eapply list_elem_of_lookup_2.
Qed.

Lemma p_lookup_zero h0 h1 P p_times job m :
  makeDict2 h0 h1 P = Ok p_times → h0 ≠ [] → all_zero2 P →
  p_lookup p_times job m = Ok 0.
Proof.
  intros Hp Hne Hz.
  pose proof (makeDict2_rel (fun _ v _ => v = 0) ltac:(done) h0 h1 P P) as H.
  eapply result_rel_diag in H; [| |exact Hp].
  - destruct H as [Hb _]. destruct (Hb Hne job m) as (v & v' & -> & _ & Hin & Hout).
    f_equal. destruct (decide (job ∈ h0)) as [Hj|Hj]; [by apply Hin|by apply Hout].
  - apply row_rel_diag. intros row i k v Hrow _ Hv.
    eapply Hz; [done|]. by eapply list_elem_of_lookup_2.
Qed.

Lemma s_lookup_zero h0 h1 h2 S s_times last job m :
  makeDict3 h0 h1 h2 S = Ok s_times → h0 ≠ [] → h1 ≠ [] → all_zero3 S →
  s_lookup s_times last job m = Ok 0.
Proof.
  intros Hs Hne0 Hne1 Hz.
  pose proof (makeDict3_rel (fun _ v _ => v = 0) ltac:(done) h0 h1 h2 S S) as H.
  eapply result_rel_diag in H; [| |exact Hs].
  - destruct H as [Hb _].
    destruct (Hb (conj Hne0 Hne1) last job m) as (v & v' & -> & _ & Hin & Hout).
    f_equal.
    destruct (decide (last ∈ h0)) as [Hl|Hl]; [|by apply Hout; left].
    destruct (decide (job ∈ h1)) as [Hj|Hj]; [|by apply Hout; right].
    by apply Hin.
  - apply plane_rel_diag. intros plane row i k v Hplane Hrow _ Hv.
    eapply Hz; [done..|]. by eapply list_elem_of_lookup_2.
Qed.

(** Building a table can only fail on a short array. *)
Lemma makeDict_rows_Raise {A V} (sub : A → result (V * V)) h0 array i res dv e :
  (∀ a e', sub a = Raise e' → e' = IndexError) →
  makeDict_rows sub h0 array i res dv = Raise e → e = IndexError.
Proof.
  intros Hsub. revert i res dv.
  induction h0 as [|h hs IH]; intros i res dv; simpl; [done|].
  destruct (array !! i) as [a|]; [|by intros [= <-]].
  destruct (sub a) as [[d dv']|e'] eqn:Ha.
  - apply IH.
  - intros [= <-]. by eapply Hsub.
Qed.

Lemma makeDict_node_Raise {A V} (sub : A → result (V * V)) h0 array e :
  (∀ a e', sub a = Raise e' → e' = IndexError) →
  makeDict_node sub h0 array = Raise e → e = IndexError.
Proof.
  intros Hsub. unfold makeDict_node.
  destruct (makeDict_rows sub h0 array 0 ∅ None) as [[res dv]|e'] eqn:H;
    simpl; [done|].
  intros [= <-]. by eapply makeDict_rows_Raise.
Qed.

Lemma makeDict2_Raise h0 h1 P e : makeDict2 h0 h1 P = Raise e → e = IndexError.
Proof.
  unfold makeDict2.
  destruct (makeDict_node (makeDict_leaf h1) h0 P) as [x|e'] eqn:H; [done|].
  simpl. intros [= <-]. eapply makeDict_node_Raise; [|exact H]. done.
Qed.

Lemma makeDict3_Raise h0 h1 h2 S e :
  makeDict3 h0 h1 h2 S = Raise e → e = IndexError.
Proof.
  unfold makeDict3.
  destruct (makeDict_node (makeDict_node (makeDict_leaf h2) h1) h0 S)
    as [x|e'] eqn:H; [done|].
  simpl. intros [= <-]. eapply makeDict_node_Raise; [|exact H].
  intros a e1. apply makeDict_node_Raise. done.
Qed.

(** ** Facts about [_find_last_completed] *)

Lemma original_starttime_of_Raise job_name jobs e :
  original_starttime_of job_name jobs = Raise e →
  e = ValueError_not_found job_name ∧ job_name ∉ map name jobs.
Proof.
  induction jobs as [|j jobs IH]; simpl.
  - intros [= <-]. split; [done|]. apply not_elem_of_nil.
  - destruct (String.eqb_spec (name j) job_name) as [Heq|Hne]; [done|].
    intros H. destruct (IH H) as [-> Hnot]. split; [done|].
    apply not_elem_of_cons. split; [done|]. exact Hnot.
Qed.

Lemma original_starttime_of_Ok job_name jobs v :
  original_starttime_of job_name jobs = Ok v →
  ∃ j, j ∈ jobs ∧ name j = job_name ∧ start_time j = v.
Proof.
  induction jobs as [|j jobs IH]; simpl; [done|].
  destruct (String.eqb_spec (name j) job_name) as [Heq|Hne].
  - intros [= <-]. exists j. split; [apply list_elem_of_here|done].
  - intros H. destruct (IH H) as (j' & ? & ? & ?). exists j'.
    split; [by apply list_elem_of_further|done].
Qed.

Lemma original_starttime_of_elem job_name jobs :
  job_name ∈ map name jobs → ∃ v, original_starttime_of job_name jobs = Ok v.
Proof.
  intros Hin.
  destruct (original_starttime_of job_name jobs) as [v|e] eqn:H; [by eexists|].
  by apply original_starttime_of_Raise in H as [_ ?].
Qed.

Lemma find_last_completed_after_start job_name jobs m v :
  original_starttime_of job_name jobs = Ok v →
  ∃ lc, _find_last_completed job_name jobs m = Ok lc ∧
        (filter (fun j => completion_time j ≤ v) jobs = [] ∧ lc = dummy_job m ∨
         py_max completion_time (filter (fun j => completion_time j ≤ v) jobs)
         = Ok lc).
Proof.
  intros Hv. unfold _find_last_completed. rewrite Hv. simpl.
  destruct (filter (fun j => completion_time j ≤ v) jobs) as [|x xs] eqn:Hf; simpl.
  - exists (dummy_job m). by split; [|left].
  - eexists. by split; [|right].
Qed.

Lemma find_last_completed_Raise job_name jobs m e :
  _find_last_completed job_name jobs m = Raise e →
  e = ValueError_not_found job_name ∧ job_name ∉ map name jobs.
Proof.
  intros H.
  destruct (original_starttime_of job_name jobs) as [v|e'] eqn:Hv.
  - destruct (find_last_completed_after_start job_name jobs m v Hv)
      as (lc & Hlc & _). congruence.
  - unfold _find_last_completed in H. rewrite Hv in H. simpl in H.
    injection H as <-. by apply original_starttime_of_Raise.
Qed.

Lemma find_last_completed_Ok job_name jobs m :
  job_name ∈ map name jobs → ∃ lc, _find_last_completed job_name jobs m = Ok lc.
Proof.
  intros Hin. destruct (original_starttime_of_elem _ _ Hin) as [v Hv].
  destruct (find_last_completed_after_start job_name jobs m v Hv)
    as (lc & Hlc & _). by exists lc.
Qed.

(** The first maximal element wins. *)
Lemma max_from_first {A} (key : A → Z) cur xs :
  ∃ i : nat, (cur :: xs) !! i = Some (max_from key cur xs) ∧
    ∀ (i' : nat) y, (i' < i)%nat → (cur :: xs) !! i' = Some y →
                    key y < key (max_from key cur xs).
Proof.
  revert cur. induction xs as [|x xs IH]; intros cur; simpl.
  - exists 0%nat. split; [done|]. intros; lia.
  - destruct (IH (if key cur <? key x then x else cur)) as (i & Hi & Hlt).
    set (cur' := if key cur <? key x then x else cur) in *.
    assert (key cur ≤ key cur' ∧ key x ≤ key cur') as [Hc Hx].
    { subst cur'. destruct (Z.ltb_spec (key cur) (key x)); lia. }
    destruct i as [|i].
    + simpl in Hi. injection Hi as Hi.
      subst cur'. destruct (Z.ltb_spec (key cur) (key x)) as [Hlt'|Hge].
      * exists 1%nat. split; [by rewrite <- Hi|].
        intros [|i'] y ? Hy; [|lia]. simpl in Hy. injection Hy as <-.
        by rewrite <- Hi.
      * exists 0%nat. split; [simpl; by rewrite <- Hi|]. intros; lia.
    + exists (S (S i)). split; [exact Hi|].
      pose proof (Hlt 0%nat cur' ltac:(lia) eq_refl) as H0.
      intros [|[|i']] y ? Hy; simpl in Hy.
      * injection Hy as <-. lia.
      * injection Hy as <-. lia.
      * apply (Hlt (S i')); [lia|done].
Qed.

Lemma py_max_first {A} (key : A → Z) xs v :
  py_max key xs = Ok v →
  ∃ i : nat, xs !! i = Some v ∧
    ∀ (i' : nat) y, (i' < i)%nat → xs !! i' = Some y → key y < key v.
Proof.
  destruct xs as [|x xs]; [done|]. intros [= <-]. apply max_from_first.
Qed.

(** ** Reasoning about the loops *)

(** An invariant kept by a loop none of whose iterations raises. *)
Lemma for_each_inv {A} (body : A → M unit) (Inv : heap → Prop) xs :
  (∀ x h, x ∈ xs → Inv h → ∃ h', body x h = (Ok tt, h') ∧ Inv h') →
  ∀ h, Inv h → ∃ h', for_each body xs h = (Ok tt, h') ∧ Inv h'.
Proof.
  induction xs as [|x xs IH]; intros Hbody h Hinv; simpl.
  - by exists h.
  - destruct (Hbody x h ltac:(apply list_elem_of_here) Hinv) as (h1 & Hx & Hinv1).
    unfold mbind, M_bind. rewrite Hx.
    apply IH; [|done]. intros y h' Hy. apply Hbody. by apply list_elem_of_further.
Qed.

Lemma for_collect_inv {A B} (body : A → M B) (Inv : heap → Prop)
    (Q : A → B → Prop) xs :
  (∀ x h, x ∈ xs → Inv h → ∃ b h', body x h = (Ok b, h') ∧ Q x b ∧ Inv h') →
  ∀ h, Inv h →
    ∃ bs h', for_collect body xs h = (Ok bs, h') ∧ Forall2 Q xs bs ∧ Inv h'.
Proof.
  induction xs as [|x xs IH]; intros Hbody h Hinv; simpl.
  - exists [], h. by repeat split.
  - destruct (Hbody x h ltac:(apply list_elem_of_here) Hinv)
      as (b & h1 & Hx & Hq & Hinv1).
    destruct (IH ltac:(intros y h' Hy; apply Hbody; by apply list_elem_of_further)
                h1 Hinv1) as (bs & h2 & Hxs & Hqs & Hinv2).
    exists (b :: bs), h2. unfold mbind, M_bind. rewrite Hx, Hxs.
    repeat split; [by constructor|done].
Qed.

Lemma for_collect_lockstep {A B} (body body' : A → M B)
    (I : list A → heap → heap → Prop) (Rv : A → B → B → Prop)
    (Rfail : heap → heap → Prop) :
  (∀ x rest h1 h2, I (x :: rest) h1 h2 →
     outcome_rel (Rv x) (I rest) Rfail (body x h1) (body' x h2)) →
  ∀ xs h1 h2, I xs h1 h2 →
     outcome_rel (fun bs1 bs2 => Forall3 Rv xs bs1 bs2) (I []) Rfail
       (for_collect body xs h1) (for_collect body' xs h2).
Proof.
  intros Hbody. induction xs as [|x xs IH]; intros h1 h2 HI; simpl.
  - split; [constructor|done].
  - specialize (Hbody x xs h1 h2 HI). unfold outcome_rel in Hbody.
    unfold mbind, M_bind.
    destruct (body x h1) as [[b1|e1] h1'], (body' x h2) as [[b2|e2] h2'];
      simpl in *; try done.
    destruct Hbody as [Hb HI']. specialize (IH h1' h2' HI').
    unfold outcome_rel in IH.
    destruct (for_collect body xs h1') as [[bs1|e1] h1''],
             (for_collect body' xs h2') as [[bs2|e2] h2''];
      simpl in *; try done.
    destruct IH as [Hbs HI'']. split; [by constructor|done].
Qed.

(** ** The heap through one iteration *)

Lemma agree_on_map rs h1 h2 : agree_on rs h1 h2 → map h1 rs = map h2 rs.
Proof.
  intros H. apply map_ext_in. intros r Hr. apply H. by apply list_elem_of_In.
Qed.

(** An iteration writes to the job it processes and to nothing else, and
    leaves names and machines alone. *)
Lemma step_frame for_bin p s m assigned copy job h r :
  r ≠ job → (step for_bin p s m assigned copy job h).2 r = h r.
Proof.
  intros Hr. unfold step.
  destruct (predecessor for_bin m assigned copy job h); [|done].
  destruct (p_lookup p (name (h job)) m); simpl; [|by rewrite upd_other].
  destruct (s_lookup s _ (name (h job)) m); simpl; by rewrite !upd_other.
Qed.

Lemma step_name_machine for_bin p s m assigned copy job h r :
  name ((step for_bin p s m assigned copy job h).2 r) = name (h r) ∧
  machine ((step for_bin p s m assigned copy job h).2 r) = machine (h r).
Proof.
  destruct (decide (r = job)) as [->|Hr]; [|by rewrite step_frame].
  unfold step.
  destruct (predecessor for_bin m assigned copy job h); [|done].
  destruct (p_lookup p (name (h job)) m); simpl; [|by rewrite upd_same].
  destruct (s_lookup s _ (name (h job)) m); simpl; by rewrite !upd_same.
Qed.

(** An iteration reads the jobs of its machine and the table entries of
    its machine, and nothing else. *)
Lemma step_local for_bin p s p' s' m assigned copy job h1 h2 :
  job ∈ assigned → agree_on assigned h1 h2 →
  (∀ a, p_lookup p a m = p_lookup p' a m) →
  (∀ a b, s_lookup s a b m = s_lookup s' a b m) →
  (step for_bin p s m assigned copy job h1).1 =
  (step for_bin p' s' m assigned copy job h2).1 ∧
  agree_on assigned (step for_bin p s m assigned copy job h1).2
                    (step for_bin p' s' m assigned copy job h2).2.
Proof.
  intros Hjob Hag Hp Hs.
  assert (predecessor for_bin m assigned copy job h1 =
          predecessor for_bin m assigned copy job h2) as Hpred.
  { destruct for_bin.
    - rewrite !predecessor_bin, (agree_on_map _ _ _ Hag), (Hag job Hjob). done.
    - rewrite !predecessor_ordered, (Hag job Hjob). done. }
  unfold step. rewrite <- Hpred.
  destruct (predecessor for_bin m assigned copy job h1) as [lc|e]; [|done].
  assert (new_start_time for_bin assigned lc h1 =
          new_start_time for_bin assigned lc h2) as Hst.
  { unfold new_start_time. by rewrite (agree_on_map _ _ _ Hag). }
  rewrite <- Hst, <- (Hag job Hjob), <- Hp, <- Hs.
  assert (∀ j, agree_on assigned (upd h1 job j) (upd h2 job j)) as Hupd.
  { intros j r Hr. unfold upd. destruct (Nat.eqb r job); [done|by apply Hag]. }
  destruct (p_lookup p (name (h1 job)) m); simpl; [|by split].
  destruct (s_lookup s _ (name (h1 job)) m); simpl; [|by split].
  split; [done|]. rewrite !upd_same.
  intros r Hr. unfold upd. destruct (Nat.eqb r job); [done|by apply Hag].
Qed.

Lemma for_each_ext {A} (body body' : A → M unit) xs h :
  (∀ x h, body x h = body' x h) → for_each body xs h = for_each body' xs h.
Proof.
  intros Hext. revert h. induction xs as [|x xs IH]; intros h; simpl; [done|].
  unfold mbind, M_bind. rewrite Hext. destruct (body' x h) as [[[]|e] h']; [|done].
  apply IH.
Qed.

Lemma for_each_step_frame for_bin p s m assigned copy order h r :
  r ∉ order →
  (for_each (step for_bin p s m assigned copy) order h).2 r = h r.
Proof.
  revert h. induction order as [|job order IH]; intros h Hr; simpl; [done|].
  apply not_elem_of_cons in Hr as [Hne Hr].
  unfold mbind, M_bind.
  pose proof (step_frame for_bin p s m assigned copy job h r Hne) as Hf.
  destruct (step for_bin p s m assigned copy job h) as [[[]|e] h']; [|done].
  simpl in Hf. rewrite IH by done. done.
Qed.

Lemma for_each_step_name_machine for_bin p s m assigned copy order h r :
  name ((for_each (step for_bin p s m assigned copy) order h).2 r) = name (h r) ∧
  machine ((for_each (step for_bin p s m assigned copy) order h).2 r)
  = machine (h r).
Proof.
  revert h. induction order as [|job order IH]; intros h; simpl; [done|].
  unfold mbind, M_bind.
  pose proof (step_name_machine for_bin p s m assigned copy job h r) as Hf.
  destruct (step for_bin p s m assigned copy job h) as [[[]|e] h']; [|done].
  simpl in Hf. destruct (IH h') as [-> ->]. done.
Qed.

Lemma for_each_step_local for_bin p s p' s' m assigned copy order h1 h2 :
  (∀ r, r ∈ order → r ∈ assigned) → agree_on assigned h1 h2 →
  (∀ a, p_lookup p a m = p_lookup p' a m) →
  (∀ a b, s_lookup s a b m = s_lookup s' a b m) →
  (for_each (step for_bin p s m assigned copy) order h1).1 =
  (for_each (step for_bin p' s' m assigned copy) order h2).1 ∧
  agree_on assigned (for_each (step for_bin p s m assigned copy) order h1).2
                    (for_each (step for_bin p' s' m assigned copy) order h2).2.
Proof.
  intros Hsub Hag Hp Hs. revert h1 h2 Hag.
  induction order as [|job order IH]; intros h1 h2 Hag; simpl; [done|].
  unfold mbind, M_bind.
  destruct (step_local for_bin p s p' s' m assigned copy job h1 h2)
    as [Hres Hag']; [apply Hsub, list_elem_of_here|done..|].
  destruct (step for_bin p s m assigned copy job h1) as [[[]|e1] h1'],
           (step for_bin p' s' m assigned copy job h2) as [[[]|e2] h2'];
    simpl in *; try done.
  apply IH; [|done]. intros r Hr. by apply Hsub, list_elem_of_further.
Qed.

Lemma process_machine_eq for_bin p s m assigned h :
  process_machine for_bin p s (m, assigned) h = machine_run for_bin p s m assigned h.
Proof.
  unfold process_machine, machine_run.
  unfold mbind, M_bind, read_all, sorted_by_start_time, lift.
  rewrite (for_each_ext _ (step for_bin p s m assigned (map h assigned)))
    by (intros; apply process_job_eq).
  by destruct (for_each _ _ h) as [[[]|e] h'].
Qed.

Lemma insert_sorted_sorted {A} (key : A → Z) x l :
  StronglySorted (fun a b => key a ≤ key b) l →
  StronglySorted (fun a b => key a ≤ key b) (insert_sorted key x l).
Proof.
  induction 1 as [|y l Hl IH Hy]; simpl.
  - repeat constructor.
  - destruct (Z.leb_spec (key x) (key y)) as [Hle|Hgt].
    + constructor; [by constructor|]. constructor; [done|].
      eapply Forall_impl; [exact Hy|]. simpl. intros z Hz. lia.
    + constructor; [done|]. rewrite insert_sorted_perm.
      constructor; [lia|done].
Qed.

Lemma py_sorted_sorted {A} (key : A → Z) xs :
  StronglySorted (fun a b => key a ≤ key b) (py_sorted key xs).
Proof.
  induction xs as [|x xs IH]; simpl; [constructor|].
  by apply insert_sorted_sorted.
Qed.

Lemma py_sorted_elem {A} (key : A → Z) xs x : x ∈ py_sorted key xs ↔ x ∈ xs.
Proof. by rewrite (py_sorted_perm key xs). Qed.

Lemma machine_run_frame for_bin p s m assigned h r :
  r ∉ assigned → (machine_run for_bin p s m assigned h).2 r = h r.
Proof.
  intros Hr. unfold machine_run.
  pose proof (for_each_step_frame for_bin p s m assigned (map h assigned)
                (py_sorted (fun r => start_time (h r)) assigned) h r) as Hf.
  destruct (for_each _ _ h) as [[[]|e] h']; simpl in *;
    apply Hf; by rewrite py_sorted_elem.
Qed.

Lemma insert_sorted_ext {A} (key key' : A → Z) x l :
  (∀ y, y ∈ x :: l → key y = key' y) →
  insert_sorted key x l = insert_sorted key' x l.
Proof.
  induction l as [|y l IH]; intros Hk; simpl; [done|].
  rewrite (Hk x), (Hk y), IH; [done| |apply list_elem_of_further, list_elem_of_here
                                      |apply list_elem_of_here].
  intros z Hz. apply Hk. apply elem_of_cons in Hz as [->|Hz].
  - apply list_elem_of_here.
  - by do 2 apply list_elem_of_further.
Qed.

Lemma py_sorted_ext {A} (key key' : A → Z) xs :
  (∀ y, y ∈ xs → key y = key' y) → py_sorted key xs = py_sorted key' xs.
Proof.
  induction xs as [|x xs IH]; intros Hk; simpl; [done|].
  rewrite <- IH by (intros y Hy; by apply Hk, list_elem_of_further).
  apply insert_sorted_ext. intros y Hy. apply Hk.
  apply elem_of_cons in Hy as [->|Hy]; [apply list_elem_of_here|].
  apply list_elem_of_further. by apply py_sorted_elem in Hy.
Qed.

Lemma machine_run_local for_bin p s p' s' m assigned h1 h2 :
  agree_on assigned h1 h2 →
  (∀ a, p_lookup p a m = p_lookup p' a m) →
  (∀ a b, s_lookup s a b m = s_lookup s' a b m) →
  (machine_run for_bin p s m assigned h1).1 =
  (machine_run for_bin p' s' m assigned h2).1 ∧
  agree_on assigned (machine_run for_bin p s m assigned h1).2
                    (machine_run for_bin p' s' m assigned h2).2.
Proof.
  intros Hag Hp Hs. unfold machine_run.
  rewrite <- (agree_on_map _ _ _ Hag).
  rewrite <- (py_sorted_ext (fun r => start_time (h1 r))
                            (fun r => start_time (h2 r)))
    by (intros r Hr; by rewrite (Hag r Hr)).
  destruct (for_each_step_local for_bin p s p' s' m assigned (map h1 assigned)
              (py_sorted (fun r => start_time (h1 r)) assigned) h1 h2)
    as [Hres Hag'].
  { intros r. by rewrite py_sorted_elem. }
  { done. }
  { done. }
  { done. }
  destruct (for_each (step for_bin p s m assigned (map h1 assigned)) _ h1)
    as [[[]|e1] h1'],
    (for_each (step for_bin p' s' m assigned (map h1 assigned)) _ h2)
    as [[[]|e2] h2']; simpl in *; try done.
  - by rewrite (agree_on_map _ _ _ Hag').
  - split; [congruence|done].
Qed.

(** ** The partition by machine *)

Lemma dict_append_in (F : string → list ref) keys k r :
  NoDup keys → k ∈ keys →
  dict_append (map (fun m => (m, F m)) keys) k r =
  map (fun m => (m, if decide (m = k) then F m ++ [r] else F m)) keys.
Proof.
  induction keys as [|a keys IH]; intros Hnd Hk; [by inversion Hk|]. simpl.
  apply NoDup_cons in Hnd as [Ha Hnd].
  destruct (String.eqb_spec a k) as [->|Hne].
  - rewrite decide_True by done. f_equal.
    apply map_ext_in. intros b Hb. apply list_elem_of_In in Hb.
    rewrite decide_False; [done|]. by intros ->.
  - rewrite decide_False by done. f_equal. apply IH; [done|].
    by apply elem_of_cons in Hk as [->|Hk].
Qed.

Lemma dict_append_notin (F : string → list ref) keys k r :
  k ∉ keys →
  dict_append (map (fun m => (m, F m)) keys) k r =
  map (fun m => (m, F m)) keys ++ [(k, [r])].
Proof.
  induction keys as [|a keys IH]; intros Hk; [done|]. simpl.
  apply not_elem_of_cons in Hk as [Hne Hk].
  destruct (String.eqb_spec a k) as [->|_]; [done|]. by rewrite IH.
Qed.

Lemma assign_machines_spec jobs h :
  ∃ keys, NoDup keys ∧
    (∀ m, m ∈ keys ↔ ∃ r, r ∈ jobs ∧ machine (h r) = m) ∧
    assign_machines jobs h = (Ok (groups_of h jobs keys), h).
Proof.
  unfold assign_machines.
  induction jobs as [|r jobs IH] using rev_ind.
  - exists []. split; [constructor|]. split; [|done].
    intros m. split; [by intros ?%elem_of_nil|].
    by intros (r & ?%elem_of_nil & _).
  - destruct IH as (keys & Hnd & Hkeys & Heq).
    injection Heq as Heq. rewrite fold_left_app, Heq. simpl.
    unfold groups_of.
    destruct (decide (machine (h r) ∈ keys)) as [Hin|Hnot].
    + exists keys. split; [done|]. split.
      * intros m. rewrite Hkeys. split.
        -- intros (r' & Hr' & Hm). exists r'. split; [|done].
           apply elem_of_app. by left.
        -- intros (r' & Hr' & Hm). apply elem_of_app in Hr' as [Hr'|Hr'].
           ++ by exists r'.
           ++ apply list_elem_of_singleton in Hr' as ->. subst m.
              by apply Hkeys.
      * do 2 f_equal. rewrite dict_append_in by done.
        apply map_ext. intros m. f_equal. unfold jobs_on.
        rewrite filter_app. case_decide as Hm.
        -- by rewrite (filter_cons_True _ r []).
        -- rewrite (filter_cons_False _ r []) by done.
           by rewrite filter_nil, app_nil_r.
    + exists (keys ++ [machine (h r)]). split.
      { apply NoDup_app. split; [done|]. split.
        - intros m Hm ->%list_elem_of_singleton. done.
        - apply NoDup_singleton. }
      split.
      * intros m. rewrite elem_of_app, Hkeys, list_elem_of_singleton. split.
        -- intros [(r' & Hr' & Hm)| ->].
           ++ exists r'. split; [|done]. apply elem_of_app. by left.
           ++ exists r. split; [|done]. apply elem_of_app. right.
              apply list_elem_of_here.
        -- intros (r' & Hr' & Hm). apply elem_of_app in Hr' as [Hr'|Hr'].
           ++ left. by exists r'.
           ++ apply list_elem_of_singleton in Hr' as ->. by right.
      * do 2 f_equal. rewrite dict_append_notin by done.
        rewrite map_app. simpl. f_equal.
        -- apply map_ext_in. intros m Hm%list_elem_of_In. f_equal. unfold jobs_on.
           rewrite filter_app, (filter_cons_False _ r []); [|by intros <-].
           by rewrite filter_nil, app_nil_r.
        -- do 2 f_equal. unfold jobs_on.
           rewrite filter_app, (filter_cons_True _ r []) by done.
           rewrite filter_nil.
           assert (filter (fun r0 => machine (h r0) = machine (h r)) jobs = [])
             as ->; [|done].
           destruct (filter _ jobs) as [|x xs] eqn:Hf; [done|].
           exfalso. apply Hnot, Hkeys. exists x.
           assert (x ∈ filter (fun r0 => machine (h r0) = machine (h r)) jobs)
             as Hx by (rewrite Hf; apply list_elem_of_here).
           apply list_elem_of_filter in Hx as [? ?]. done.
Qed.

(** ** Whether a machine's loop raises *)

Lemma getitem_Raise {V} (d : defaultdict V) k e :
  getitem d k = Raise e → e = NameError.
Proof.
  unfold getitem. destruct (items d !! k); [done|].
  destruct (default_factory d); [done|]. by intros [= <-].
Qed.

Lemma p_lookup_Raise p a m e : p_lookup p a m = Raise e → e = NameError.
Proof.
  unfold p_lookup. destruct (getitem p a) as [row|e'] eqn:H; simpl.
  - apply getitem_Raise.
  - intros [= <-]. by eapply getitem_Raise.
Qed.

Lemma s_lookup_Raise s a b m e : s_lookup s a b m = Raise e → e = NameError.
Proof.
  unfold s_lookup. destruct (getitem s a) as [plane|e'] eqn:H; simpl.
  - destruct (getitem plane b) as [row|e''] eqn:H'; simpl.
    + apply getitem_Raise.
    + intros [= <-]. by eapply getitem_Raise.
  - intros [= <-]. by eapply getitem_Raise.
Qed.

(** Inside the loop of a machine the resolver finds its job. *)
Lemma predecessor_Ok for_bin m assigned job h0 h :
  job ∈ assigned → (∀ r, name (h r) = name (h0 r)) →
  ∃ lc, predecessor for_bin m assigned (map h0 assigned) job h = Ok lc.
Proof.
  intros Hjob Hname. destruct for_bin.
  - rewrite predecessor_bin.
    destruct (py_max_Ok completion_time (map h assigned)) as [lc ->]; [|by eexists].
    destruct assigned; [by inversion Hjob|done].
  - rewrite predecessor_ordered.
    destruct (find_last_completed_Ok (name (h job)) (map h0 assigned) m)
      as [lc ->]; [|by eexists].
    rewrite Hname, map_map.
    by apply (list_elem_of_fmap_2 (fun x => name (h0 x))).
Qed.

Lemma machine_run_total for_bin p s m assigned h :
  (∀ a, ∃ v, p_lookup p a m = Ok v) →
  (∀ a b, ∃ v, s_lookup s a b m = Ok v) →
  assigned ≠ [] →
  ∃ v, (machine_run for_bin p s m assigned h).1 = Ok v.
Proof.
  intros Hp Hs Hne. unfold machine_run.
  destruct (for_each_inv (step for_bin p s m assigned (map h assigned))
              (fun h' => ∀ r, name (h' r) = name (h r))
              (py_sorted (fun r => start_time (h r)) assigned))
    with (h := h) as (h' & -> & _); [|done|].
  - intros job h1 Hjob%py_sorted_elem Hname.
    destruct (predecessor_Ok for_bin m assigned job h h1 Hjob Hname) as [lc Hlc].
    destruct (Hp (name (h1 job))) as [pv Hpv].
    destruct (Hs (name lc) (name (h1 job))) as [sv Hsv].
    pose proof (step_name_machine for_bin p s m assigned (map h assigned) job h1)
      as Hnm.
    unfold step in *. rewrite Hlc, Hpv, Hsv in *.
    eexists. split; [done|]. intros r. destruct (Hnm r) as [Hr _].
    simpl in Hr. rewrite Hr. apply Hname.
  - simpl. apply py_max_Ok. by destruct assigned.
Qed.

Lemma machine_run_raises for_bin p s m assigned h :
  (∀ a, p_lookup p a m = Raise NameError) ∨
  (∀ a b, s_lookup s a b m = Raise NameError) →
  assigned ≠ [] →
  (machine_run for_bin p s m assigned h).1 = Raise NameError.
Proof.
  intros Hraise Hne. unfold machine_run.
  destruct (py_sorted (fun r => start_time (h r)) assigned) as [|job order] eqn:Ho.
  { exfalso. apply Hne. apply Permutation_nil_r.
    rewrite <- Ho. by rewrite py_sorted_perm. }
  assert (job ∈ assigned) as Hjob.
  { apply (py_sorted_elem (fun r => start_time (h r))). rewrite Ho.
    apply list_elem_of_here. }
  destruct (predecessor_Ok for_bin m assigned job h h Hjob) as [lc Hlc]; [done|].
  simpl. unfold mbind, M_bind. unfold step at 1. rewrite Hlc.
  destruct (p_lookup p (name (h job)) m) as [pv|e] eqn:Hpv.
  - destruct Hraise as [Hp|Hs]; [by rewrite Hp in Hpv|]. by rewrite Hs.
  - by apply p_lookup_Raise in Hpv as ->.
Qed.

(** ** The loop over the machines *)

Lemma for_collect_ext {A B} (body body' : A → M B) xs h :
  (∀ x h, body x h = body' x h) →
  for_collect body xs h = for_collect body' xs h.
Proof.
  intros Hext. revert h. induction xs as [|x xs IH]; intros h; simpl; [done|].
  unfold mbind, M_bind. rewrite Hext. destruct (body' x h) as [[b|e] h']; [|done].
  by rewrite IH.
Qed.

Lemma propagate_eq for_bin p s jobs h :
  ∃ keys, NoDup keys ∧
    (∀ m, m ∈ keys ↔ ∃ r, r ∈ jobs ∧ machine (h r) = m) ∧
    (assign_machines jobs h).1 = Ok (groups_of h jobs keys) ∧
    propagate for_bin p s jobs h =
    for_collect (fun g => machine_run for_bin p s g.1 g.2)
      (groups_of h jobs keys) h.
Proof.
  destruct (assign_machines_spec jobs h) as (keys & Hnd & Hkeys & Heq).
  exists keys. repeat split; [done|apply Hkeys|apply Hkeys|by rewrite Heq|].
  unfold propagate, mbind, M_bind. rewrite Heq.
  apply for_collect_ext. intros [m rs] h'. apply process_machine_eq.
Qed.

Lemma groups_of_elem h jobs keys g :
  (∀ m, m ∈ keys → ∃ r, r ∈ jobs ∧ machine (h r) = m) →
  g ∈ groups_of h jobs keys →
  g.2 = jobs_on h jobs g.1 ∧ g.1 ∈ keys ∧ g.2 ≠ [] ∧
  ∀ r, r ∈ g.2 → r ∈ jobs ∧ machine (h r) = g.1.
Proof.
  intros Hkeys Hg. unfold groups_of in Hg.
  apply list_elem_of_fmap in Hg as (m & -> & Hm). simpl.
  split; [done|]. split; [done|]. split.
  - destruct (Hkeys m Hm) as (r & Hr & Hmr). intros Hnil.
    assert (r ∈ jobs_on h jobs m) as Hin by (by apply list_elem_of_filter).
    rewrite Hnil in Hin. by apply elem_of_nil in Hin.
  - intros r Hr. apply list_elem_of_filter in Hr. tauto.
Qed.

Lemma _calc_makespan_eq jobs P S job_names machines for_bin h :
  _calc_makespan jobs P S job_names machines for_bin h =
  match makespans_of jobs P S job_names machines for_bin h with
  | (Ok makespans, h') => (py_max id makespans, h')
  | (Raise e, h') => (Raise e, h')
  end.
Proof.
  unfold _calc_makespan, makespans_of, mbind, M_bind, lift.
  destruct (makeDict3 job_names job_names machines S); [|done].
  destruct (makeDict2 (tail job_names) machines P); [|done].
  by destruct (propagate _ _ _ jobs h) as [[ms|e] h'].
Qed.

(** Two runs on tables that agree away from machine [M2]. *)
Section independence.
Context (M2 : string) (for_bin : bool) (p p' : PDict) (s s' : SDict).
Hypothesis p_agree : ∀ a m, m ≠ M2 → p_lookup p a m = p_lookup p' a m.
Hypothesis s_agree : ∀ a b m, m ≠ M2 → s_lookup s a b m = s_lookup s' a b m.
Hypothesis status :
  ((∀ a m, ∃ v, p_lookup p a m = Ok v) ∧ (∀ a m, ∃ v, p_lookup p' a m = Ok v) ∧
   (∀ a b m, ∃ v, s_lookup s a b m = Ok v) ∧
   (∀ a b m, ∃ v, s_lookup s' a b m = Ok v)) ∨
  ((∀ a m, p_lookup p a m = Raise NameError) ∧
   (∀ a m, p_lookup p' a m = Raise NameError)) ∨
  ((∀ a b m, s_lookup s a b m = Raise NameError) ∧
   (∀ a b m, s_lookup s' a b m = Raise NameError)).

Lemma propagate_independent jobs h keys :
  (∀ m, m ∈ keys → ∃ r, r ∈ jobs ∧ machine (h r) = m) →
  outcome_rel
    (fun ms1 ms2 =>
       Forall3 (fun g v1 v2 => g.1 ≠ M2 → v1 = v2) (groups_of h jobs keys) ms1 ms2)
    (fun h1 h2 => ∀ r, machine (h r) ≠ M2 → h1 r = h2 r)
    (fun h1 h2 => ∀ r, machine (h r) ≠ M2 → h1 r = h2 r)
    (for_collect (fun g => machine_run for_bin p s g.1 g.2)
       (groups_of h jobs keys) h)
    (for_collect (fun g => machine_run for_bin p' s' g.1 g.2)
       (groups_of h jobs keys) h).
Proof.
  intros Hkeys.
  pose (I := fun (rest : list (string * list ref)) (h1 h2 : heap) =>
    (∀ g, g ∈ rest → g.2 ≠ [] ∧ ∀ r, r ∈ g.2 → machine (h r) = g.1) ∧
    (∀ r, machine (h r) ≠ M2 → h1 r = h2 r)).
  assert (I (groups_of h jobs keys) h h) as HI.
  { split; [|done]. intros g Hg.
    destruct (groups_of_elem h jobs keys g Hkeys Hg) as (_ & _ & Hne & Hr).
    split; [done|]. intros r Hin. by apply Hr. }
  enough (∀ x rest h1 h2, I (x :: rest) h1 h2 →
            outcome_rel (fun v1 v2 => x.1 ≠ M2 → v1 = v2) (I rest)
              (fun h1 h2 => ∀ r, machine (h r) ≠ M2 → h1 r = h2 r)
              (machine_run for_bin p s x.1 x.2 h1)
              (machine_run for_bin p' s' x.1 x.2 h2)) as Hbody.
  { pose proof (for_collect_lockstep
      (fun g => machine_run for_bin p s g.1 g.2)
      (fun g => machine_run for_bin p' s' g.1 g.2)
      I (fun g v1 v2 => g.1 ≠ M2 → v1 = v2)
      (fun h1 h2 => ∀ r, machine (h r) ≠ M2 → h1 r = h2 r)
      Hbody (groups_of h jobs keys) h h HI) as Hlock.
    unfold outcome_rel in *.
    destruct (for_collect _ _ h) as [[ms1|e1] h1],
             (for_collect (fun g => machine_run for_bin p' s' g.1 g.2) _ h)
             as [[ms2|e2] h2]; simpl in *; try done.
    destruct Hlock as [? [_ ?]]. done. }
  clear HI. intros [m rs] rest h1 h2 [Hgroups Hag]. simpl.
  destruct (Hgroups (m, rs) ltac:(apply list_elem_of_here)) as [Hne Hrs].
  simpl in Hne, Hrs.
  assert (∀ h1' h2', (∀ r, r ∉ rs → h1' r = h1 r) → (∀ r, r ∉ rs → h2' r = h2 r) →
            (m ≠ M2 → agree_on rs h1' h2') →
            ∀ r, machine (h r) ≠ M2 → h1' r = h2' r) as Hkeep.
  { intros h1' h2' Hf1 Hf2 Hin r Hr.
    destruct (decide (r ∈ rs)) as [Hrs'|Hrs'].
    - apply Hin; [|done]. rewrite <- (Hrs r Hrs'). done.
    - rewrite Hf1, Hf2 by done. by apply Hag. }
  pose proof (fun r => machine_run_frame for_bin p s m rs h1 r) as Hf1.
  pose proof (fun r => machine_run_frame for_bin p' s' m rs h2 r) as Hf2.
  assert (I rest (machine_run for_bin p s m rs h1).2
                 (machine_run for_bin p' s' m rs h2).2 ↔
          ∀ r, machine (h r) ≠ M2 →
               (machine_run for_bin p s m rs h1).2 r =
               (machine_run for_bin p' s' m rs h2).2 r) as HIrest.
  { unfold I. split; [tauto|]. intros H. split; [|done].
    intros g Hg. apply Hgroups. by apply list_elem_of_further. }
  destruct (decide (m = M2)) as [->|HneM].
  - assert (∀ r, machine (h r) ≠ M2 →
               (machine_run for_bin p s M2 rs h1).2 r =
               (machine_run for_bin p' s' M2 rs h2).2 r) as Hafter.
    { apply Hkeep; [done..|tauto]. }
    unfold outcome_rel.
    destruct status as [(Hp & Hp' & Hs & Hs')|[[Hp Hp']|[Hs Hs']]].
    + destruct (machine_run_total for_bin p s M2 rs h1) as [v1 H1]; [done..|].
      destruct (machine_run_total for_bin p' s' M2 rs h2) as [v2 H2]; [done..|].
      rewrite H1, H2. split; [done|]. by apply HIrest.
    + rewrite (machine_run_raises for_bin p s M2 rs h1) by (done || by left).
      rewrite (machine_run_raises for_bin p' s' M2 rs h2) by (done || by left).
      done.
    + rewrite (machine_run_raises for_bin p s M2 rs h1) by (done || by right).
      rewrite (machine_run_raises for_bin p' s' M2 rs h2) by (done || by right).
      done.
  - assert (agree_on rs h1 h2) as Hag0.
    { intros r Hr. apply Hag. by rewrite (Hrs r Hr). }
    destruct (machine_run_local for_bin p s p' s' m rs h1 h2 Hag0)
      as [Hres Hag1]; [by intros; apply p_agree|by intros; apply s_agree|].
    assert (∀ r, machine (h r) ≠ M2 →
               (machine_run for_bin p s m rs h1).2 r =
               (machine_run for_bin p' s' m rs h2).2 r) as Hafter.
    { apply Hkeep; [done..|]. by intros _. }
    unfold outcome_rel. rewrite <- Hres.
    destruct ((machine_run for_bin p s m rs h1).1); [|done].
    split; [done|]. by apply HIrest.
Qed.
End independence.

(** ** Tables that differ only in the entries of one machine *)

Lemma forall2b_Forall2 {A} (f : A → A → bool) (R : A → A → Prop) xs ys :
  (∀ x y, f x y = true → R x y) → forall2b f xs ys = true → Forall2 R xs ys.
Proof.
  intros Hf. revert ys. induction xs as [|x xs IH]; intros [|y ys] H;
    simpl in H; try done.
  apply andb_true_iff in H as [Hxy H]. constructor; [by apply Hf|by apply IH].
Qed.

Lemma row_agrees_off_rel M2 machines row row' :
  row_agrees_off M2 machines row row' = true →
  row_rel (fun m v v' => m ≠ M2 → v = v') machines row row'.
Proof.
  revert machines row'. induction row as [|v row IH];
    intros machines [|v' row'] H; simpl in H; try done.
  destruct machines as [|m ms]; apply andb_true_iff in H as [Hv H];
    destruct (IH _ _ H) as [Hlen Hrows].
  - split; [simpl; by rewrite Hlen|]. intros i k w w' Hk.
    by rewrite lookup_nil in Hk.
  - split; [simpl; by rewrite Hlen|]. intros [|i] k w w' Hk Hw Hw'; simpl in *.
    + injection Hk as <-. injection Hw as <-. injection Hw' as <-.
      intros Hne. apply orb_true_iff in Hv as [Hm|Hv]; [|lia].
      by apply String.eqb_eq in Hm.
    + by eapply Hrows.
Qed.

Lemma tables_agree_off M2 job_names machines P P' S S' :
  ptimes_agree_off M2 machines P P' = true →
  stimes_agree_off M2 machines S S' = true →
  result_rel (fun s s' =>
      (∀ a b m, m ≠ M2 → s_lookup s a b m = s_lookup s' a b m) ∧
      ((∀ a b m, ∃ v, s_lookup s a b m = Ok v) ∧
       (∀ a b m, ∃ v, s_lookup s' a b m = Ok v) ∨
       (∀ a b m, s_lookup s a b m = Raise NameError) ∧
       (∀ a b m, s_lookup s' a b m = Raise NameError)) ∧
      (job_names = [] → ∀ a b m, s_lookup s a b m = Raise NameError))
    (makeDict3 job_names job_names machines S)
    (makeDict3 job_names job_names machines S') ∧
  result_rel (fun p p' =>
      (∀ a m, m ≠ M2 → p_lookup p a m = p_lookup p' a m) ∧
      ((∀ a m, ∃ v, p_lookup p a m = Ok v) ∧
       (∀ a m, ∃ v, p_lookup p' a m = Ok v) ∧ job_names ≠ [] ∨
       (∀ a m, p_lookup p a m = Raise NameError) ∧
       (∀ a m, p_lookup p' a m = Raise NameError)))
    (makeDict2 (tail job_names) machines P)
    (makeDict2 (tail job_names) machines P').
Proof.
  intros HP HS. split.
  - assert (Forall2 (Forall2 (row_rel (fun m v v' => m ≠ M2 → v = v') machines))
              S S') as HS'.
    { eapply forall2b_Forall2; [|exact HS]. intros plane plane'.
      apply forall2b_Forall2. apply row_agrees_off_rel. }
    destruct (makeDict3_rel (fun m v v' => m ≠ M2 → v = v') ltac:(done)
                job_names job_names machines S S' HS') as [s s' [Hb Hu]|e];
      [|constructor].
    constructor. destruct (decide (job_names = [])) as [Hnil|Hne].
    + assert (¬ (job_names ≠ [] ∧ job_names ≠ [])) as Hn by tauto.
      specialize (Hu Hn). split; [|split].
      * intros a b m _. by destruct (Hu a b m) as [-> ->].
      * right. split; intros a b m; by destruct (Hu a b m).
      * intros _ a b m. by destruct (Hu a b m).
    + specialize (Hb (conj Hne Hne)). split; [|split; [|done]].
      * intros a b m Hm. destruct (Hb a b m) as (v & v' & -> & -> & Hin & Hout).
        f_equal.
        destruct (decide (a ∈ job_names)) as [Ha|Ha];
          [|destruct Hout as [-> ->]; tauto].
        destruct (decide (b ∈ job_names)) as [Hb'|Hb'];
          [|destruct Hout as [-> ->]; tauto].
        by apply Hin.
      * left. split; intros a b m;
          destruct (Hb a b m) as (v & v' & Hv & Hv' & _); by eexists.
  - assert (Forall2 (row_rel (fun m v v' => m ≠ M2 → v = v') machines) P P')
      as HP'.
    { eapply forall2b_Forall2; [|exact HP]. apply row_agrees_off_rel. }
    destruct (makeDict2_rel (fun m v v' => m ≠ M2 → v = v') ltac:(done)
                (tail job_names) machines P P' HP') as [p p' [Hb Hu]|e];
      [|constructor].
    constructor. destruct (decide (tail job_names = [])) as [Hnil|Hne].
    + assert (¬ tail job_names ≠ []) as Hn by tauto.
      specialize (Hu Hn). split.
      * intros a m _. by destruct (Hu a m) as [-> ->].
      * right. split; intros a m; by destruct (Hu a m).
    + specialize (Hb Hne). split.
      * intros a m Hm. destruct (Hb a m) as (v & v' & -> & -> & Hin & Hout).
        f_equal.
        destruct (decide (a ∈ tail job_names)) as [Ha|Ha]; [by apply Hin|].
        by destruct (Hout Ha) as [-> ->].
      * left. split; [|split].
        -- intros a m. destruct (Hb a m) as (v & v' & Hv & Hv' & _). by eexists.
        -- intros a m. destruct (Hb a m) as (v & v' & Hv & Hv' & _). by eexists.
        -- intros ->. done.
Qed.

Lemma makespans_of_eq jobs P S job_names machines for_bin h :
  makespans_of jobs P S job_names machines for_bin h =
  match makeDict3 job_names job_names machines S with
  | Raise e => (Raise e, h)
  | Ok s =>
      match makeDict2 (tail job_names) machines P with
      | Raise e => (Raise e, h)
      | Ok p => propagate for_bin p s jobs h
      end
  end.
Proof.
  unfold makespans_of, mbind, M_bind, lift.
  destruct (makeDict3 job_names job_names machines S); [|done].
  by destruct (makeDict2 (tail job_names) machines P).
Qed.

(** A raising iteration ends the loop with its exception. *)
Lemma for_each_raise {A} (body : A → M unit) done x rest h h1 h2 e :
  for_each body done h = (Ok tt, h1) → body x h1 = (Raise e, h2) →
  for_each body (done ++ x :: rest) h = (Raise e, h2).
Proof.
  revert h. induction done as [|y done IH]; intros h; simpl.
  - intros [= <-] Hx. unfold mbind, M_bind. by rewrite Hx.
  - unfold mbind, M_bind. destruct (body y h) as [[[]|e'] h']; [|done].
    apply IH.
Qed.

Lemma for_collect_raise {A B} (body : A → M B) done x rest h bs h1 h2 e :
  for_collect body done h = (Ok bs, h1) → body x h1 = (Raise e, h2) →
  for_collect body (done ++ x :: rest) h = (Raise e, h2).
Proof.
  revert h bs. induction done as [|y done IH]; intros h bs; simpl.
  - intros [= <- <-] Hx. unfold mbind, M_bind. by rewrite Hx.
  - unfold mbind, M_bind. destruct (body y h) as [[b|e'] h']; [|done].
    destruct (for_collect body done h') as [[bs'|e'] h''] eqn:Hd; [|done].
    intros [= <- <-] Hx. by rewrite (IH h' bs' Hd Hx).
Qed.

(** ** The whole run depends on the listed jobs only *)

Lemma fold_left_ext_in {A B} (f g : A → B → A) (l : list B) a :
  (∀ a x, x ∈ l → f a x = g a x) → fold_left f l a = fold_left g l a.
Proof.
  revert a. induction l as [|x l IH]; intros a H; simpl; [done|].
  rewrite (H a x) by apply list_elem_of_here.
  apply IH. intros a' y Hy. apply H. by apply list_elem_of_further.
Qed.

Lemma assign_machines_ext jobs h1 h2 :
  agree_on jobs h1 h2 →
  (assign_machines jobs h1).1 = (assign_machines jobs h2).1.
Proof.
  intros Hag. unfold assign_machines. simpl. f_equal.
  apply fold_left_ext_in. intros d r Hr. by rewrite (Hag r Hr).
Qed.

Lemma propagate_local for_bin p s jobs h1 h2 :
  agree_on jobs h1 h2 →
  outcome_rel eq (agree_on jobs) (agree_on jobs)
    (propagate for_bin p s jobs h1) (propagate for_bin p s jobs h2).
Proof.
  intros Hag.
  destruct (propagate_eq for_bin p s jobs h1) as (keys & Hnd & Hkeys & Hg & ->).
  destruct (propagate_eq for_bin p s jobs h2)
    as (keys' & Hnd' & Hkeys' & Hg' & ->).
  assert (groups_of h2 jobs keys' = groups_of h1 jobs keys) as ->.
  { rewrite (assign_machines_ext jobs h1 h2 Hag) in Hg. congruence. }
  pose (I := fun (rest : list (string * list ref)) (h1' h2' : heap) =>
    (∀ g, g ∈ rest → ∀ r, r ∈ g.2 → r ∈ jobs) ∧ agree_on jobs h1' h2').
  assert (I (groups_of h1 jobs keys) h1 h2) as HI.
  { split; [|done]. intros g Hg0 r Hr.
    destruct (groups_of_elem h1 jobs keys g) as (_ & _ & _ & Hin);
      [by intros m; apply Hkeys|done|]. by apply Hin. }
  enough (∀ x rest h1' h2', I (x :: rest) h1' h2' →
            outcome_rel eq (I rest) (agree_on jobs)
              (machine_run for_bin p s x.1 x.2 h1')
              (machine_run for_bin p s x.1 x.2 h2')) as Hbody.
  { pose proof (for_collect_lockstep
      (fun g => machine_run for_bin p s g.1 g.2)
      (fun g => machine_run for_bin p s g.1 g.2)
      I (fun _ => eq) (agree_on jobs) Hbody (groups_of h1 jobs keys) h1 h2 HI)
      as Hlock.
    unfold outcome_rel in *.
    destruct (for_collect _ _ h1) as [[ms1|e1] h1'],
             (for_collect _ _ h2) as [[ms2|e2] h2']; simpl in *; try done.
    destruct Hlock as [Hall [_ ?]]. split; [|done].
    clear -Hall. induction Hall; [done|]. by f_equal. }
  clear HI. intros [m rs] rest h1' h2' [Hsub Hag']. simpl.
  assert (∀ r, r ∈ rs → r ∈ jobs) as Hrs.
  { intros r Hr. by apply (Hsub (m, rs) ltac:(apply list_elem_of_here)). }
  destruct (machine_run_local for_bin p s p s m rs h1' h2') as [Hres Hag1];
    [by intros r Hr; apply Hag', Hrs|done..|].
  assert (agree_on jobs (machine_run for_bin p s m rs h1').2
                        (machine_run for_bin p s m rs h2').2) as Hafter.
  { intros r Hr. destruct (decide (r ∈ rs)) as [Hin|Hout]; [by apply Hag1|].
    rewrite !machine_run_frame by done. by apply Hag'. }
  unfold outcome_rel. rewrite <- Hres.
  destruct ((machine_run for_bin p s m rs h1').1); [|done].
  split; [done|]. split; [|done].
  intros g Hg0. apply Hsub. by apply list_elem_of_further.
Qed.

(** ** A machine with a single job *)

Lemma machine_run_single for_bin p s m r h :
  machine_run for_bin p s m [r] h =
  match step for_bin p s m [r] [h r] r h with
  | (Ok _, h') => (Ok (completion_time (h' r)), h')
  | (Raise e, h') => (Raise e, h')
  end.
Proof.
  unfold machine_run. simpl. unfold mbind, M_bind.
  by destruct (step for_bin p s m [r] [h r] r h) as [[[]|e] h'].
Qed.

Lemma predecessor_single_bin m r h :
  predecessor true m [r] [h r] r h =
  Ok (if start_time (h r) =? 0 then dummy_job m else h r).
Proof. by rewrite predecessor_bin. Qed.

Lemma predecessor_single_ordered m r h :
  predecessor false m [r] [h r] r h =
  Ok (if start_time (h r) =? 0 then dummy_job m
      else if completion_time (h r) <=? start_time (h r) then h r
           else dummy_job m).
Proof.
  rewrite predecessor_ordered. unfold _find_last_completed. simpl.
  rewrite String.eqb_refl. simpl.
  destruct (Z.leb_spec (completion_time (h r)) (start_time (h r))) as [Hle|Hgt].
  - rewrite filter_cons_True by done. by rewrite filter_nil.
  - rewrite filter_cons_False by lia. by rewrite filter_nil.
Qed.

(** With one job on the machine, a start time of 0 or an input completion
    time not after the start time, both policies write the same completion
    time. *)
Lemma machine_run_single_agree p s m r h1 h2 :
  h1 r = h2 r →
  start_time (h1 r) = 0 ∨ completion_time (h1 r) ≤ start_time (h1 r) →
  (machine_run false p s m [r] h1).1 = (machine_run true p s m [r] h2).1.
Proof.
  intros Heq Hcond. rewrite !machine_run_single. unfold step.
  rewrite predecessor_single_ordered, predecessor_single_bin, <- Heq.
  assert ((if start_time (h1 r) =? 0 then dummy_job m
           else if completion_time (h1 r) <=? start_time (h1 r) then h1 r
                else dummy_job m) =
          (if start_time (h1 r) =? 0 then dummy_job m else h1 r)) as ->.
  { destruct (Z.eqb_spec (start_time (h1 r)) 0); [done|].
    destruct (Z.leb_spec (completion_time (h1 r)) (start_time (h1 r))); [done|lia]. }
  set (lc := if start_time (h1 r) =? 0 then dummy_job m else h1 r).
  destruct (p_lookup p (name (h1 r)) m); [|done].
  destruct (s_lookup s (name lc) (name (h1 r)) m); [|done].
  simpl. by rewrite !upd_same.
Qed.

Lemma jobs_on_single h jobs r r' :
  NoDup (map (fun r => machine (h r)) jobs) → r ∈ jobs →
  r' ∈ jobs_on h jobs (machine (h r)) → r' = r.
Proof.
  intros Hnd Hr Hr'. apply list_elem_of_filter in Hr' as [Hm Hin].
  induction jobs as [|x jobs IH]; [by inversion Hr|].
  simpl in Hnd. apply NoDup_cons in Hnd as [Hx Hnd].
  apply elem_of_cons in Hr as [->|Hr]; apply elem_of_cons in Hin as [->|Hin].
  - done.
  - exfalso. apply Hx. rewrite <- Hm.
    by apply (list_elem_of_fmap_2 (fun r => machine (h r))).
  - exfalso. apply Hx. rewrite Hm.
    by apply (list_elem_of_fmap_2 (fun r => machine (h r))).
  - by apply IH.
Qed.

Lemma propagate_single_agree p s jobs h :
  NoDup (map (fun r => machine (h r)) jobs) →
  (∀ r, r ∈ jobs →
        start_time (h r) = 0 ∨ completion_time (h r) ≤ start_time (h r)) →
  (propagate false p s jobs h).1 = (propagate true p s jobs h).1.
Proof.
  intros Hnd Hcond.
  destruct (propagate_eq false p s jobs h) as (keys & Hndk & Hkeys & Hg & ->).
  destruct (propagate_eq true p s jobs h) as (keys' & _ & _ & Hg' & ->).
  assert (groups_of h jobs keys' = groups_of h jobs keys) as -> by congruence.
  pose (I := fun (rest : list (string * list ref)) (h1 h2 : heap) =>
    NoDup (map fst rest) ∧
    ∀ g, g ∈ rest → ∃ r, g.2 = [r] ∧ r ∈ jobs ∧ machine (h r) = g.1 ∧
                         h1 r = h r ∧ h2 r = h r).
  assert (I (groups_of h jobs keys) h h) as HI.
  { split.
    - unfold groups_of. rewrite map_map. simpl. by rewrite map_id.
    - intros g Hg0.
      destruct (groups_of_elem h jobs keys g) as (Hg2 & Hk & Hne & Hin);
        [by intros m; apply Hkeys|done|].
      destruct (g.2) as [|r rs] eqn:Hrs; [done|].
      destruct (Hin r ltac:(apply list_elem_of_here)) as [Hr Hm].
      exists r. repeat split; try done. f_equal.
      destruct rs as [|r' rs]; [done|]. exfalso.
      assert (r' ∈ jobs_on h jobs (machine (h r))) as Hr'.
      { rewrite Hm, <- Hg2. apply list_elem_of_further, list_elem_of_here. }
      pose proof (jobs_on_single h jobs r r' Hnd Hr Hr') as ->.
      assert (NoDup (jobs_on h jobs g.1)) as Hnd2.
      { apply NoDup_filter. eapply NoDup_fmap_1. exact Hnd. }
      rewrite <- Hg2 in Hnd2. apply NoDup_cons in Hnd2 as [Hnot _].
      apply Hnot, list_elem_of_here. }
  enough (∀ x rest h1 h2, I (x :: rest) h1 h2 →
            outcome_rel eq (I rest) (fun _ _ => True)
              (machine_run false p s x.1 x.2 h1)
              (machine_run true p s x.1 x.2 h2)) as Hbody.
  { pose proof (for_collect_lockstep
      (fun g => machine_run false p s g.1 g.2)
      (fun g => machine_run true p s g.1 g.2)
      I (fun _ => eq) (fun _ _ => True) Hbody (groups_of h jobs keys) h h HI)
      as Hlock.
    unfold outcome_rel in *.
    destruct (for_collect _ _ h) as [[ms1|e1] h1],
             (for_collect (fun g => machine_run true p s g.1 g.2) _ h)
             as [[ms2|e2] h2]; simpl in *; try done.
    - destruct Hlock as [Hall _]. f_equal.
      clear -Hall. induction Hall; [done|]. by f_equal.
    - destruct Hlock as [-> _]. done. }
  clear HI. intros [m rs] rest h1 h2 [Hndr Hgroups]. simpl in *.
  apply NoDup_cons in Hndr as [Hm Hndr].
  destruct (Hgroups (m, rs) ltac:(apply list_elem_of_here))
    as (r & Hrs & Hr & Hmr & H1 & H2). simpl in *. subst rs.
  pose proof (machine_run_single_agree p s m r h1 h2) as Hres.
  rewrite H1, H2 in Hres. specialize (Hres eq_refl (Hcond r Hr)).
  unfold outcome_rel. rewrite <- Hres.
  destruct ((machine_run false p s m [r] h1).1); [|done].
  split; [done|]. split; [done|].
  intros g Hg0.
  destruct (Hgroups g ltac:(by apply list_elem_of_further))
    as (r' & Hg2 & Hr' & Hmr' & H1' & H2').
  exists r'. repeat split; try done.
  - rewrite machine_run_frame; [done|].
    intros ->%list_elem_of_singleton. apply Hm. rewrite <- Hmr, Hmr'.
    by apply (list_elem_of_fmap_2 fst).
  - rewrite machine_run_frame; [done|].
    intros ->%list_elem_of_singleton. apply Hm. rewrite <- Hmr, Hmr'.
    by apply (list_elem_of_fmap_2 fst).
Qed.

Lemma for_each_cons {A} (body : A → M unit) x xs h :
  for_each body (x :: xs) h =
  match body x h with
  | (Ok _, h') => for_each body xs h'
  | (Raise e, h') => (Raise e, h')
  end.
Proof. reflexivity. Qed.

Lemma for_each_nil {A} (body : A → M unit) h : for_each body [] h = (Ok tt, h).
Proof. reflexivity. Qed.

(** ** The two-job scenario *)
Lemma scen_tables :
  makeDict3 ["0";"A";"B"]%string ["0";"A";"B"]%string ["M"]%string scen_S = Ok scen_s_times ∧
  makeDict2 ["A";"B"]%string ["M"]%string scen_P = Ok scen_p_times.
Proof. split; vm_compute; reflexivity. Qed.
Lemma scen_lookups :
  p_lookup scen_p_times "A" "M" = Ok 5 ∧ p_lookup scen_p_times "B" "M" = Ok 3 ∧
  s_lookup scen_s_times "0" "A" "M" = Ok 0 ∧ s_lookup scen_s_times "0" "B" "M" = Ok 0 ∧
  s_lookup scen_s_times "A" "B" "M" = Ok 2 ∧ s_lookup scen_s_times "B" "B" "M" = Ok 0.
Proof. vm_compute. repeat split. Qed.

Lemma scen_resolver cA cB qA qB :
  _find_last_completed "B" [scen_A cA qA; scen_B cB qB] "M" =
  Ok (if decide (cA ≤ 5)
      then if decide (cB ≤ 5)
           then if cA <? cB then scen_B cB qB else scen_A cA qA
           else scen_A cA qA
      else if decide (cB ≤ 5) then scen_B cB qB else dummy_job "M").
Proof.
  unfold _find_last_completed. simpl original_starttime_of. simpl mbind.
  rewrite !filter_cons, filter_nil. unfold scen_A, scen_B.
  cbn [completion_time].
  destruct (decide (cA ≤ 5)), (decide (cB ≤ 5)); reflexivity.
Qed.

Lemma scen_step_A cA cB qA qB :
  let h := scen_heap cA cB qA qB in
  process_job false scen_p_times scen_s_times "M" [0; 1]%nat
    (map h [0; 1]%nat) 0%nat h = (Ok tt, scen_heap_A cA cB qA qB).
Proof.
  intros h. destruct scen_lookups as (HpA & _ & Hs0A & _).
  rewrite process_job_eq. unfold step. rewrite predecessor_ordered.
  destruct (find_last_completed_Ok (name (h 0%nat)) (map h [0; 1]%nat) "M")
    as [lc0 ->]; [apply list_elem_of_here|].
  simpl. rewrite HpA, Hs0A. by rewrite upd_same.
Qed.

Lemma scen_pred_B cA cB qA qB :
  let h := scen_heap cA cB qA qB in
  (last_completed_of false "M" [0; 1]%nat (map h [0; 1]%nat) 1%nat
     (scen_heap_A cA cB qA qB)).1 =
  _find_last_completed "B" [scen_A cA qA; scen_B cB qB] "M".
Proof.
  intros h.
  fold (predecessor false "M" [0; 1]%nat (map h [0; 1]%nat) 1%nat
          (scen_heap_A cA cB qA qB)).
  rewrite predecessor_ordered. simpl.
  change (h 0%nat) with (scen_A cA qA). change (h 1%nat) with (scen_B cB qB).
  by destruct (_find_last_completed "B" [scen_A cA qA; scen_B cB qB] "M").
Qed.

Lemma scen_run cA cB qA qB lc sv :
  let h := scen_heap cA cB qA qB in
  _find_last_completed "B" [scen_A cA qA; scen_B cB qB] "M" = Ok lc →
  s_lookup scen_s_times (name lc) "B" "M" = Ok sv →
  let run := calculate_makespan scen_lp [0; 1]%nat scen_P scen_S h in
  completion_time (run.2 0%nat) = 5 ∧
  completion_time (run.2 1%nat) = completion_time lc + 3 + sv ∧
  run.1 = Ok (if 5 <? completion_time lc + 3 + sv
              then completion_time lc + 3 + sv else 5).
Proof.
  intros h Hlc Hsv run. subst run.
  destruct scen_lookups as (HpA & HpB & Hs0A & Hs0B & HsAB & HsBB).
  pose proof (scen_step_A cA cB qA qB) as HstepA. cbv zeta in HstepA.
  fold h in HstepA. rewrite process_job_eq in HstepA.
  pose proof (scen_pred_B cA cB qA qB) as Hpred. cbv zeta in Hpred.
  fold h in Hpred. rewrite Hlc in Hpred.
  set (hA := scen_heap_A cA cB qA qB) in *.
  assert (step false scen_p_times scen_s_times "M" [0; 1]%nat
            (map h [0; 1]%nat) 1%nat hA =
          (Ok tt, upd (upd hA 1%nat
                         (set_start (hA 1%nat)
                            (new_start_time false [0; 1]%nat lc hA))) 1%nat
                    (set_completion
                       (set_start (hA 1%nat)
                          (new_start_time false [0; 1]%nat lc hA))
                       (completion_time lc + 3 + sv)))) as HstepB.
  { unfold step, predecessor. rewrite Hpred. simpl name. rewrite HpB, Hsv.
    by rewrite upd_same. }
  unfold calculate_makespan. rewrite _calc_makespan_eq, makespans_of_eq.
  simpl LPInstance.jobs. simpl LPInstance.machines. simpl tail.
  destruct scen_tables as [-> ->].
  unfold propagate, mbind, M_bind, assign_machines.
  simpl fold_left. cbn [for_collect]. unfold mbind, M_bind.
  rewrite process_machine_eq. unfold machine_run.
  change (py_sorted (fun r => start_time (h r)) [0; 1]%nat) with [0; 1]%nat.
  rewrite for_each_cons, HstepA, for_each_cons, HstepB, for_each_nil. simpl.
  repeat split; reflexivity.
Qed.

Lemma find_last_completed_elem job_name jobs m lc :
  _find_last_completed job_name jobs m = Ok lc → lc = dummy_job m ∨ lc ∈ jobs.
Proof.
  intros H.
  destruct (original_starttime_of job_name jobs) as [v|e] eqn:Hv.
  - destruct (find_last_completed_after_start job_name jobs m v Hv)
      as (lc' & Hlc & [[_ ->]|Hmax]); rewrite Hlc in H; injection H as <-.
    + by left.
    + right. apply py_max_elem in Hmax.
      by apply list_elem_of_filter in Hmax as [_ ?].
  - unfold _find_last_completed in H. by rewrite Hv in H.
Qed.

Lemma all_zero2b_spec P : all_zero2b P = true → all_zero2 P.
Proof.
  intros H row v Hrow Hv. unfold all_zero2b in H.
  rewrite forallb_forall in H. apply list_elem_of_In in Hrow.
  specialize (H row Hrow). rewrite forallb_forall in H.
  apply list_elem_of_In in Hv. specialize (H v Hv). lia.
Qed.

Lemma all_zero3b_spec S : all_zero3b S = true → all_zero3 S.
Proof.
  intros H plane Hplane. unfold all_zero3b in H.
  rewrite forallb_forall in H. apply list_elem_of_In in Hplane.
  apply all_zero2b_spec. by apply H.
Qed.

(** With every lookup 0 the completion time written is the predecessor's. *)
Lemma step_zero for_bin p s m assigned copy job h lc :
  (∀ a, p_lookup p a m = Ok 0) → (∀ a b, s_lookup s a b m = Ok 0) →
  predecessor for_bin m assigned copy job h = Ok lc →
  ∃ h', step for_bin p s m assigned copy job h = (Ok tt, h') ∧
        completion_time (h' job) = completion_time lc ∧
        ∀ r, r ≠ job → h' r = h r.
Proof.
  intros Hp Hs Hlc. unfold step. rewrite Hlc, Hp, Hs.
  eexists. split; [done|]. split.
  - rewrite upd_same. simpl. lia.
  - intros r Hr. by rewrite !upd_other.
Qed.

Lemma predecessor_elem for_bin m assigned h0 job h lc :
  predecessor for_bin m assigned (map h0 assigned) job h = Ok lc →
  lc = dummy_job m ∨ (∃ r, r ∈ assigned ∧ (lc = h r ∨ lc = h0 r)).
Proof.
  destruct for_bin.
  - rewrite predecessor_bin.
    destruct (py_max completion_time (map h assigned)) as [lc0|e] eqn:Hmax;
      [|done].
    intros [= <-]. destruct (start_time (h job) =? 0); [by left|]. right.
    apply py_max_elem in Hmax. apply list_elem_of_fmap in Hmax as (r & -> & Hr).
    exists r. split; [done|by left].
  - rewrite predecessor_ordered.
    destruct (_find_last_completed (name (h job)) (map h0 assigned) m)
      as [lc0|e] eqn:Hflc; [|done].
    intros [= <-]. destruct (start_time (h job) =? 0); [by left|].
    apply find_last_completed_elem in Hflc as [->|Hin]; [by left|]. right.
    apply list_elem_of_fmap in Hin as (r & -> & Hr).
    exists r. split; [done|by right].
Qed.

Lemma machine_run_zero for_bin p s m assigned h :
  (∀ a, p_lookup p a m = Ok 0) → (∀ a b, s_lookup s a b m = Ok 0) →
  assigned ≠ [] → (∀ r, r ∈ assigned → completion_time (h r) = 0) →
  ∃ h', machine_run for_bin p s m assigned h = (Ok 0, h') ∧
        ∀ r, r ∈ assigned → completion_time (h' r) = 0.
Proof.
  intros Hp Hs Hne Hzero. unfold machine_run.
  destruct (for_each_inv (step for_bin p s m assigned (map h assigned))
              (fun h' => (∀ r, name (h' r) = name (h r)) ∧
                         ∀ r, r ∈ assigned → completion_time (h' r) = 0)
              (py_sorted (fun r => start_time (h r)) assigned))
    with (h := h) as (h' & -> & Hname & Hz); [|done|].
  - intros job h1 Hjob%py_sorted_elem [Hname Hz].
    destruct (predecessor_Ok for_bin m assigned job h h1 Hjob Hname) as [lc Hlc].
    destruct (step_zero for_bin p s m assigned (map h assigned) job h1 lc Hp Hs Hlc)
      as (h2 & Hstep & Hc & Hframe).
    exists h2. split; [done|]. split.
    + intros r. pose proof (step_name_machine for_bin p s m assigned
                              (map h assigned) job h1 r) as [Hn _].
      rewrite Hstep in Hn. simpl in Hn. by rewrite Hn.
    + intros r Hr. destruct (decide (r = job)) as [->|Hne'].
      * rewrite Hc.
        apply predecessor_elem in Hlc as [->|(r' & Hr' & [->| ->])];
          [done|by apply Hz|by apply Hzero].
      * rewrite Hframe by done. by apply Hz.
  - destruct (py_max_Ok id (map completion_time (map h' assigned))) as [v Hv].
    { by destruct assigned. }
    rewrite Hv. exists h'. split; [|done]. do 2 f_equal.
    apply py_max_elem in Hv.
    apply list_elem_of_fmap in Hv as (j & -> & Hj).
    apply list_elem_of_fmap in Hj as (r & -> & Hr). by apply Hz.
Qed.

Lemma propagate_zero for_bin p s jobs h :
  (∀ a m, p_lookup p a m = Ok 0) → (∀ a b m, s_lookup s a b m = Ok 0) →
  (∀ r, r ∈ jobs → completion_time (h r) = 0) →
  ∃ ms h', propagate for_bin p s jobs h = (Ok ms, h') ∧
           (jobs ≠ [] → ms ≠ []) ∧ (∀ v, v ∈ ms → v = 0) ∧
           ∀ r, r ∈ jobs → completion_time (h' r) = 0.
Proof.
  intros Hp Hs Hzero.
  destruct (propagate_eq for_bin p s jobs h) as (keys & Hnd & Hkeys & Hg & ->).
  destruct (for_collect_inv (fun g => machine_run for_bin p s g.1 g.2)
              (fun h' => ∀ r, r ∈ jobs → completion_time (h' r) = 0)
              (fun _ v => v = 0) (groups_of h jobs keys))
    with (h := h) as (ms & h' & -> & Hall & Hz); [|done|].
  - intros [m rs] h1 Hg0 Hz. simpl.
    destruct (groups_of_elem h jobs keys (m, rs)) as (_ & _ & Hne & Hin);
      [by intros k; apply Hkeys|done|]. simpl in *.
    destruct (machine_run_zero for_bin p s m rs h1) as (h2 & Hrun & Hz2);
      [done|done|done|by intros r Hr; apply Hz, Hin|].
    exists 0, h2. split; [done|]. split; [done|].
    intros r Hr. destruct (decide (r ∈ rs)) as [Hrs|Hrs]; [by apply Hz2|].
    pose proof (machine_run_frame for_bin p s m rs h1 r Hrs) as Hf.
    rewrite Hrun in Hf. simpl in Hf. rewrite Hf. by apply Hz.
  - exists ms, h'. split; [done|]. split; [|split; [|done]].
    + intros Hne ->. apply Forall2_nil_inv_r in Hall.
      destruct jobs as [|r jobs']; [done|].
      assert (machine (h r) ∈ keys) as Hk.
      { apply Hkeys. exists r. split; [apply list_elem_of_here|done]. }
      unfold groups_of in Hall. apply fmap_nil_inv in Hall. subst keys.
      by apply elem_of_nil in Hk.
    + intros v Hv. apply list_elem_of_lookup in Hv as [i Hi].
      destruct (Forall2_lookup_r _ _ _ _ _ Hall Hi) as (g & _ & ->). done.
Qed.

Lemma calc_makespan_zero jobs P S job_names machines for_bin h :
  all_zero2b P = true → all_zero3b S = true →
  (∃ s_times, makeDict3 job_names job_names machines S = Ok s_times) →
  (∃ p_times, makeDict2 (tail job_names) machines P = Ok p_times) →
  tail job_names ≠ [] → jobs ≠ [] →
  (∀ r, r ∈ jobs → completion_time (h r) = 0) →
  ∃ h', _calc_makespan jobs P S job_names machines for_bin h = (Ok 0, h') ∧
        ∀ r, r ∈ jobs → completion_time (h' r) = 0.
Proof.
  intros HP HS [s Hs] [p Hp] Hne Hjobs Hzero.
  assert (job_names ≠ []) as Hne0 by (intros ->; done).
  rewrite _calc_makespan_eq, makespans_of_eq, Hs, Hp.
  destruct (propagate_zero for_bin p s jobs h) as (ms & h' & -> & Hms & Hall & Hz);
    [| |done|].
  - intros a m. eapply p_lookup_zero; [done..|]. by apply all_zero2b_spec.
  - intros a b m. eapply s_lookup_zero; [done..|]. by apply all_zero3b_spec.
  - exists h'. split; [|done]. f_equal.
    destruct (py_max_Ok id ms (Hms Hjobs)) as [v Hv]. rewrite Hv. f_equal.
    apply Hall. by apply py_max_elem in Hv.
Qed.
(** ** Ordered-list mode in closed form *)

Lemma step_ordered_value p s m assigned copy job h :
  match ordered_value p s m copy (h job) with
  | Ok v => (step false p s m assigned copy job h).1 = Ok tt ∧
            completion_time ((step false p s m assigned copy job h).2 job) = v
  | Raise e => (step false p s m assigned copy job h).1 = Raise e
  end.
Proof.
  unfold ordered_value, step. rewrite predecessor_ordered.
  destruct (_find_last_completed (name (h job)) copy m) as [lc0|e]; [|done].
  destruct (p_lookup p (name (h job)) m); [|done].
  destruct (s_lookup s _ (name (h job)) m); [|done].
  simpl. by rewrite !upd_same.
Qed.

Lemma ordered_value_Raise p s m copy j e :
  name j ∈ map name copy → ordered_value p s m copy j = Raise e → e = NameError.
Proof.
  intros Hin. unfold ordered_value.
  destruct (find_last_completed_Ok (name j) copy m Hin) as [lc0 ->].
  destruct (p_lookup p (name j) m) as [pv|e'] eqn:Hp.
  - destruct (s_lookup s _ (name j) m) as [sv|e'] eqn:Hs; [done|].
    intros [= <-]. by eapply s_lookup_Raise.
  - intros [= <-]. by eapply p_lookup_Raise.
Qed.

Lemma for_each_ordered p s m assigned copy order h :
  NoDup order →
  ((∀ r, r ∈ order → ∃ v, ordered_value p s m copy (h r) = Ok v) →
   (for_each (step false p s m assigned copy) order h).1 = Ok tt ∧
   ∀ r, r ∈ order →
     ordered_value p s m copy (h r) =
     Ok (completion_time
           ((for_each (step false p s m assigned copy) order h).2 r))) ∧
  ((∃ r, r ∈ order ∧ ∃ e, ordered_value p s m copy (h r) = Raise e) →
   ∃ r e, r ∈ order ∧ ordered_value p s m copy (h r) = Raise e ∧
          (for_each (step false p s m assigned copy) order h).1 = Raise e).
Proof.
  revert h. induction order as [|job order IH]; intros h Hnd.
  { split; [by split; [|intros r ?%elem_of_nil]|].
    by intros (r & ?%elem_of_nil & _). }
  apply NoDup_cons in Hnd as [Hjob Hnd].
  rewrite for_each_cons.
  pose proof (step_ordered_value p s m assigned copy job h) as Hstep.
  pose proof (fun r => step_frame false p s m assigned copy job h r) as Hframe.
  destruct (step false p s m assigned copy job h) as [res h1] eqn:Hs.
  simpl in Hstep, Hframe.
  assert (∀ r, r ∈ order → h1 r = h r) as Hsame.
  { intros r Hr. apply Hframe. by intros ->. }
  destruct (IH h1 Hnd) as [IHok IHraise].
  pose proof (for_each_step_frame false p s m assigned copy order h1 job Hjob)
    as Hjobframe.
  destruct (ordered_value p s m copy (h job)) as [v|e] eqn:Hv.
  - destruct Hstep as [-> Hc]. split.
    + intros Hall. destruct IHok as [Hres Hvals].
      { intros r Hr. rewrite Hsame by done. apply Hall.
        by apply list_elem_of_further. }
      split; [done|]. intros r Hr. apply elem_of_cons in Hr as [->|Hr].
      * by rewrite Hjobframe, Hc.
      * rewrite <- Hvals by done. by rewrite Hsame.
    + intros (r & Hr & e & He). apply elem_of_cons in Hr as [->|Hr]; [congruence|].
      destruct IHraise as (r' & e' & Hr' & He' & Hres).
      { exists r. split; [done|]. exists e. by rewrite Hsame. }
      exists r', e'. split; [by apply list_elem_of_further|].
      split; [by rewrite <- Hsame|done].
  - subst res. split.
    + intros Hall. destruct (Hall job ltac:(apply list_elem_of_here)) as [v Hv'].
      congruence.
    + intros _. exists job, e. split; [apply list_elem_of_here|]. by split.
Qed.

Lemma Ok_or_Raise {A} (f : A → result Z) (l : list A) :
  (∀ x, x ∈ l → ∃ v, f x = Ok v) ∨ (∃ x, x ∈ l ∧ ∃ e, f x = Raise e).
Proof.
  induction l as [|a l [IH|(x & Hx & He)]].
  - left. by intros x ?%elem_of_nil.
  - destruct (f a) as [v|e] eqn:Ha.
    + left. intros x [->|Hx]%elem_of_cons; [by exists v|by apply IH].
    + right. exists a. split; [apply list_elem_of_here|by exists e].
  - right. exists x. split; [by apply list_elem_of_further|done].
Qed.

(** The run of one machine in ordered-list mode: [NameError] if the
    tables fail on some job, else the largest of the values. *)
Lemma machine_run_ordered p s m assigned h :
  NoDup assigned →
  let value r := ordered_value p s m (map h assigned) (h r) in
  ((∀ r, r ∈ assigned → ∃ v, value r = Ok v) →
   ∃ vs, Forall2 (fun r v => value r = Ok v) assigned vs ∧
         (machine_run false p s m assigned h).1 = py_max id vs) ∧
  ((∃ r, r ∈ assigned ∧ ∃ e, value r = Raise e) →
   (machine_run false p s m assigned h).1 = Raise NameError).
Proof.
  intros Hnd value. unfold machine_run.
  set (copy := map h assigned).
  set (order := py_sorted (fun r => start_time (h r)) assigned).
  assert (∀ r, r ∈ order ↔ r ∈ assigned) as Hord
    by (intros r; apply py_sorted_elem).
  destruct (for_each_ordered p s m assigned copy order h) as [Hok Hraise].
  { subst order. by rewrite py_sorted_perm. }
  split.
  - intros Hall. destruct Hok as [Hres Hvals].
    { intros r Hr. by apply Hall, Hord. }
    destruct (for_each _ order h) as [res h']. simpl in *. subst res.
    exists (map completion_time (map h' assigned)). split; [|done].
    rewrite map_map. apply Forall2_fmap_r, Forall_Forall2_diag, Forall_forall.
    intros r Hr. by apply Hvals, Hord.
  - intros (r & Hr & e & He).
    destruct Hraise as (r' & e' & Hr' & He' & Hres).
    { exists r. split; [by apply Hord|by exists e]. }
    destruct (for_each _ order h) as [res h']. simpl in *. subst res.
    simpl. f_equal. eapply ordered_value_Raise; [|exact He'].
    subst copy. rewrite map_map.
    apply (list_elem_of_fmap_2 (fun r => name (h r))). by apply Hord.
Qed.

(** ** Reordering the jobs of a machine *)

Lemma inj_of_NoDup_map {A B} (f : A → B) (l : list A) x y :
  NoDup (map f l) → x ∈ l → y ∈ l → f x = f y → x = y.
Proof.
  induction l as [|a l IH]; intros Hnd Hx Hy Hk; [by inversion Hx|].
  simpl in Hnd. apply NoDup_cons in Hnd as [Ha Hnd].
  apply elem_of_cons in Hx as [->|Hx]; apply elem_of_cons in Hy as [->|Hy].
  - done.
  - exfalso. apply Ha. rewrite Hk. by apply (list_elem_of_fmap_2 f).
  - exfalso. apply Ha. rewrite <- Hk. by apply (list_elem_of_fmap_2 f).
  - by apply IH.
Qed.

Lemma NoDup_map_filter {A B} (f : A → B) (P : A → Prop)
    `{∀ x, Decision (P x)} (l : list A) :
  NoDup (map f l) → NoDup (map f (filter P l)).
Proof.
  induction l as [|a l IH]; intros Hnd; [constructor|].
  simpl in Hnd. apply NoDup_cons in Hnd as [Ha Hnd].
  rewrite filter_cons. destruct (decide (P a)); [|by apply IH].
  simpl. apply NoDup_cons. split; [|by apply IH].
  intros Hin. apply Ha. apply list_elem_of_fmap in Hin as (x & -> & Hx).
  apply list_elem_of_filter in Hx as [_ Hx]. by apply (list_elem_of_fmap_2 f).
Qed.

Lemma original_starttime_of_perm job_name copy copy' :
  copy ≡ₚ copy' → NoDup (map name copy) →
  original_starttime_of job_name copy = original_starttime_of job_name copy'.
Proof.
  intros Hp Hnd.
  destruct (original_starttime_of job_name copy) as [v|e] eqn:H1,
           (original_starttime_of job_name copy') as [v'|e'] eqn:H2.
  - apply original_starttime_of_Ok in H1 as (j & Hj & Hn & <-).
    apply original_starttime_of_Ok in H2 as (j' & Hj' & Hn' & <-).
    rewrite <- Hp in Hj'.
    by rewrite (inj_of_NoDup_map name copy j j' Hnd Hj Hj') by congruence.
  - apply original_starttime_of_Ok in H1 as (j & Hj & Hn & _).
    apply original_starttime_of_Raise in H2 as [_ Hnot]. exfalso. apply Hnot.
    rewrite <- Hn. apply (list_elem_of_fmap_2 name). by rewrite <- Hp.
  - apply original_starttime_of_Ok in H2 as (j & Hj & Hn & _).
    apply original_starttime_of_Raise in H1 as [_ Hnot]. exfalso. apply Hnot.
    rewrite <- Hn. apply (list_elem_of_fmap_2 name). by rewrite Hp.
  - apply original_starttime_of_Raise in H1 as [-> _].
    by apply original_starttime_of_Raise in H2 as [-> _].
Qed.

Lemma find_last_completed_perm job_name copy copy' m :
  copy ≡ₚ copy' → NoDup (map name copy) → NoDup (map completion_time copy) →
  _find_last_completed job_name copy m = _find_last_completed job_name copy' m.
Proof.
  intros Hp Hnames Hcs. unfold _find_last_completed.
  rewrite <- (original_starttime_of_perm job_name copy copy' Hp Hnames).
  destruct (original_starttime_of job_name copy) as [v|e]; [|done]. simpl.
  assert (filter (fun j => completion_time j ≤ v) copy ≡ₚ
          filter (fun j => completion_time j ≤ v) copy') as Hf by (by rewrite Hp).
  rewrite <- (Permutation_length Hf).
  destruct (Nat.eqb (length (filter (fun j => completion_time j ≤ v) copy)) 0);
    [done|].
  apply py_max_perm; [done|]. by apply NoDup_map_filter.
Qed.

Lemma ordered_value_perm p s m copy copy' j :
  copy ≡ₚ copy' → NoDup (map name copy) → NoDup (map completion_time copy) →
  ordered_value p s m copy j = ordered_value p s m copy' j.
Proof.
  intros Hp Hnames Hcs. unfold ordered_value.
  by rewrite (find_last_completed_perm (name j) copy copy' m).
Qed.

Lemma machine_run_ordered_perm p s m assigned assigned' h :
  assigned ≡ₚ assigned' → NoDup assigned →
  NoDup (map (fun r => name (h r)) assigned) →
  NoDup (map (fun r => completion_time (h r)) assigned) →
  (machine_run false p s m assigned h).1 =
  (machine_run false p s m assigned' h).1.
Proof.
  intros Hp Hnd Hnames Hcs.
  assert (NoDup assigned') as Hnd' by (by rewrite <- Hp).
  destruct (machine_run_ordered p s m assigned h Hnd) as [Hok Hraise].
  destruct (machine_run_ordered p s m assigned' h Hnd') as [Hok' Hraise'].
  simpl in *.
  assert (∀ j, ordered_value p s m (map h assigned') j =
               ordered_value p s m (map h assigned) j) as Hval.
  { intros j. symmetry. apply ordered_value_perm.
    - by apply Permutation_map.
    - by rewrite map_map.
    - by rewrite map_map. }
  destruct (Ok_or_Raise (fun r => ordered_value p s m (map h assigned) (h r))
              assigned) as [Hall|(r & Hr & e & He)].
  - destruct (Hok Hall) as (vs & Hvs & ->).
    destruct Hok' as (vs' & Hvs' & ->).
    { intros r Hr. rewrite Hval. apply Hall. by rewrite Hp. }
    assert (∀ x, x ∈ vs ↔ x ∈ vs') as Hiff.
    { intros x. split; intros Hx.
      - apply list_elem_of_lookup in Hx as [i Hi].
        destruct (Forall2_lookup_r _ _ _ _ _ Hvs Hi) as (r & Hr & Hv).
        apply list_elem_of_lookup_2 in Hr. rewrite Hp in Hr.
        apply list_elem_of_lookup in Hr as [i' Hi'].
        destruct (Forall2_lookup_l _ _ _ _ _ Hvs' Hi') as (x' & Hx' & Hv').
        rewrite Hval, Hv in Hv'. injection Hv' as ->.
        by eapply list_elem_of_lookup_2.
      - apply list_elem_of_lookup in Hx as [i Hi].
        destruct (Forall2_lookup_r _ _ _ _ _ Hvs' Hi) as (r & Hr & Hv).
        apply list_elem_of_lookup_2 in Hr. rewrite <- Hp in Hr.
        apply list_elem_of_lookup in Hr as [i' Hi'].
        destruct (Forall2_lookup_l _ _ _ _ _ Hvs Hi') as (x' & Hx' & Hv').
        rewrite Hval, Hv' in Hv. injection Hv as ->.
        by eapply list_elem_of_lookup_2. }
    destruct (py_max id vs) as [v|e] eqn:Hmax.
    + symmetry. by eapply py_max_id_unique.
    + pose proof (py_max_Raise _ _ _ Hmax) as ->.
      destruct vs' as [|x vs']; [done|].
      exfalso. eapply elem_of_nil. apply Hiff. apply list_elem_of_here.
  - rewrite Hraise, Hraise'; [done| |].
    + exists r. split; [by rewrite <- Hp|]. exists e. by rewrite Hval.
    + exists r. split; [done|by exists e].
Qed.

Lemma machine_run_ordered_Raise p s m assigned h e :
  NoDup assigned → assigned ≠ [] →
  (machine_run false p s m assigned h).1 = Raise e → e = NameError.
Proof.
  intros Hnd Hne Hrun.
  destruct (machine_run_ordered p s m assigned h Hnd) as [Hok Hraise].
  simpl in *.
  destruct (Ok_or_Raise (fun r => ordered_value p s m (map h assigned) (h r))
              assigned) as [Hall|Hex].
  - destruct (Hok Hall) as (vs & Hvs & Heq). rewrite Heq in Hrun.
    apply py_max_Raise in Hrun as ->. apply Forall2_nil_inv_r in Hvs. done.
  - rewrite (Hraise Hex) in Hrun. by injection Hrun as <-.
Qed.

(** ** The loop over the machines, machine by machine *)

Lemma for_collect_decompose for_bin p s h groups :
  NoDup (map fst groups) →
  (∀ g, g ∈ groups → ∀ r, r ∈ g.2 → machine (h r) = g.1) →
  ∀ h1, (∀ g, g ∈ groups → agree_on g.2 h1 h) →
  (for_collect (fun g => machine_run for_bin p s g.1 g.2) groups h1).1 =
  collect_results (map (fun g => (machine_run for_bin p s g.1 g.2 h).1) groups).
Proof.
  induction groups as [|[m rs] groups IH]; intros Hnd Hm h1 Hag; [done|].
  simpl in Hnd. apply NoDup_cons in Hnd as [Hfresh Hnd]. simpl.
  unfold mbind, M_bind.
  destruct (machine_run_local for_bin p s p s m rs h1 h) as [Hres _];
    [by apply (Hag (m, rs)), list_elem_of_here|done..|].
  pose proof (fun r => machine_run_frame for_bin p s m rs h1 r) as Hframe.
  destruct (machine_run for_bin p s m rs h1) as [res h2]. simpl in *.
  rewrite <- Hres. destruct res as [v|e]; [|done].
  specialize (IH Hnd ltac:(intros g Hg; apply Hm; by apply list_elem_of_further) h2).
  destruct (for_collect _ groups h2) as [res' h3]. simpl in *.
  rewrite <- IH; [by destruct res'|].
  intros g Hg r Hr. rewrite Hframe.
  - by apply (Hag g); [apply list_elem_of_further|].
  - intros Hin. apply Hfresh.
    pose proof (Hm (m, rs) ltac:(apply list_elem_of_here) r Hin) as H1.
    pose proof (Hm g ltac:(by apply list_elem_of_further) r Hr) as H2.
    simpl in H1. assert (m = g.1) as -> by congruence.
    by apply (list_elem_of_fmap_2 fst).
Qed.

Lemma collect_results_Ok rs vs :
  collect_results rs = Ok vs ↔ rs = map Ok vs.
Proof.
  revert vs. induction rs as [|[v|e] rs IH]; intros vs; simpl.
  - split; [by intros [= <-]|]. by destruct vs.
  - destruct (collect_results rs) as [vs'|e'] eqn:Hc.
    + split.
      * intros [= <-]. simpl. f_equal. by apply IH.
      * destruct vs as [|v0 vs0]; [done|]. intros [= -> Hrs].
        apply IH in Hrs. by injection Hrs as ->.
    + split; [done|]. destruct vs as [|v0 vs0]; [done|]. intros [= -> Hrs].
      by apply IH in Hrs.
  - split; [done|]. by destruct vs.
Qed.

Lemma collect_results_Raise rs e :
  collect_results rs = Raise e → Raise e ∈ rs.
Proof.
  induction rs as [|[v|e'] rs IH]; simpl; [done| |].
  - destruct (collect_results rs) as [vs'|e''] eqn:Hc; [done|].
    intros [= <-]. apply list_elem_of_further. by apply IH.
  - intros [= <-]. apply list_elem_of_here.
Qed.

Lemma py_max_id_perm (l l' : list Z) : l ≡ₚ l' → py_max id l = py_max id l'.
Proof.
  intros Hp. destruct (py_max id l) as [v|e] eqn:Hmax.
  - symmetry. eapply py_max_id_unique; [done|]. intros x. by rewrite Hp.
  - pose proof (py_max_Raise _ _ _ Hmax) as ->.
    apply Permutation_nil_l in Hp. by subst l'.
Qed.

(** The makespan does not depend on the order in which the machines are
    visited. *)
Lemma collect_max_perm rs rs' :
  rs ≡ₚ rs' → (∀ e, Raise e ∈ rs → e = NameError) →
  (collect_results rs ≫= py_max id) = (collect_results rs' ≫= py_max id).
Proof.
  intros Hp Herr.
  destruct (collect_results rs) as [vs|e] eqn:Hc.
  - apply collect_results_Ok in Hc. subst rs.
    symmetry in Hp. apply Permutation_map_inv in Hp as (vs' & -> & Hp').
    rewrite (proj2 (collect_results_Ok (map Ok vs') vs') eq_refl). simpl.
    by apply py_max_id_perm.
  - apply collect_results_Raise in Hc.
    pose proof (Herr e Hc) as ->.
    destruct (collect_results rs') as [vs'|e'] eqn:Hc'.
    + apply collect_results_Ok in Hc'. subst rs'.
      rewrite Hp in Hc. by apply list_elem_of_fmap in Hc as (v & ? & _).
    + apply collect_results_Raise in Hc'. rewrite <- Hp in Hc'.
      by rewrite (Herr e' Hc').
Qed.

Lemma propagate_decompose for_bin p s jobs h :
  ∃ keys, NoDup keys ∧
    (∀ m, m ∈ keys ↔ ∃ r, r ∈ jobs ∧ machine (h r) = m) ∧
    (propagate for_bin p s jobs h).1 =
    collect_results
      (map (fun m => (machine_run for_bin p s m (jobs_on h jobs m) h).1) keys).
Proof.
  destruct (propagate_eq for_bin p s jobs h) as (keys & Hnd & Hkeys & _ & ->).
  exists keys. split; [done|]. split; [done|].
  rewrite (for_collect_decompose for_bin p s h).
  - unfold groups_of. by rewrite map_map.
  - unfold groups_of. rewrite map_map. simpl. by rewrite map_id.
  - intros g Hg r Hr.
    destruct (groups_of_elem h jobs keys g) as (_ & _ & _ & Hin);
      [by intros m; apply Hkeys|done|]. by apply Hin.
  - done.
Qed.

Lemma calc_makespan_decompose jobs P S job_names machines for_bin h :
  (_calc_makespan jobs P S job_names machines for_bin h).1 =
  match makeDict3 job_names job_names machines S with
  | Raise e => Raise e
  | Ok s =>
      match makeDict2 (tail job_names) machines P with
      | Raise e => Raise e
      | Ok p => (propagate for_bin p s jobs h).1 ≫= py_max id
      end
  end.
Proof.
  rewrite _calc_makespan_eq, makespans_of_eq.
  destruct (makeDict3 job_names job_names machines S); [|done].
  destruct (makeDict2 (tail job_names) machines P); [|done].
  by destruct (propagate for_bin _ _ jobs h) as [[ms|e] h'].
Qed.

(** Reordering the job list, with names and input completion times
    pairwise distinct among the jobs of a machine. *)
Lemma propagate_ordered_perm p s jobs jobs' h :
  jobs ≡ₚ jobs' → NoDup jobs →
  (∀ r1 r2, r1 ∈ jobs → r2 ∈ jobs → machine (h r1) = machine (h r2) →
            name (h r1) = name (h r2) → r1 = r2) →
  (∀ r1 r2, r1 ∈ jobs → r2 ∈ jobs → machine (h r1) = machine (h r2) →
            completion_time (h r1) = completion_time (h r2) → r1 = r2) →
  ((propagate false p s jobs h).1 ≫= py_max id) =
  ((propagate false p s jobs' h).1 ≫= py_max id).
Proof.
  intros Hp Hnd Hnames Hcs.
  destruct (propagate_decompose false p s jobs h) as (keys & Hndk & Hkeys & ->).
  destruct (propagate_decompose false p s jobs' h)
    as (keys' & Hndk' & Hkeys' & ->).
  assert (keys ≡ₚ keys') as Hpk.
  { apply NoDup_Permutation; [done..|]. intros m. rewrite Hkeys, Hkeys'.
    split; intros (r & Hr & Hm); exists r; (split; [|done]).
    - by rewrite <- Hp.
    - by rewrite Hp. }
  assert (∀ m, NoDup (jobs_on h jobs m)) as Hndm.
  { intros m. by apply NoDup_filter. }
  assert (∀ m r, r ∈ jobs_on h jobs m → r ∈ jobs ∧ machine (h r) = m) as Hon.
  { intros m r Hr. apply list_elem_of_filter in Hr. tauto. }
  assert (map (fun m => (machine_run false p s m (jobs_on h jobs' m) h).1) keys' =
          map (fun m => (machine_run false p s m (jobs_on h jobs m) h).1) keys')
    as ->.
  { apply map_ext. intros m. symmetry. apply machine_run_ordered_perm.
    - unfold jobs_on. by rewrite Hp.
    - apply Hndm.
    - apply (NoDup_fmap_2_strong (fun r => name (h r))); [|apply Hndm].
      intros r1 r2 [H1 Hm1]%Hon [H2 Hm2]%Hon Heq.
      apply Hnames; congruence.
    - apply (NoDup_fmap_2_strong (fun r => completion_time (h r))); [|apply Hndm].
      intros r1 r2 [H1 Hm1]%Hon [H2 Hm2]%Hon Heq.
      apply Hcs; congruence. }
  apply collect_max_perm.
  - by apply Permutation_map.
  - intros e He. apply list_elem_of_fmap in He as (m & He & Hm).
    symmetry in He. eapply machine_run_ordered_Raise; [apply Hndm| |exact He].
    apply Hkeys in Hm as (r & Hr & Hmr). intros Hnil.
    assert (r ∈ jobs_on h jobs m) as Hin by (by apply list_elem_of_filter).
    rewrite Hnil in Hin. by apply elem_of_nil in Hin.
Qed.

(** ** What a run leaves alone *)

Lemma step_capacity for_bin p s m assigned copy job h r :
  capacity ((step for_bin p s m assigned copy job h).2 r) = capacity (h r).
Proof.
  destruct (decide (r = job)) as [->|Hr]; [|by rewrite step_frame].
  unfold step.
  destruct (predecessor for_bin m assigned copy job h); [|done].
  destruct (p_lookup p (name (h job)) m); simpl; [|by rewrite upd_same].
  destruct (s_lookup s _ (name (h job)) m); simpl; by rewrite !upd_same.
Qed.

Lemma for_each_step_capacity for_bin p s m assigned copy order h r :
  capacity ((for_each (step for_bin p s m assigned copy) order h).2 r)
  = capacity (h r).
Proof.
  revert h. induction order as [|job order IH]; intros h; simpl; [done|].
  unfold mbind, M_bind.
  pose proof (step_capacity for_bin p s m assigned copy job h r) as Hf.
  destruct (step for_bin p s m assigned copy job h) as [[[]|e] h']; [|done].
  simpl in Hf. by rewrite IH.
Qed.

Lemma machine_run_identity for_bin p s m assigned h r :
  same_identity ((machine_run for_bin p s m assigned h).2 r) (h r).
Proof.
  unfold machine_run.
  pose proof (for_each_step_name_machine for_bin p s m assigned (map h assigned)
                (py_sorted (fun r => start_time (h r)) assigned) h r) as [Hn Hm].
  pose proof (for_each_step_capacity for_bin p s m assigned (map h assigned)
                (py_sorted (fun r => start_time (h r)) assigned) h r) as Hc.
  by destruct (for_each _ _ h) as [[[]|e] h'].
Qed.

Lemma for_collect_machines_frame for_bin p s groups h :
  (∀ r, same_identity
          ((for_collect (fun g => machine_run for_bin p s g.1 g.2) groups h).2 r)
          (h r)) ∧
  (∀ r, (∀ g, g ∈ groups → r ∉ g.2) →
        (for_collect (fun g => machine_run for_bin p s g.1 g.2) groups h).2 r
        = h r).
Proof.
  unfold same_identity.
  revert h. induction groups as [|g groups IH]; intros h; simpl; [done|].
  unfold mbind, M_bind.
  pose proof (machine_run_identity for_bin p s g.1 g.2 h) as Hid.
  unfold same_identity in Hid.
  pose proof (machine_run_frame for_bin p s g.1 g.2 h) as Hfr.
  destruct (machine_run for_bin p s g.1 g.2 h) as [[v|e] h1]; simpl in *.
  - destruct (IH h1) as [IHid IHfr].
    destruct (for_collect _ groups h1) as [[vs|e] h2]; simpl in *.
    + split.
      * intros r. destruct (IHid r) as (-> & -> & ->). apply Hid.
      * intros r Hr. rewrite IHfr.
        -- apply Hfr, Hr, list_elem_of_here.
        -- intros g' Hg'. by apply Hr, list_elem_of_further.
    + split.
      * intros r. destruct (IHid r) as (-> & -> & ->). apply Hid.
      * intros r Hr. rewrite IHfr.
        -- apply Hfr, Hr, list_elem_of_here.
        -- intros g' Hg'. by apply Hr, list_elem_of_further.
  - split; [done|]. intros r Hr. apply Hfr, Hr, list_elem_of_here.
Qed.

(** ** A run taken apart *)

(** The table construction fails and nothing else happens, or the
    machines are gone through one by one and the largest of their values
    is returned. *)
Lemma calc_makespan_cases jobs P S job_names machines for_bin h :
  (_calc_makespan jobs P S job_names machines for_bin h = (Raise IndexError, h) ∧
   (makeDict3 job_names job_names machines S = Raise IndexError ∨
    makeDict2 (tail job_names) machines P = Raise IndexError)) ∨
  (∃ s p keys,
     makeDict3 job_names job_names machines S = Ok s ∧
     makeDict2 (tail job_names) machines P = Ok p ∧
     NoDup keys ∧ (∀ m, m ∈ keys ↔ ∃ r, r ∈ jobs ∧ machine (h r) = m) ∧
     _calc_makespan jobs P S job_names machines for_bin h =
     match for_collect (fun g => machine_run for_bin p s g.1 g.2)
             (groups_of h jobs keys) h with
     | (Ok makespans, h') => (py_max id makespans, h')
     | (Raise e, h') => (Raise e, h')
     end).
Proof.
  rewrite _calc_makespan_eq. unfold makespans_of, mbind, M_bind, lift.
  destruct (makeDict3 job_names job_names machines S) as [s|e] eqn:Hs.
  - destruct (makeDict2 (tail job_names) machines P) as [p|e] eqn:Hp.
    + right. destruct (propagate_eq for_bin p s jobs h)
        as (keys & Hnd & Hkeys & _ & ->).
      by exists s, p, keys.
    + left. apply makeDict2_Raise in Hp as ->. by split; [|right].
  - left. apply makeDict3_Raise in Hs as ->. by split; [|left].
Qed.

(** The groups of a run: distinct machines, each with its jobs. *)
Lemma groups_of_NoDup h jobs keys :
  NoDup keys → NoDup (map fst (groups_of h jobs keys)).
Proof.
  intros Hnd. unfold groups_of. rewrite map_map. simpl. by rewrite map_id.
Qed.

Lemma groups_of_cover h jobs keys r :
  (∀ m, m ∈ keys ↔ ∃ r, r ∈ jobs ∧ machine (h r) = m) →
  r ∈ jobs ↔ ∃ g, g ∈ groups_of h jobs keys ∧ r ∈ g.2.
Proof.
  intros Hkeys. split.
  - intros Hr. exists (machine (h r), jobs_on h jobs (machine (h r))). split.
    + unfold groups_of. apply (list_elem_of_fmap_2 (fun m => (m, jobs_on h jobs m))).
      apply Hkeys. by exists r.
    + simpl. by apply list_elem_of_filter.
  - intros (g & Hg & Hr).
    apply groups_of_elem in Hg as (_ & _ & _ & Hin); [|intros m; apply Hkeys].
    by apply Hin.
Qed.

(** In a run that goes through, every machine works as if it came first:
    its value and the final records of its jobs are those of its own run
    from the initial heap. *)
Lemma for_collect_machines_heap for_bin p s h groups :
  NoDup (map fst groups) →
  (∀ g, g ∈ groups → ∀ r, r ∈ g.2 → machine (h r) = g.1) →
  ∀ h1 ms h', (∀ g, g ∈ groups → agree_on g.2 h1 h) →
  for_collect (fun g => machine_run for_bin p s g.1 g.2) groups h1 = (Ok ms, h') →
  Forall2 (fun g v => (machine_run for_bin p s g.1 g.2 h).1 = Ok v) groups ms ∧
  ∀ g r, g ∈ groups → r ∈ g.2 →
         h' r = (machine_run for_bin p s g.1 g.2 h).2 r.
Proof.
  induction groups as [|[m rs] groups IH]; intros Hnd Hm h1 ms h' Hag Hrun.
  { injection Hrun as <- <-. split; [constructor|]. by intros g r ?%elem_of_nil. }
  simpl in Hnd. apply NoDup_cons in Hnd as [Hfresh Hnd].
  simpl in Hrun. unfold mbind, M_bind in Hrun.
  destruct (machine_run_local for_bin p s p s m rs h1 h) as [Hres Hloc];
    [by apply (Hag (m, rs)), list_elem_of_here|done..|].
  pose proof (fun r => machine_run_frame for_bin p s m rs h1 r) as Hframe.
  destruct (machine_run for_bin p s m rs h1) as [[v|e] h2]; [|done].
  simpl in *.
  destruct (for_collect _ groups h2) as [[vs|e] h3] eqn:Hrest; [|done].
  injection Hrun as <- <-.
  assert (∀ g r, g ∈ groups → r ∈ g.2 → r ∉ rs) as Hdisj.
  { intros g r Hg Hr Hin. apply Hfresh.
    pose proof (Hm (m, rs) ltac:(apply list_elem_of_here) r Hin) as H1.
    pose proof (Hm g ltac:(by apply list_elem_of_further) r Hr) as H2.
    simpl in H1. assert (m = g.1) as -> by congruence.
    by apply (list_elem_of_fmap_2 fst). }
  destruct (IH Hnd ltac:(intros g Hg; apply Hm; by apply list_elem_of_further)
              h2 vs h3) as [IHv IHh]; [|done|].
  { intros g Hg r Hr. rewrite Hframe by by eapply Hdisj.
    by apply (Hag g); [apply list_elem_of_further|]. }
  split; [by constructor|].
  intros g r [->|Hg]%elem_of_cons Hr; simpl in *; [|by apply IHh].
  destruct (for_collect_machines_frame for_bin p s groups h2) as [_ Hfr].
  rewrite Hrest in Hfr. simpl in Hfr. rewrite Hfr.
  - by apply Hloc.
  - intros g Hg Hin. by eapply Hdisj.
Qed.

(** ** The record a job ends with *)

(** A job that is iterated once ends with the two values written in its
    own iteration; [hk] is the heap at that moment. *)
Lemma for_each_written for_bin p s m assigned copy (Inv : heap → Prop) order :
  (∀ job h h', job ∈ order → Inv h →
     step for_bin p s m assigned copy job h = (Ok tt, h') → Inv h') →
  NoDup order →
  ∀ h h' r, Inv h → r ∈ order →
    for_each (step for_bin p s m assigned copy) order h = (Ok tt, h') →
    ∃ hk lc pv sv,
      Inv hk ∧ hk r = h r ∧
      predecessor for_bin m assigned copy r hk = Ok lc ∧
      p_lookup p (name (h r)) m = Ok pv ∧
      s_lookup s (name lc) (name (h r)) m = Ok sv ∧
      h' r = set_completion
               (set_start (h r) (new_start_time for_bin assigned lc hk))
               (completion_time lc + pv + sv).
Proof.
  induction order as [|job order IH]; intros Hinv Hnd h h' r Hh Hr Hrun.
  { by apply elem_of_nil in Hr. }
  apply NoDup_cons in Hnd as [Hjob Hnd].
  rewrite for_each_cons in Hrun.
  destruct (step for_bin p s m assigned copy job h) as [[[]|e] h1] eqn:Hstep;
    [|done].
  assert (Inv h1) as Hh1.
  { eapply Hinv; [apply list_elem_of_here|exact Hh|exact Hstep]. }
  apply elem_of_cons in Hr as [->|Hr].
  - exists h. unfold step in Hstep.
    destruct (predecessor for_bin m assigned copy job h) as [lc|e] eqn:Hlc;
      [|done].
    destruct (p_lookup p (name (h job)) m) as [pv|e] eqn:Hpv; [|done].
    destruct (s_lookup s (name lc) (name (h job)) m) as [sv|e] eqn:Hsv; [|done].
    exists lc, pv, sv. repeat split; try done.
    pose proof (for_each_step_frame for_bin p s m assigned copy order h1 job Hjob)
      as Hfr.
    rewrite Hrun in Hfr. simpl in Hfr. rewrite Hfr.
    injection Hstep as <-. by rewrite !upd_same.
  - assert (h1 r = h r) as Heq.
    { pose proof (step_frame for_bin p s m assigned copy job h r) as Hfr.
      rewrite Hstep in Hfr. apply Hfr. by intros ->. }
    destruct (IH ltac:(intros j ha hb Hj; apply Hinv; by apply list_elem_of_further)
                Hnd h1 h' r Hh1 Hr Hrun)
      as (hk & lc & pv & sv & Hk & Hkr & Hlc & Hp & Hs & Hfin).
    rewrite Heq in *. by exists hk, lc, pv, sv.
Qed.

Lemma machine_run_written for_bin p s m assigned (Inv : heap → Prop) h v h' r :
  (∀ job h1 h2, job ∈ assigned → Inv h1 →
     step for_bin p s m assigned (map h assigned) job h1 = (Ok tt, h2) → Inv h2) →
  NoDup assigned → Inv h → r ∈ assigned →
  machine_run for_bin p s m assigned h = (Ok v, h') →
  ∃ hk lc pv sv,
    Inv hk ∧ hk r = h r ∧
    predecessor for_bin m assigned (map h assigned) r hk = Ok lc ∧
    p_lookup p (name (h r)) m = Ok pv ∧
    s_lookup s (name lc) (name (h r)) m = Ok sv ∧
    h' r = set_completion
             (set_start (h r) (new_start_time for_bin assigned lc hk))
             (completion_time lc + pv + sv).
Proof.
  intros Hinv Hnd Hh Hr Hrun. unfold machine_run in Hrun.
  destruct (for_each _ _ h) as [[[]|e] h1] eqn:Hloop; [|done].
  injection Hrun as _ <-.
  eapply for_each_written; [| |exact Hh| |exact Hloop].
  - intros job ha hb Hjob%py_sorted_elem. by apply Hinv.
  - by rewrite py_sorted_perm.
  - by apply py_sorted_elem.
Qed.

(** The value of a machine is the largest completion time its jobs end
    with. *)
Lemma machine_run_value for_bin p s m assigned h v :
  (machine_run for_bin p s m assigned h).1 = Ok v →
  (∃ r, r ∈ assigned ∧
        v = completion_time ((machine_run for_bin p s m assigned h).2 r)) ∧
  ∀ r, r ∈ assigned →
       completion_time ((machine_run for_bin p s m assigned h).2 r) ≤ v.
Proof.
  unfold machine_run.
  destruct (for_each _ _ h) as [[[]|e] h1]; [|done]. simpl. intros Hmax. split.
  - apply py_max_elem in Hmax. rewrite map_map in Hmax.
    apply list_elem_of_fmap in Hmax as (r & -> & Hr). by exists r.
  - intros r Hr.
    apply (py_max_ge id _ _ (completion_time (h1 r))) in Hmax; [done|].
    rewrite map_map. by apply (list_elem_of_fmap_2 (fun r => completion_time (h1 r))).
Qed.

(** A run that returns, taken apart: the tables, the groups, the values
    of the machines and the final records. *)
Lemma calc_makespan_Ok_inv jobs P S job_names machines for_bin h v h' :
  _calc_makespan jobs P S job_names machines for_bin h = (Ok v, h') →
  ∃ s p keys vs,
    makeDict3 job_names job_names machines S = Ok s ∧
    makeDict2 (tail job_names) machines P = Ok p ∧
    NoDup keys ∧ (∀ m, m ∈ keys ↔ ∃ r, r ∈ jobs ∧ machine (h r) = m) ∧
    py_max id vs = Ok v ∧
    Forall2 (fun g v => (machine_run for_bin p s g.1 g.2 h).1 = Ok v)
      (groups_of h jobs keys) vs ∧
    ∀ g r, g ∈ groups_of h jobs keys → r ∈ g.2 →
           h' r = (machine_run for_bin p s g.1 g.2 h).2 r.
Proof.
  intros Hrun.
  destruct (calc_makespan_cases jobs P S job_names machines for_bin h)
    as [[Hfail _]|(s & p & keys & Hs & Hp & Hnd & Hkeys & Heq)]; [congruence|].
  rewrite Heq in Hrun.
  destruct (for_collect _ (groups_of h jobs keys) h) as [[vs|e] h1] eqn:Hloop;
    [|done].
  injection Hrun as Hmax <-.
  exists s, p, keys, vs. repeat split; try done; try apply Hkeys.
  - eapply for_collect_machines_heap; [| | |exact Hloop].
    + by apply groups_of_NoDup.
    + intros g Hg r Hr.
      apply groups_of_elem in Hg as (_ & _ & _ & Hin); [|intros m; apply Hkeys].
      by apply Hin.
    + by intros g Hg r Hr.
  - eapply for_collect_machines_heap; [| | |exact Hloop].
    + by apply groups_of_NoDup.
    + intros g Hg r Hr.
      apply groups_of_elem in Hg as (_ & _ & _ & Hin); [|intros m; apply Hkeys].
      by apply Hin.
    + by intros g Hg r Hr.
Qed.

(** The final record of a listed job is the one its machine's run gives
    it. *)
Lemma calc_makespan_final jobs P S job_names machines for_bin h v h' r :
  _calc_makespan jobs P S job_names machines for_bin h = (Ok v, h') →
  r ∈ jobs →
  ∃ s p vm,
    makeDict3 job_names job_names machines S = Ok s ∧
    makeDict2 (tail job_names) machines P = Ok p ∧
    machine_run for_bin p s (machine (h r)) (jobs_on h jobs (machine (h r))) h
    = (Ok vm, (machine_run for_bin p s (machine (h r))
                 (jobs_on h jobs (machine (h r))) h).2) ∧
    vm ≤ v ∧
    h' r = (machine_run for_bin p s (machine (h r))
              (jobs_on h jobs (machine (h r))) h).2 r.
Proof.
  intros Hrun Hr.
  destruct (calc_makespan_Ok_inv _ _ _ _ _ _ _ _ _ Hrun)
    as (s & p & keys & vs & Hs & Hp & Hnd & Hkeys & Hmax & Hvs & Hfin).
  set (g := (machine (h r), jobs_on h jobs (machine (h r)))).
  assert (g ∈ groups_of h jobs keys) as Hg.
  { apply (list_elem_of_fmap_2 (fun m => (m, jobs_on h jobs m))).
    apply Hkeys. by exists r. }
  assert (r ∈ g.2) as Hrg by (by apply list_elem_of_filter).
  apply list_elem_of_lookup in Hg as [i Hi].
  destruct (Forall2_lookup_l _ _ _ _ _ Hvs Hi) as (vm & Hvm & Hres).
  exists s, p, vm. repeat split; try done.
  - simpl in Hres. destruct (machine_run _ _ _ _ _ h) as [res hm].
    simpl in *. by subst res.
  - apply (py_max_ge id _ _ vm) in Hmax; [done|].
    by eapply list_elem_of_lookup_2.
  - apply (Hfin g r); [by eapply list_elem_of_lookup_2|done].
Qed.

(** ** The tables, entry by entry *)

Lemma dict_update_zip_notin (h1 : list string) (row : list Z)
    (d : gmap string Z) m :
  m ∉ h1 → dict_update d (zip h1 row) !! m = d !! m.
Proof.
  revert row d. induction h1 as [|x h1 IH]; intros row d Hm; [done|].
  apply not_elem_of_cons in Hm as [Hne Hm].
  destruct row as [|v row]; [done|]. unfold dict_update in *. simpl.
  rewrite IH by done. by rewrite lookup_insert_ne.
Qed.

Lemma dict_update_zip_lookup (h1 : list string) (row : list Z)
    (d : gmap string Z) (k : nat) m :
  NoDup h1 → h1 !! k = Some m →
  dict_update d (zip h1 row) !! m =
  match row !! k with Some v => Some v | None => d !! m end.
Proof.
  revert row d k. induction h1 as [|x h1 IH]; intros row d k Hnd Hk; [done|].
  apply NoDup_cons in Hnd as [Hx Hnd].
  destruct row as [|v row]; [done|]. unfold dict_update in *. simpl.
  destruct k as [|k]; simpl in *.
  - injection Hk as ->.
    pose proof (dict_update_zip_notin h1 row (<[m:=v]> d) m Hx) as H.
    unfold dict_update in H. rewrite H. by rewrite lookup_insert_eq.
  - rewrite (IH row _ k Hnd Hk). destruct (row !! k); [done|].
    rewrite lookup_insert_ne; [done|]. intros ->. apply Hx.
    by eapply list_elem_of_lookup_2.
Qed.

(** The entry of a leaf dictionary: the value in the row under the
    machine's column, 0 where the row is too short. *)
Lemma makeDict_leaf_entry (h1 : list string) (row : list Z) (k : nat) m x :
  NoDup h1 → h1 !! k = Some m → makeDict_leaf h1 row = Ok x →
  getitem x.1 m = Ok (default 0 (row !! k)).
Proof.
  intros Hnd Hk [= <-]. unfold getitem, dict_of. simpl.
  rewrite (dict_update_zip_lookup h1 row ∅ k m Hnd Hk).
  destruct (row !! k); [done|]. by rewrite lookup_empty.
Qed.

Lemma last_at_NoDup (l : list string) (i : nat) a :
  NoDup l → l !! i = Some a → last_at l i a.
Proof.
  intros Hnd Hi. split; [done|]. intros j Hlt Hj.
  pose proof (NoDup_lookup l i j a Hnd Hi Hj). lia.
Qed.

Lemma makeDict_rows_notin {A V} (sub : A → result (V * V)) h0 array i res dv
    res' dv' a :
  makeDict_rows sub h0 array i res dv = Ok (res', dv') →
  a ∉ h0 → res' !! a = res !! a.
Proof.
  revert i res dv. induction h0 as [|x h0 IH]; intros i res dv; simpl.
  - by intros [= <- <-].
  - destruct (array !! i) as [y|]; [|done].
    destruct (sub y) as [[d dv1]|e]; [|done].
    intros Hrows [Hne Ha]%not_elem_of_cons.
    rewrite (IH _ _ _ Hrows Ha). by rewrite lookup_insert_ne.
Qed.

Lemma makeDict_rows_last {A V} (sub : A → result (V * V)) h0 array (i0 : nat)
    res dv res' dv' (i : nat) a :
  makeDict_rows sub h0 array i0 res dv = Ok (res', dv') →
  last_at h0 i a →
  ∃ y d dv1, array !! (i0 + i)%nat = Some y ∧ sub y = Ok (d, dv1) ∧
             res' !! a = Some d.
Proof.
  revert i0 res dv i. induction h0 as [|x h0 IH]; intros i0 res dv i; simpl.
  - by intros _ [? _].
  - destruct (array !! i0) as [y|] eqn:Hy; [|done].
    destruct (sub y) as [[d dv1]|e] eqn:Hsub; [|done].
    intros Hrows [Hi Hlast]. destruct i as [|i]; simpl in *.
    + injection Hi as ->. exists y, d, dv1.
      rewrite Nat.add_0_r. split; [done|]. split; [done|].
      rewrite (makeDict_rows_notin _ _ _ _ _ _ _ _ a Hrows).
      * by rewrite lookup_insert_eq.
      * intros [j Hj]%list_elem_of_lookup. by apply (Hlast (S j)); [lia|].
    + destruct (IH (S i0) _ _ i Hrows) as (y' & d' & dv2 & Hy' & Hsub' & Hres).
      { split; [done|]. intros j Hlt. apply (Hlast (S j)). lia. }
      exists y', d', dv2. split; [|done].
      by replace (i0 + S i)%nat with (S i0 + i)%nat by lia.
Qed.

Lemma makeDict_node_last {A V} (sub : A → result (V * V)) h0 array x (i : nat) a :
  makeDict_node sub h0 array = Ok x → last_at h0 i a →
  ∃ y d dv1, array !! i = Some y ∧ sub y = Ok (d, dv1) ∧ getitem x.1 a = Ok d.
Proof.
  unfold makeDict_node.
  destruct (makeDict_rows sub h0 array 0 ∅ None) as [[res dv]|e] eqn:Hrows;
    [|done].
  simpl. intros [= <-] Hlast.
  destruct (makeDict_rows_last _ _ _ _ _ _ _ _ _ _ Hrows Hlast)
    as (y & d & dv1 & Hy & Hsub & Hres).
  exists y, d, dv1. split; [done|]. split; [done|].
  unfold getitem. simpl. by rewrite Hres.
Qed.

Lemma p_lookup_entry h0 h1 (P : PTimes) p (i k : nat) a m :
  makeDict2 h0 h1 P = Ok p → NoDup h1 →
  last_at h0 i a → h1 !! k = Some m →
  ∃ row, P !! i = Some row ∧ p_lookup p a m = Ok (default 0 (row !! k)).
Proof.
  unfold makeDict2. intros Hp Hnd Hi Hk.
  destruct (makeDict_node (makeDict_leaf h1) h0 P) as [x|e] eqn:Hnode; [|done].
  injection Hp as <-.
  destruct (makeDict_node_last _ _ _ _ _ _ Hnode Hi)
    as (row & d & dv1 & Hrow & Hsub & Hget).
  exists row. split; [done|]. unfold p_lookup. rewrite Hget. simpl.
  by apply (makeDict_leaf_entry h1 row k m (d, dv1)).
Qed.

Lemma s_lookup_entry h0 h1 h2 (S : STimes) s (i j k : nat) a b m :
  makeDict3 h0 h1 h2 S = Ok s → NoDup h2 →
  last_at h0 i a → last_at h1 j b → h2 !! k = Some m →
  ∃ plane row, S !! i = Some plane ∧ plane !! j = Some row ∧
               s_lookup s a b m = Ok (default 0 (row !! k)).
Proof.
  unfold makeDict3. intros Hs Hnd Hi Hj Hk.
  destruct (makeDict_node (makeDict_node (makeDict_leaf h2) h1) h0 S)
    as [x|e] eqn:Hnode; [|done].
  injection Hs as <-.
  destruct (makeDict_node_last _ _ _ _ _ _ Hnode Hi)
    as (plane & d & dv1 & Hplane & Hsub & Hget).
  destruct (makeDict_node_last _ _ _ _ _ _ Hsub Hj)
    as (row & d' & dv2 & Hrow & Hsub' & Hget').
  exists plane, row. split; [done|]. split; [done|].
  unfold s_lookup. rewrite Hget. simpl in *. rewrite Hget'. simpl.
  by apply (makeDict_leaf_entry h2 row k m (d', dv2)).
Qed.

(** ** Arrays of the right shape *)

Lemma makeDict_rows_Ok {A V} (sub : A → result (V * V)) h0 array (i0 : nat)
    res dv :
  (∀ i : nat, (i < length h0)%nat →
     ∃ y r, array !! (i0 + i)%nat = Some y ∧ sub y = Ok r) →
  ∃ r, makeDict_rows sub h0 array i0 res dv = Ok r.
Proof.
  revert i0 res dv. induction h0 as [|x h0 IH]; intros i0 res dv Hall; simpl.
  - by eexists.
  - destruct (Hall 0%nat ltac:(simpl; lia)) as (y & [d dv1] & Hy & Hsub).
    rewrite Nat.add_0_r in Hy. rewrite Hy, Hsub. apply IH.
    intros i Hi. destruct (Hall (S i) ltac:(simpl; lia)) as (y' & r & Hy' & Hr).
    exists y', r. split; [|done].
    by replace (S i0 + i)%nat with (i0 + S i)%nat by lia.
Qed.

Lemma makeDict_node_Ok {A V} (sub : A → result (V * V)) h0 array :
  (∀ i : nat, (i < length h0)%nat →
     ∃ y r, array !! i = Some y ∧ sub y = Ok r) →
  ∃ r, makeDict_node sub h0 array = Ok r.
Proof.
  intros Hall. unfold makeDict_node.
  destruct (makeDict_rows_Ok sub h0 array 0 ∅ None Hall) as [[res dv] ->].
  by eexists.
Qed.

Lemma makeDict2_Ok h0 h1 (P : PTimes) :
  (length h0 ≤ length P)%nat → ∃ p, makeDict2 h0 h1 P = Ok p.
Proof.
  intros Hlen. unfold makeDict2.
  destruct (makeDict_node_Ok (makeDict_leaf h1) h0 P) as [r ->]; [|by eexists].
  intros i Hi. destruct (lookup_lt_is_Some_2 P i ltac:(lia)) as [row Hrow].
  exists row. by eexists.
Qed.

Lemma makeDict3_Ok h0 h1 h2 (S : STimes) :
  (length h0 ≤ length S)%nat →
  (∀ (i : nat) plane, (i < length h0)%nat → S !! i = Some plane →
                      (length h1 ≤ length plane)%nat) →
  ∃ s, makeDict3 h0 h1 h2 S = Ok s.
Proof.
  intros Hlen Hplanes. unfold makeDict3.
  destruct (makeDict_node_Ok (makeDict_node (makeDict_leaf h2) h1) h0 S)
    as [r ->]; [|by eexists].
  intros i Hi. destruct (lookup_lt_is_Some_2 S i ltac:(lia)) as [plane Hplane].
  exists plane.
  destruct (makeDict_node_Ok (makeDict_leaf h2) h1 plane) as [r Hr];
    [|by exists r].
  intros j Hj.
  destruct (lookup_lt_is_Some_2 plane j) as [row Hrow].
  { specialize (Hplanes i plane Hi Hplane). lia. }
  exists row. by eexists.
Qed.

(** ** Lookups in tables that were built *)

Lemma p_lookup_total h0 h1 (P : PTimes) p :
  makeDict2 h0 h1 P = Ok p → h0 ≠ [] → ∀ a m, ∃ v, p_lookup p a m = Ok v.
Proof.
  intros Hp Hne a m.
  pose proof (makeDict2_rel (fun _ _ _ => True) ltac:(done) h0 h1 P P) as H.
  eapply result_rel_diag in H; [| |exact Hp].
  - destruct H as [Hb _]. destruct (Hb Hne a m) as (v & _ & -> & _). by exists v.
  - by apply row_rel_diag.
Qed.

Lemma p_lookup_unbound h1 (P : PTimes) p a m :
  makeDict2 [] h1 P = Ok p → p_lookup p a m = Raise NameError.
Proof. by intros [= <-]. Qed.

Lemma s_lookup_total h0 h1 h2 (S : STimes) s :
  makeDict3 h0 h1 h2 S = Ok s → h0 ≠ [] → h1 ≠ [] →
  ∀ a b m, ∃ v, s_lookup s a b m = Ok v.
Proof.
  intros Hs Hne0 Hne1 a b m.
  pose proof (makeDict3_rel (fun _ _ _ => True) ltac:(done) h0 h1 h2 S S) as H.
  eapply result_rel_diag in H; [| |exact Hs].
  - destruct H as [Hb _].
    destruct (Hb (conj Hne0 Hne1) a b m) as (v & _ & -> & _). by exists v.
  - by apply plane_rel_diag.
Qed.

(** A property of 0 and of every entry of the array holds of every value
    looked up. *)
Lemma p_lookup_pred (Q : Z → Prop) h0 h1 (P : PTimes) p a m v :
  Q 0 → (∀ row x, row ∈ P → x ∈ row → Q x) →
  makeDict2 h0 h1 P = Ok p → p_lookup p a m = Ok v → Q v.
Proof.
  intros Q0 HQ Hp Hv.
  destruct (decide (h0 = [])) as [->|Hne].
  { by rewrite (p_lookup_unbound _ _ _ _ _ Hp) in Hv. }
  pose proof (makeDict2_rel (fun _ v _ => Q v) ltac:(done) h0 h1 P P) as H.
  eapply result_rel_diag in H; [| |exact Hp].
  - destruct H as [Hb _]. destruct (Hb Hne a m) as (w & w' & Hw & _ & Hin & Hout).
    assert (w = v) as -> by congruence.
    destruct (decide (a ∈ h0)) as [Ha|Ha]; [by apply Hin|].
    by destruct (Hout Ha) as [-> _].
  - apply row_rel_diag. intros row i k x Hrow _ Hx.
    eapply HQ; [done|]. by eapply list_elem_of_lookup_2.
Qed.

Lemma s_lookup_pred (Q : Z → Prop) h0 h1 h2 (S : STimes) s a b m v :
  Q 0 → (∀ plane row x, plane ∈ S → row ∈ plane → x ∈ row → Q x) →
  makeDict3 h0 h1 h2 S = Ok s → s_lookup s a b m = Ok v → Q v.
Proof.
  intros Q0 HQ Hs Hv.
  pose proof (makeDict3_rel (fun _ v _ => Q v) ltac:(done) h0 h1 h2 S S) as H.
  eapply result_rel_diag in H; [| |exact Hs].
  - destruct H as [Hb Hu].
    destruct (decide (h0 ≠ [] ∧ h1 ≠ [])) as [Hne|Hne].
    + destruct (Hb Hne a b m) as (w & w' & Hw & _ & Hin & Hout).
      assert (w = v) as -> by congruence.
      destruct (decide (a ∈ h0)) as [Ha|Ha]; [|by destruct Hout as [-> _]; [left|]].
      destruct (decide (b ∈ h1)) as [Hb'|Hb'];
        [|by destruct Hout as [-> _]; [right|]].
      by apply Hin.
    + destruct (Hu Hne a b m) as [Hraise _]. congruence.
  - apply plane_rel_diag. intros plane row i k x Hplane Hrow _ Hx.
    eapply HQ; [done..|]. by eapply list_elem_of_lookup_2.
Qed.

(** ** What can be raised *)

Lemma for_each_step_Raise for_bin p s m assigned h0 order :
  (∀ r, r ∈ order → r ∈ assigned) →
  ∀ h e, (∀ r, name (h r) = name (h0 r)) →
    (for_each (step for_bin p s m assigned (map h0 assigned)) order h).1
    = Raise e →
    e = NameError.
Proof.
  induction order as [|job order IH]; intros Hsub h e Hname; [done|].
  rewrite for_each_cons.
  destruct (predecessor_Ok for_bin m assigned job h0 h) as [lc Hlc];
    [apply Hsub, list_elem_of_here|done|].
  pose proof (step_name_machine for_bin p s m assigned (map h0 assigned) job h)
    as Hnm.
  unfold step in *. rewrite Hlc in *.
  destruct (p_lookup p (name (h job)) m) as [pv|e'] eqn:Hpv.
  - destruct (s_lookup s (name lc) (name (h job)) m) as [sv|e'] eqn:Hsv.
    + apply IH.
      * intros r Hr. by apply Hsub, list_elem_of_further.
      * intros r. rewrite <- Hname. exact (proj1 (Hnm r)).
    + simpl. intros [= <-]. by eapply s_lookup_Raise.
  - simpl. intros [= <-]. by eapply p_lookup_Raise.
Qed.

Lemma machine_run_Raise for_bin p s m assigned h e :
  assigned ≠ [] → (machine_run for_bin p s m assigned h).1 = Raise e →
  e = NameError.
Proof.
  intros Hne. unfold machine_run.
  pose proof (for_each_step_Raise for_bin p s m assigned h
                (py_sorted (fun r => start_time (h r)) assigned)
                ltac:(intros r; by rewrite py_sorted_elem) h) as Hloop.
  destruct (for_each _ _ h) as [[[]|e'] h1]; simpl in *.
  - intros Hmax%py_max_Raise. by destruct assigned.
  - intros [= <-]. by apply Hloop.
Qed.

Lemma for_collect_machines_Raise for_bin p s groups h e :
  (∀ g, g ∈ groups → g.2 ≠ []) →
  (for_collect (fun g => machine_run for_bin p s g.1 g.2) groups h).1 = Raise e →
  e = NameError.
Proof.
  revert h. induction groups as [|g groups IH]; intros h Hne; simpl; [done|].
  unfold mbind, M_bind.
  pose proof (machine_run_Raise for_bin p s g.1 g.2 h) as Hg.
  destruct (machine_run for_bin p s g.1 g.2 h) as [[v|e'] h1]; simpl in *.
  - specialize (IH h1 ltac:(intros g' Hg'; by apply Hne, list_elem_of_further)).
    destruct (for_collect _ groups h1) as [[vs|e'] h2]; simpl in *; [done|].
    exact IH.
  - intros [= <-]. apply Hg; [apply Hne, list_elem_of_here|done].
Qed.

Lemma for_collect_machines_total for_bin p s groups h :
  (∀ a m, ∃ v, p_lookup p a m = Ok v) →
  (∀ a b m, ∃ v, s_lookup s a b m = Ok v) →
  (∀ g, g ∈ groups → g.2 ≠ []) →
  ∃ vs h', for_collect (fun g => machine_run for_bin p s g.1 g.2) groups h
           = (Ok vs, h') ∧ length vs = length groups.
Proof.
  intros Hp Hs Hne.
  destruct (for_collect_inv (fun g => machine_run for_bin p s g.1 g.2)
              (fun _ => True) (fun _ _ => True) groups) with (h := h)
    as (vs & h' & Hrun & Hall & _); [|done|].
  - intros g h1 Hg _.
    destruct (machine_run_total for_bin p s g.1 g.2 h1) as [v Hv];
      [by intros a|by intros a b|by apply Hne|].
    exists v. destruct (machine_run _ _ _ _ _ h1) as [res h2]. simpl in Hv.
    subst res. by exists h2.
  - exists vs, h'. split; [done|]. symmetry. by eapply Forall2_length.
Qed.

Lemma for_collect_length {A B} (body : A → M B) xs h vs h' :
  for_collect body xs h = (Ok vs, h') → length vs = length xs.
Proof.
  revert h vs. induction xs as [|x xs IH]; intros h vs; simpl.
  - by intros [= <- <-].
  - unfold mbind, M_bind. destruct (body x h) as [[b|e] h1]; [|done].
    destruct (for_collect body xs h1) as [[bs|e] h2] eqn:Hrest; [|done].
    intros [= <- <-]. simpl. f_equal. by eapply IH.
Qed.

Lemma groups_of_nonempty h jobs keys :
  (∀ m, m ∈ keys ↔ ∃ r, r ∈ jobs ∧ machine (h r) = m) →
  jobs ≠ [] → groups_of h jobs keys ≠ [].
Proof.
  intros Hkeys Hne. destruct jobs as [|r jobs]; [done|].
  assert (machine (h r) ∈ keys) as Hin.
  { apply Hkeys. exists r. split; [apply list_elem_of_here|done]. }
  unfold groups_of. destruct keys; [by apply elem_of_nil in Hin|done].
Qed.

Lemma groups_of_nil h keys :
  (∀ m, m ∈ keys ↔ ∃ r, r ∈ [] ∧ machine (h r) = m) →
  groups_of h [] keys = [].
Proof.
  intros Hkeys. destruct keys as [|k keys]; [done|].
  destruct (proj1 (Hkeys k) ltac:(apply list_elem_of_here)) as (r & Hr & _).
  by apply elem_of_nil in Hr.
Qed.

(** The final record of a listed job, in a run over distinct objects that
    returns: the two values written in the job's own iteration. *)
Lemma calc_makespan_written (Inv : heap → Prop) jobs P S job_names machines
    for_bin h v h' r :
  _calc_makespan jobs P S job_names machines for_bin h = (Ok v, h') →
  NoDup jobs → r ∈ jobs →
  let m := machine (h r) in
  let assigned := jobs_on h jobs m in
  ∀ s p,
  makeDict3 job_names job_names machines S = Ok s →
  makeDict2 (tail job_names) machines P = Ok p →
  (∀ job h1 h2, job ∈ assigned → Inv h1 →
     step for_bin p s m assigned (map h assigned) job h1 = (Ok tt, h2) →
     Inv h2) →
  Inv h →
  ∃ hk lc pv sv,
    Inv hk ∧ hk r = h r ∧
    predecessor for_bin m assigned (map h assigned) r hk = Ok lc ∧
    p_lookup p (name (h r)) m = Ok pv ∧
    s_lookup s (name lc) (name (h r)) m = Ok sv ∧
    h' r = set_completion
             (set_start (h r) (new_start_time for_bin assigned lc hk))
             (completion_time lc + pv + sv).
Proof.
  intros Hrun Hnd Hr m assigned s p Hs Hp Hinv Hh.
  destruct (calc_makespan_final _ _ _ _ _ _ _ _ _ r Hrun Hr)
    as (s' & p' & vm & Hs' & Hp' & Hm & _ & ->).
  assert (s' = s) as -> by congruence. assert (p' = p) as -> by congruence.
  eapply (machine_run_written for_bin p s m assigned Inv h vm); try done.
  - by apply NoDup_filter.
  - by apply list_elem_of_filter.
Qed.

Lemma predecessor_start_zero for_bin m assigned copy job h lc :
  start_time (h job) = 0 →
  predecessor for_bin m assigned copy job h = Ok lc → lc = dummy_job m.
Proof.
  intros Hz. destruct for_bin.
  - rewrite predecessor_bin, Hz.
    destruct (py_max completion_time (map h assigned)); [|done].
    by intros [= <-].
  - rewrite predecessor_ordered, Hz.
    destruct (_find_last_completed (name (h job)) copy m); [|done].
    by intros [= <-].
Qed.

Lemma step_keeps_names for_bin p s m assigned copy job (h0 h1 h2 : heap) res :
  (∀ x, name (h1 x) = name (h0 x)) →
  step for_bin p s m assigned copy job h1 = (res, h2) →
  ∀ x, name (h2 x) = name (h0 x).
Proof.
  intros Hname Hstep x.
  destruct (step_name_machine for_bin p s m assigned copy job h1 x) as [Hn _].
  rewrite Hstep in Hn. simpl in Hn. by rewrite Hn.
Qed.

(** ** The value returned *)

Lemma calc_makespan_max jobs P S job_names machines for_bin h v h' :
  _calc_makespan jobs P S job_names machines for_bin h = (Ok v, h') →
  (∃ r, r ∈ jobs ∧ completion_time (h' r) = v) ∧
  ∀ r, r ∈ jobs → completion_time (h' r) ≤ v.
Proof.
  intros Hrun. split.
  - destruct (calc_makespan_Ok_inv _ _ _ _ _ _ _ _ _ Hrun)
      as (s & p & keys & vs & Hs & Hp & Hnd & Hkeys & Hmax & Hvs & Hfin).
    apply py_max_elem in Hmax. apply list_elem_of_lookup in Hmax as [i Hi].
    destruct (Forall2_lookup_r _ _ _ _ _ Hvs Hi) as (g & Hg & Hres).
    apply list_elem_of_lookup_2 in Hg.
    destruct (machine_run_value _ _ _ _ _ _ _ Hres) as [(r & Hr & ->) _].
    exists r. split.
    + apply (groups_of_cover h jobs keys r Hkeys). by exists g.
    + by rewrite (Hfin g r).
  - intros r Hr.
    destruct (calc_makespan_final _ _ _ _ _ _ _ _ _ r Hrun Hr)
      as (s & p & vm & Hs & Hp & Hm & Hle & ->).
    assert ((machine_run for_bin p s (machine (h r))
               (jobs_on h jobs (machine (h r))) h).1 = Ok vm) as Hres
      by (by rewrite Hm).
    destruct (machine_run_value _ _ _ _ _ _ _ Hres) as [_ Hub].
    specialize (Hub r ltac:(by apply list_elem_of_filter)). lia.
Qed.

(** With the tables built, a job list that is not empty and a job name
    besides the dummy's, the run returns. *)
Lemma calc_makespan_built_returns jobs P S job_names machines for_bin h s p :
  makeDict3 job_names job_names machines S = Ok s →
  makeDict2 (tail job_names) machines P = Ok p →
  jobs ≠ [] → tail job_names ≠ [] →
  ∃ v h', _calc_makespan jobs P S job_names machines for_bin h = (Ok v, h').
Proof.
  intros Hs Hp Hjobs Htail.
  destruct (calc_makespan_cases jobs P S job_names machines for_bin h)
    as [[_ [?|?]]|(s' & p' & keys & Hs' & Hp' & Hnd & Hkeys & ->)];
    [congruence..|].
  assert (s' = s) as -> by congruence. assert (p' = p) as -> by congruence.
  assert (job_names ≠ []) as Hne by (by destruct job_names).
  destruct (for_collect_machines_total for_bin p s (groups_of h jobs keys) h)
    as (vs & h' & -> & Hlen).
  - by eapply p_lookup_total.
  - by eapply s_lookup_total.
  - intros g Hg. apply groups_of_elem in Hg as (_ & _ & ? & _); [done|].
    intros m. apply Hkeys.
  - destruct (py_max_Ok id vs) as [v ->]; [|by eexists _, _].
    pose proof (groups_of_nonempty h jobs keys Hkeys Hjobs).
    destruct vs; [|done]. by destruct (groups_of h jobs keys).
Qed.

(** A run that returns had a job to process and a job name besides the
    dummy's. *)
Lemma calc_makespan_Ok_nonempty jobs P S job_names machines for_bin h v h' :
  _calc_makespan jobs P S job_names machines for_bin h = (Ok v, h') →
  jobs ≠ [] ∧ tail job_names ≠ [].
Proof.
  intros Hrun.
  destruct (calc_makespan_max _ _ _ _ _ _ _ _ _ Hrun) as [(r & Hr & _) _].
  split; [by destruct jobs; [apply elem_of_nil in Hr|]|].
  destruct (calc_makespan_final _ _ _ _ _ _ _ _ _ r Hrun Hr)
    as (s & p & vm & Hs & Hp & Hm & _ & _).
  intros Htail. rewrite Htail in Hp.
  assert ((machine_run for_bin p s (machine (h r))
             (jobs_on h jobs (machine (h r))) h).1 = Raise NameError) as Hraise.
  { apply machine_run_raises.
    - left. intros a. by eapply p_lookup_unbound.
    - intros Hnil.
      assert (r ∈ jobs_on h jobs (machine (h r))) as Hin
        by (by apply list_elem_of_filter).
      rewrite Hnil in Hin. by apply elem_of_nil in Hin. }
  by rewrite Hm in Hraise.
Qed.

Lemma py_next_none {A B} (q : A → bool) (f : A → B) (l : list A) (d : B) :
  (∀ x, x ∈ l → q x = false) → py_next q f l d = d.
Proof.
  induction l as [|x l IH]; intros Hq; simpl; [done|].
  rewrite (Hq x) by apply list_elem_of_here.
  apply IH. intros y Hy. by apply Hq, list_elem_of_further.
Qed.

(** A job whose start time is 0 on entry follows the dummy job. *)
Lemma calc_makespan_start_zero jobs P S job_names machines for_bin h v h' r s p :
  _calc_makespan jobs P S job_names machines for_bin h = (Ok v, h') →
  NoDup jobs → r ∈ jobs → start_time (h r) = 0 →
  makeDict3 job_names job_names machines S = Ok s →
  makeDict2 (tail job_names) machines P = Ok p →
  ∃ pv sv,
    p_lookup p (name (h r)) (machine (h r)) = Ok pv ∧
    s_lookup s "0" (name (h r)) (machine (h r)) = Ok sv ∧
    completion_time (h' r) = pv + sv ∧
    ((for_bin = true ∨ ∀ x, x ∈ jobs → name (h x) ≠ "0"%string) →
     start_time (h' r) = 0).
Proof.
  intros Hrun Hnd Hr Hz Hs Hp.
  destruct (calc_makespan_written (fun hk => ∀ x, name (hk x) = name (h x))
              _ _ _ _ _ _ _ _ _ r Hrun Hnd Hr s p Hs Hp)
    as (hk & lc & pv & sv & Hk & Hkr & Hlc & Hpv & Hsv & Hfin); [|done|].
  { intros job h1 h2 _ Hname Hstep. by eapply step_keeps_names. }
  apply predecessor_start_zero in Hlc as ->; [|by rewrite Hkr].
  exists pv, sv. rewrite Hfin. simpl. repeat split; try done.
  intros [->|Hnames]; [done|].
  destruct for_bin; [done|]. unfold new_start_time. apply py_next_none.
  intros x [r' [-> Hr']]%list_elem_of_fmap.
  apply list_elem_of_filter in Hr' as [_ Hr'].
  rewrite Hk. apply String.eqb_neq. intros Heq.
  apply (Hnames r' Hr'). by rewrite <- Heq.
Qed.

(** An iteration that goes through: what it read and what it wrote. *)
Lemma step_Ok_inv for_bin p s m assigned copy job h h2 :
  step for_bin p s m assigned copy job h = (Ok tt, h2) →
  ∃ lc pv sv,
    predecessor for_bin m assigned copy job h = Ok lc ∧
    p_lookup p (name (h job)) m = Ok pv ∧
    s_lookup s (name lc) (name (h job)) m = Ok sv ∧
    (∀ x, x ≠ job → h2 x = h x) ∧
    completion_time (h2 job) = completion_time lc + pv + sv.
Proof.
  unfold step.
  destruct (predecessor for_bin m assigned copy job h) as [lc|e] eqn:Hlc;
    [|done].
  destruct (p_lookup p (name (h job)) m) as [pv|e] eqn:Hpv; [|done].
  destruct (s_lookup s (name lc) (name (h job)) m) as [sv|e] eqn:Hsv; [|done].
  intros [= <-]. exists lc, pv, sv.
  split; [done|]. split; [done|]. split; [done|]. split.
  - intros x Hx. by rewrite !upd_other.
  - by rewrite upd_same.
Qed.

(** With no negative entry in the tables and no negative completion time
    on entry, none is written. *)
Lemma step_nonneg for_bin p s m assigned h0 job h1 h2 :
  (∀ a v, p_lookup p a m = Ok v → 0 ≤ v) →
  (∀ a b v, s_lookup s a b m = Ok v → 0 ≤ v) →
  (∀ x, x ∈ assigned → 0 ≤ completion_time (h0 x)) →
  (∀ x, x ∈ assigned → 0 ≤ completion_time (h1 x)) →
  step for_bin p s m assigned (map h0 assigned) job h1 = (Ok tt, h2) →
  ∀ x, x ∈ assigned → 0 ≤ completion_time (h2 x).
Proof.
  intros Hp Hs H0 H1 Hstep x Hx.
  destruct (step_Ok_inv _ _ _ _ _ _ _ _ _ Hstep)
    as (lc & pv & sv & Hlc & Hpv & Hsv & Hother & Hjob).
  destruct (decide (x = job)) as [->|Hne]; [|rewrite Hother by done; by apply H1].
  rewrite Hjob. apply Hp in Hpv. apply Hs in Hsv.
  apply predecessor_elem in Hlc as [->|(r' & Hr' & [->| ->])]; simpl.
  - lia.
  - specialize (H1 r' Hr'). lia.
  - specialize (H0 r' Hr'). lia.
Qed.

Lemma job_eq (j j' : JobResultInfo) :
  name j = name j' → machine j = machine j' → start_time j = start_time j' →
  completion_time j = completion_time j' → capacity j = capacity j' → j = j'.
Proof. destruct j, j'; simpl; congruence. Qed.

(** The whole run: what it leaves alone. *)
Lemma calc_makespan_frame jobs P S job_names machines for_bin h r :
  same_identity ((_calc_makespan jobs P S job_names machines for_bin h).2 r) (h r) ∧
  (r ∉ jobs → (_calc_makespan jobs P S job_names machines for_bin h).2 r = h r).
Proof.
  destruct (calc_makespan_cases jobs P S job_names machines for_bin h)
    as [[-> _]|(s & p & keys & Hs & Hp & Hnd & Hkeys & ->)]; [done|].
  destruct (for_collect_machines_frame for_bin p s (groups_of h jobs keys) h)
    as [Hid Hfr].
  assert (r ∉ jobs → ∀ g, g ∈ groups_of h jobs keys → r ∉ g.2) as Hout.
  { intros Hr g Hg Hin. apply Hr.
    apply (groups_of_cover h jobs keys r Hkeys). by exists g. }
  specialize (Hid r).
  destruct (for_collect _ (groups_of h jobs keys) h) as [[vs|e] h1]; simpl in *.
  - split; [done|]. intros Hr. by apply Hfr, Hout.
  - split; [done|]. intros Hr. by apply Hfr, Hout.
Qed.

Lemma last_at_tail (l : list string) (i : nat) a :
  last_at l (S i) a → last_at (tail l) i a.
Proof.
  destruct l as [|x l]; [by intros [? _]|]. simpl. intros [Hi Hlast].
  split; [done|]. intros j Hlt. apply (Hlast (S j)). lia.
Qed.

(** With the tables built, the outcome of a run by cases. *)
Lemma calc_makespan_outcome jobs P S job_names machines for_bin h s p :
  makeDict3 job_names job_names machines S = Ok s →
  makeDict2 (tail job_names) machines P = Ok p →
  (jobs = [] →
   _calc_makespan jobs P S job_names machines for_bin h
   = (Raise ValueError_max_empty, h)) ∧
  (jobs ≠ [] → tail job_names = [] →
   (_calc_makespan jobs P S job_names machines for_bin h).1 = Raise NameError) ∧
  (jobs ≠ [] → tail job_names ≠ [] →
   ∃ v h', _calc_makespan jobs P S job_names machines for_bin h = (Ok v, h')).
Proof.
  intros Hs Hp. split; [|split].
  - intros ->.
    destruct (calc_makespan_cases [] P S job_names machines for_bin h)
      as [[_ [?|?]]|(s' & p' & keys & _ & _ & _ & Hkeys & ->)]; [congruence..|].
    by rewrite (groups_of_nil h keys Hkeys).
  - intros Hjobs Htail.
    destruct (_calc_makespan jobs P S job_names machines for_bin h)
      as [[v|e] h'] eqn:Hrun.
    + by destruct (calc_makespan_Ok_nonempty _ _ _ _ _ _ _ _ _ Hrun) as [_ ?].
    + simpl. f_equal.
      destruct (calc_makespan_cases jobs P S job_names machines for_bin h)
        as [[_ [?|?]]|(s' & p' & keys & _ & _ & _ & Hkeys & Heq)];
        [congruence..|].
      rewrite Heq in Hrun.
      pose proof (for_collect_machines_Raise for_bin p' s'
                    (groups_of h jobs keys) h) as Hloop.
      pose proof (groups_of_nonempty h jobs keys Hkeys Hjobs) as Hne.
      destruct (for_collect _ (groups_of h jobs keys) h) as [[vs|e'] h1] eqn:Hfc;
        simpl in *.
      * injection Hrun as Hmax _. apply py_max_Raise in Hmax as ->.
        apply for_collect_length in Hfc. by destruct (groups_of h jobs keys).
      * injection Hrun as <- _. apply Hloop; [|done].
        intros g Hg. apply groups_of_elem in Hg as (_ & _ & ? & _); [done|].
        intros m. apply Hkeys.
  - intros Hjobs Htail. by eapply calc_makespan_built_returns.
Qed.

(** When no processing time can be looked up, no completion time is
    written. *)
Lemma step_unbound for_bin p s m assigned copy job h :
  (∀ a, p_lookup p a m = Raise NameError) →
  (∃ e, (step for_bin p s m assigned copy job h).1 = Raise e) ∧
  ∀ r, completion_time ((step for_bin p s m assigned copy job h).2 r)
       = completion_time (h r).
Proof.
  intros Hp. unfold step.
  destruct (predecessor for_bin m assigned copy job h) as [lc|e];
    [|by split; [eexists|]].
  rewrite Hp. simpl. split; [by eexists|].
  intros r. destruct (decide (r = job)) as [->|Hne].
  - by rewrite upd_same.
  - by rewrite upd_other.
Qed.

Lemma machine_run_unbound for_bin p s m assigned h :
  (∀ a, p_lookup p a m = Raise NameError) →
  (∃ e, (machine_run for_bin p s m assigned h).1 = Raise e) ∧
  ∀ r, completion_time ((machine_run for_bin p s m assigned h).2 r)
       = completion_time (h r).
Proof.
  intros Hp. unfold machine_run.
  destruct (py_sorted (fun r => start_time (h r)) assigned) as [|job order] eqn:Ho.
  - simpl. assert (assigned = []) as ->.
    { apply Permutation_nil_r. rewrite <- Ho. by rewrite py_sorted_perm. }
    simpl. split; [by eexists|done].
  - rewrite for_each_cons.
    destruct (step_unbound for_bin p s m assigned (map h assigned) job h Hp)
      as [[e He] Hc].
    destruct (step for_bin p s m assigned (map h assigned) job h) as [res h1].
    simpl in *. subst res. split; [by eexists|done].
Qed.

Lemma for_collect_machines_unbound for_bin p s groups h :
  (∀ a m, p_lookup p a m = Raise NameError) →
  ∀ r, completion_time
         ((for_collect (fun g => machine_run for_bin p s g.1 g.2) groups h).2 r)
       = completion_time (h r).
Proof.
  intros Hp r. destruct groups as [|g groups]; [done|]. simpl.
  unfold mbind, M_bind.
  destruct (machine_run_unbound for_bin p s g.1 g.2 h ltac:(intros a; apply Hp))
    as [[e He] Hc].
  destruct (machine_run for_bin p s g.1 g.2 h) as [res h1].
  simpl in *. subst res. apply Hc.
Qed.

Lemma calc_makespan_unbound jobs P S job_names machines for_bin h r :
  tail job_names = [] →
  completion_time ((_calc_makespan jobs P S job_names machines for_bin h).2 r)
  = completion_time (h r).
Proof.
  intros Htail.
  destruct (calc_makespan_cases jobs P S job_names machines for_bin h)
    as [[-> _]|(s & p & keys & Hs & Hp & _ & _ & ->)]; [done|].
  rewrite Htail in Hp.
  pose proof (for_collect_machines_unbound for_bin p s (groups_of h jobs keys) h
                ltac:(intros a m; by eapply p_lookup_unbound) r) as Hc.
  by destruct (for_collect _ (groups_of h jobs keys) h) as [[vs|e] h1].
Qed.

(** ** The heap when a job's turn comes *)

Lemma for_each_app {A} (body : A → M unit) xs ys h :
  for_each body (xs ++ ys) h =
  match for_each body xs h with
  | (Ok _, h1) => for_each body ys h1
  | (Raise e, h1) => (Raise e, h1)
  end.
Proof.
  revert h. induction xs as [|x xs IH]; intros h; [done|].
  simpl. unfold mbind, M_bind.
  destruct (body x h) as [[[]|e] h1]; [|done]. apply IH.
Qed.

Lemma for_each_head_written for_bin p s m assigned copy r after h h' :
  r ∉ after →
  for_each (step for_bin p s m assigned copy) (r :: after) h = (Ok tt, h') →
  ∃ lc pv sv,
    predecessor for_bin m assigned copy r h = Ok lc ∧
    p_lookup p (name (h r)) m = Ok pv ∧
    s_lookup s (name lc) (name (h r)) m = Ok sv ∧
    h' r = set_completion
             (set_start (h r) (new_start_time for_bin assigned lc h))
             (completion_time lc + pv + sv).
Proof.
  intros Hr Hrun. rewrite for_each_cons in Hrun.
  destruct (step for_bin p s m assigned copy r h) as [[[]|e] h1] eqn:Hstep;
    [|done].
  unfold step in Hstep.
  destruct (predecessor for_bin m assigned copy r h) as [lc|e] eqn:Hlc; [|done].
  destruct (p_lookup p (name (h r)) m) as [pv|e] eqn:Hpv; [|done].
  destruct (s_lookup s (name lc) (name (h r)) m) as [sv|e] eqn:Hsv; [|done].
  exists lc, pv, sv. repeat split; try done.
  pose proof (for_each_step_frame for_bin p s m assigned copy after h1 r Hr)
    as Hfr.
  rewrite Hrun in Hfr. simpl in Hfr. rewrite Hfr.
  injection Hstep as <-. by rewrite !upd_same.
Qed.

(** In a loop over distinct jobs that goes through, when the turn of [r]
    comes the jobs iterated before it hold their final records and the
    others the records they had when the loop began; [r] ends with the
    two values written in its iteration. *)
Lemma for_each_moment for_bin p s m assigned copy before r after h h' :
  NoDup (before ++ r :: after) →
  for_each (step for_bin p s m assigned copy) (before ++ r :: after) h
  = (Ok tt, h') →
  ∃ hk lc pv sv,
    (∀ x, x ∈ before → hk x = h' x) ∧
    (∀ x, x ∉ before → hk x = h x) ∧
    predecessor for_bin m assigned copy r hk = Ok lc ∧
    p_lookup p (name (h r)) m = Ok pv ∧
    s_lookup s (name lc) (name (h r)) m = Ok sv ∧
    h' r = set_completion
             (set_start (h r) (new_start_time for_bin assigned lc hk))
             (completion_time lc + pv + sv).
Proof.
  intros Hnd Hrun. rewrite for_each_app in Hrun.
  destruct (for_each (step for_bin p s m assigned copy) before h)
    as [[[]|e] hk] eqn:Hbefore; [|done].
  apply NoDup_app in Hnd as (Hndb & Hdisj & Hnda).
  apply NoDup_cons in Hnda as [Hra Hnda].
  assert (∀ x, x ∉ before → hk x = h x) as Hout.
  { intros x Hx.
    pose proof (for_each_step_frame for_bin p s m assigned copy before h x Hx)
      as Hfr.
    by rewrite Hbefore in Hfr. }
  assert (r ∉ before) as Hr.
  { intros Hin. apply (Hdisj r Hin), list_elem_of_here. }
  destruct (for_each_head_written _ _ _ _ _ _ _ _ _ _ Hra Hrun)
    as (lc & pv & sv & Hlc & Hpv & Hsv & Hfin).
  exists hk, lc, pv, sv. rewrite (Hout r Hr) in *.
  repeat split; try done.
  intros x Hx.
  pose proof (for_each_step_frame for_bin p s m assigned copy (r :: after)
                hk x ltac:(by apply Hdisj)) as Hfr.
  by rewrite Hrun in Hfr.
Qed.

(** The same for a run that returns: [hk] is the heap when the turn of
    the listed job [r] comes in the loop of its machine, whose order is
    the machine's jobs sorted by the start times they had on entry. *)
Lemma calc_makespan_moment jobs P S job_names machines for_bin h v h' r s p :
  _calc_makespan jobs P S job_names machines for_bin h = (Ok v, h') →
  NoDup jobs → r ∈ jobs →
  makeDict3 job_names job_names machines S = Ok s →
  makeDict2 (tail job_names) machines P = Ok p →
  ∃ before after hk lc pv sv,
    py_sorted (fun x => start_time (h x)) (jobs_on h jobs (machine (h r)))
    = before ++ r :: after ∧
    (∀ x, x ∈ before → hk x = h' x) ∧
    (∀ x, x ∉ before → hk x = h x) ∧
    predecessor for_bin (machine (h r)) (jobs_on h jobs (machine (h r)))
      (map h (jobs_on h jobs (machine (h r)))) r hk = Ok lc ∧
    p_lookup p (name (h r)) (machine (h r)) = Ok pv ∧
    s_lookup s (name lc) (name (h r)) (machine (h r)) = Ok sv ∧
    h' r = set_completion
             (set_start (h r)
                (new_start_time for_bin (jobs_on h jobs (machine (h r))) lc hk))
             (completion_time lc + pv + sv).
Proof.
  intros Hrun Hnd Hr Hs Hp.
  destruct (calc_makespan_Ok_inv _ _ _ _ _ _ _ _ _ Hrun)
    as (s' & p' & keys & vs & Hs' & Hp' & Hndk & Hkeys & Hmax & Hvs & Hfin).
  assert (s' = s) as -> by congruence. assert (p' = p) as -> by congruence.
  set (m := machine (h r)). set (assigned := jobs_on h jobs m).
  set (g := (m, assigned)).
  assert (g ∈ groups_of h jobs keys) as Hg.
  { apply (list_elem_of_fmap_2 (fun m => (m, jobs_on h jobs m))).
    apply Hkeys. by exists r. }
  assert (r ∈ assigned) as Hra by (by apply list_elem_of_filter).
  assert (∃ vm, (machine_run for_bin p s m assigned h).1 = Ok vm) as [vm Hvm].
  { apply list_elem_of_lookup in Hg as [i Hi].
    destruct (Forall2_lookup_l _ _ _ _ _ Hvs Hi) as (vm & _ & Hres).
    by exists vm. }
  pose proof (fun x Hx => Hfin g x Hg Hx) as Hfinal. simpl in Hfinal.
  unfold machine_run in Hvm, Hfinal.
  set (order := py_sorted (fun x => start_time (h x)) assigned) in *.
  destruct (for_each _ order h) as [[[]|e] hm] eqn:Hloop; [|done].
  simpl in Hfinal.
  assert (r ∈ order) as Hro by (subst order; by apply py_sorted_elem).
  apply list_elem_of_split in Hro as (before & after & Hsplit).
  assert (NoDup order) as Hndo.
  { subst order. rewrite py_sorted_perm. by apply NoDup_filter. }
  rewrite Hsplit in Hloop, Hndo.
  destruct (for_each_moment _ _ _ _ _ _ _ _ _ _ _ Hndo Hloop)
    as (hk & lc & pv & sv & Hbefore & Hout & Hlc & Hpv & Hsv & Hr').
  exists before, after, hk, lc, pv, sv.
  split; [done|]. split.
  { intros x Hx. rewrite Hbefore by done. symmetry. apply Hfinal.
    apply (py_sorted_elem (fun x => start_time (h x))). fold order.
    rewrite Hsplit. apply elem_of_app. by left. }
  split; [done|]. split; [done|]. split; [done|]. split; [done|].
  by rewrite (Hfinal r Hra).
Qed.

(** In dynamic-bin mode the predecessor is the dummy job for a job whose
    start time is 0, and otherwise the first of the machine's jobs with
    the largest completion time in the heap. *)
Lemma predecessor_bin_first_max m assigned copy job (h : heap) lc :
  predecessor true m assigned copy job h = Ok lc →
  (start_time (h job) = 0 → lc = dummy_job m) ∧
  (start_time (h job) ≠ 0 →
   ∃ (i : nat) r, assigned !! i = Some r ∧ lc = h r ∧
     (∀ r', r' ∈ assigned → completion_time (h r') ≤ completion_time lc) ∧
     (∀ (i' : nat) r', (i' < i)%nat → assigned !! i' = Some r' →
                       completion_time (h r') < completion_time lc)).
Proof.
  rewrite predecessor_bin.
  destruct (py_max completion_time (map h assigned)) as [lc0|e] eqn:Hmax;
    [|done].
  intros [= <-]. split.
  - by intros ->.
  - intros Hne. destruct (Z.eqb_spec (start_time (h job)) 0) as [?|_]; [done|].
    destruct (py_max_first _ _ _ Hmax) as (i & Hi & Hfirst).
    rewrite list_lookup_fmap in Hi.
    destruct (assigned !! i) as [r|] eqn:Hr; [|done]. injection Hi as <-.
    exists i, r. split; [done|]. split; [done|]. split.
    + intros r' Hr'. apply (py_max_ge _ _ _ _ Hmax).
      by apply (list_elem_of_fmap_2 h).
    + intros i' r' Hlt Hr'. apply (Hfirst i' (h r') Hlt).
      by rewrite list_lookup_fmap, Hr'.
Qed.

(** ** The GHZ circuit builders *)

Lemma cx_chain (k a : nat) (c : QuantumCircuit.t) :
  (k = 0 ∨ a + k < QuantumCircuit.num_qubits c)%nat →
  for_in (fun circuit i => QuantumCircuit.cx circuit i (i + 1)) (seq a k) c =
  Some (QuantumCircuit.mk (QuantumCircuit.num_qubits c)
          (QuantumCircuit.num_clbits c)
          (QuantumCircuit.data c
           ++ map (fun i => QuantumCircuit.CXGate i (i + 1)) (seq a k))).
Proof.
  revert a c. induction k as [|k IH]; intros a c Hk; simpl.
  - rewrite app_nil_r. by destruct c.
  - unfold QuantumCircuit.cx.
    rewrite decide_True by lia.
    rewrite IH by (simpl; lia). simpl. by rewrite <- app_assoc.
Qed.

Lemma measure_chain (k a : nat) (c : QuantumCircuit.t) :
  (a + k ≤ QuantumCircuit.num_qubits c)%nat →
  (a + k ≤ QuantumCircuit.num_clbits c)%nat →
  for_in QuantumCircuit.measure1 (zip (seq a k) (seq a k)) c =
  Some (QuantumCircuit.mk (QuantumCircuit.num_qubits c)
          (QuantumCircuit.num_clbits c)
          (QuantumCircuit.data c
           ++ map (fun i => QuantumCircuit.Measure i i) (seq a k))).
Proof.
  revert a c. induction k as [|k IH]; intros a c Hq Hc; simpl.
  - rewrite app_nil_r. by destruct c.
  - unfold QuantumCircuit.measure1. simpl.
    rewrite decide_True by lia.
    rewrite IH by (simpl; lia). simpl. by rewrite <- app_assoc.
Qed.

Lemma create_quantum_only_ghz_closed (n_qubits : Z) :
  1 ≤ n_qubits →
  create_quantum_only_ghz n_qubits =
  Some (QuantumCircuit.mk (Z.to_nat n_qubits) 0 (ghz_gates (Z.to_nat n_qubits))).
Proof.
  intros Hn. unfold create_quantum_only_ghz, QuantumCircuit.new.
  rewrite decide_True by lia. simpl.
  unfold QuantumCircuit.h. simpl. rewrite decide_True by lia. simpl.
  unfold py_range. rewrite cx_chain by (simpl; lia). simpl.
  unfold ghz_gates. by replace (Z.to_nat (n_qubits - 1)) with (Z.to_nat n_qubits - 1)%nat by lia.
Qed.

Lemma create_ghz_closed (n_qubits : Z) :
  1 ≤ n_qubits →
  create_ghz n_qubits =
  Some (QuantumCircuit.mk (Z.to_nat n_qubits) (Z.to_nat n_qubits)
          (ghz_gates (Z.to_nat n_qubits)
           ++ ghz_measurements (Z.to_nat n_qubits))).
Proof.
  intros Hn. unfold create_ghz, QuantumCircuit.new.
  rewrite decide_True by lia. simpl.
  unfold QuantumCircuit.h. simpl. rewrite decide_True by lia. simpl.
  unfold py_range. rewrite cx_chain by (simpl; lia). simpl.
  unfold QuantumCircuit.measure. rewrite decide_True by done.
  rewrite measure_chain by (simpl; lia). simpl.
  unfold ghz_gates, ghz_measurements.
  by replace (Z.to_nat (n_qubits - 1)) with (Z.to_nat n_qubits - 1)%nat by lia.
Qed.

Lemma create_ghz_rejected (n_qubits : Z) :
  n_qubits ≤ 0 →
  create_ghz n_qubits = None ∧ create_quantum_only_ghz n_qubits = None.
Proof.
  intros Hn. unfold create_ghz, create_quantum_only_ghz, QuantumCircuit.new.
  destruct (decide (n_qubits = 0)) as [->|Hne]; [done|].
  rewrite !decide_False by lia. done.
Qed.

(** ** The state a circuit prepares *)

Lemma cx_chain_state (k a n : nat) :
  (a + k < n)%nat →
  apply_gates (map (fun i => QuantumCircuit.CXGate i (i + 1)) (seq a k))
    [(1, replicate n false);
     (1, replicate (a + 1) true ++ replicate (n - (a + 1)) false)] =
  [(1, replicate n false);
   (1, replicate (a + k + 1) true ++ replicate (n - (a + k + 1)) false)].
Proof.
  revert a. induction k as [|k IH]; intros a Hk.
  - simpl. by rewrite Nat.add_0_r.
  - simpl. unfold apply_gates in *. simpl.
    rewrite !lookup_total_replicate_2 by lia. simpl.
    rewrite insert_replicate.
    rewrite (list_lookup_total_correct _ a true).
    2:{ rewrite lookup_app_l by (rewrite length_replicate; lia).
        apply lookup_replicate_2. lia. }
    rewrite (list_lookup_total_correct _ (a + 1) false).
    2:{ rewrite lookup_app_r by (rewrite length_replicate; lia).
        rewrite length_replicate. apply lookup_replicate_2. lia. }
    simpl.
    replace (<[(a + 1)%nat := true]>
               (replicate (a + 1) true ++ replicate (n - (a + 1)) false))
      with (replicate (S a + 1) true ++ replicate (n - (S a + 1)) false).
    + rewrite IH by lia.
      by replace (S a + k + 1)%nat with (a + S k + 1)%nat by lia.
    + rewrite (insert_app_r_alt _ _ (a + 1)) by (rewrite length_replicate; lia).
      rewrite length_replicate, Nat.sub_diag.
      replace (n - (a + 1))%nat with (S (n - (S a + 1))) by lia.
      simpl. replace (S (a + 1)) with (a + 1 + 1)%nat by lia.
      by rewrite app_comm_cons, replicate_cons_app, <- app_assoc.
Qed.

Lemma apply_gates_cons i gates state :
  apply_gates (i :: gates) state = apply_gates gates (state ≫= apply_gate i).
Proof. reflexivity. Qed.

Lemma ghz_gates_state (n : nat) :
  (1 ≤ n)%nat →
  apply_gates (ghz_gates n) [(1, replicate n false)] =
  [(1, replicate n false); (1, replicate n true)].
Proof.
  intros Hn. unfold ghz_gates. rewrite apply_gates_cons.
  assert ([(1, replicate n false)] ≫= apply_gate (QuantumCircuit.HGate 0) =
          [(1, replicate n false);
           (1, replicate (0 + 1) true ++ replicate (n - (0 + 1)) false)]) as ->.
  { simpl. rewrite lookup_total_replicate_2 by lia. rewrite insert_replicate.
    destruct n as [|n]; [lia|]. simpl. by rewrite Nat.sub_0_r. }
  rewrite cx_chain_state by lia.
  replace (0 + (n - 1) + 1)%nat with n by lia.
  by rewrite Nat.sub_diag, app_nil_r.
Qed.

Lemma hadamard_count_ghz (n : nat) : hadamard_count (ghz_gates n) = 1%nat.
Proof.
  unfold hadamard_count, ghz_gates.
  rewrite filter_cons_True by done. simpl. f_equal.
  induction (seq 0 (n - 1)) as [|i l IH] using rev_ind; [done|].
  rewrite map_app, filter_app, length_app, IH. reflexivity.
Qed.

(** * The claims *)

(** ** C1: the two-job scenario in ordered-list mode *)

(** C1, as stated, fails: the outcome depends on the input completion
    times, because the resolver works on the copy taken before the loop.
    With input completion times 7 for A and 8 for B no job of the copy is
    completed by time 5, B's predecessor is the dummy job, B's completion
    time is 3 and the makespan is 5. *)
Lemma ordered_scenario_fails_for_other_inputs :
  let run :=
    calculate_makespan scen_lp [0; 1]%nat scen_P scen_S (scen_heap 7 8 1 1) in
  run.1 = Ok 5 ∧ completion_time (run.2 1%nat) = 3 ∧ run.1 ≠ Ok 10.
Proof. vm_compute. repeat split; discriminate. Qed.

(** C1, amended.  With A listed before B and A's input completion time
    equal to 5, for every input completion time of B and all capacities:
    A's completion time is set to 5, B's predecessor is resolved to A
    (the record of the copy), B's completion time is set to 5 + 3 + 2 = 10
    by the rule completion_time = predecessor.completion_time +
    processing_time + setup_time, and the makespan is 10. *)
Theorem ordered_scenario cB qA qB :
  let h := scen_heap 5 cB qA qB in
  let run := calculate_makespan scen_lp [0; 1]%nat scen_P scen_S h in
  let h1 := (process_job false scen_p_times scen_s_times "M" [0; 1]%nat
               (map h [0; 1]%nat) 0%nat h).2 in
  completion_time (run.2 0%nat) = 5 ∧
  (last_completed_of false "M" [0; 1]%nat (map h [0; 1]%nat) 1%nat h1).1
  = Ok (scen_A 5 qA) ∧
  completion_time (run.2 1%nat) = 10 ∧
  run.1 = Ok 10.
Proof.
  intros h run h1.
  destruct scen_lookups as (HpA & HpB & Hs0A & Hs0B & HsAB & HsBB).
  assert (h1 = scen_heap_A 5 cB qA qB) as ->.
  { subst h1 h. pose proof (scen_step_A 5 cB qA qB) as HA. cbv zeta in HA.
    by rewrite HA. }
  pose proof (scen_pred_B 5 cB qA qB) as Hpred. cbv zeta in Hpred.
  fold h in Hpred. rewrite Hpred.
  assert (_find_last_completed "B" [scen_A 5 qA; scen_B cB qB] "M"
          = Ok (scen_A 5 qA)) as Hlc.
  { rewrite scen_resolver. rewrite decide_True by lia.
    destruct (decide (cB ≤ 5)); [|done].
    destruct (Z.ltb_spec 5 cB); [lia|done]. }
  destruct (scen_run 5 cB qA qB (scen_A 5 qA) 2 Hlc HsAB) as (H1 & H2 & H3).
  done.
Qed.

(** ** C2: tables of zeros *)

(** C2, as stated, fails in its second half: with all table entries 0 a
    job inherits its predecessor's completion time, and a predecessor
    found among the jobs carries its input completion time.  One job with
    start time 5 and input completion time 3 is its own predecessor under
    both policies; both entry points return 3, not 0. *)
Lemma zero_tables_nonzero_makespan :
  let h := heap_of_list [mkJob "J" "M" 5 3 1] in
  all_zero2b ex_P_zero = true ∧ all_zero3b ex_S_J = true ∧
  (calculate_makespan ex_lp_J [0%nat] ex_P_zero ex_S_J h).1 = Ok 3 ∧
  (calculate_bin_makespan [0%nat] ex_P_zero ex_S_J [("M"%string, 1)] h).1
  = Ok 3 ∧
  (calculate_makespan ex_lp_J [0%nat] ex_P_zero ex_S_J h).1 ≠ Ok 0 ∧
  (calculate_bin_makespan [0%nat] ex_P_zero ex_S_J [("M"%string, 1)] h).1
  ≠ Ok 0.
Proof. vm_compute. repeat split; discriminate. Qed.

(** C2, amended.  Let every entry of both arrays be 0.  (a) In tables
    built from them over job names with at least one job besides the
    dummy, under either policy and in any heap, the loop body sets the
    job's completion time to the completion time of the predecessor it
    resolved, and touches no other job.  (b) If moreover the job list is
    not empty and every listed job has input completion time 0, both
    entry points return makespan 0 (provided their tables can be built)
    and leave completion time 0 in every listed job. *)
Theorem zero_tables_inherit_predecessor
    lp_instance jobs P S accelerators (h : heap) :
  all_zero2b P = true → all_zero3b S = true →
  (∀ job_names machines s_times p_times,
     makeDict3 job_names job_names machines S = Ok s_times →
     makeDict2 (tail job_names) machines P = Ok p_times →
     tail job_names ≠ [] →
     ∀ for_bin m assigned copy job (h0 : heap) lc,
       (last_completed_of for_bin m assigned copy job h0).1 = Ok lc →
       ∃ h1, process_job for_bin p_times s_times m assigned copy job h0
             = (Ok tt, h1) ∧
             completion_time (h1 job) = completion_time lc ∧
             ∀ r, r ≠ job → h1 r = h0 r) ∧
  (jobs ≠ [] → (∀ r, r ∈ jobs → completion_time (h r) = 0) →
   ((∃ s_times, makeDict3 (LPInstance.jobs lp_instance)
                  (LPInstance.jobs lp_instance)
                  (LPInstance.machines lp_instance) S = Ok s_times) →
    (∃ p_times, makeDict2 (tail (LPInstance.jobs lp_instance))
                  (LPInstance.machines lp_instance) P = Ok p_times) →
    tail (LPInstance.jobs lp_instance) ≠ [] →
    ∃ h', calculate_makespan lp_instance jobs P S h = (Ok 0, h') ∧
          ∀ r, r ∈ jobs → completion_time (h' r) = 0) ∧
   let job_names := "0"%string :: map (fun r => name (h r)) jobs in
   ((∃ s_times, makeDict3 job_names job_names (map fst accelerators) S
                = Ok s_times) →
    (∃ p_times, makeDict2 (tail job_names) (map fst accelerators) P
                = Ok p_times) →
    ∃ h', calculate_bin_makespan jobs P S accelerators h = (Ok 0, h') ∧
          ∀ r, r ∈ jobs → completion_time (h' r) = 0)).
Proof.
  intros HP HS. split.
  - intros job_names machines s_times p_times Hs Hp Hne.
    assert (job_names ≠ []) as Hne0 by (intros ->; done).
    intros for_bin m assigned copy job h0 lc Hlc.
    rewrite process_job_eq. apply step_zero; [| |exact Hlc].
    + intros a. eapply p_lookup_zero; [done..|]. by apply all_zero2b_spec.
    + intros a b. eapply s_lookup_zero; [done..|]. by apply all_zero3b_spec.
  - intros Hjobs Hzero. split.
    + intros Hs Hp Hne. unfold calculate_makespan.
      by apply calc_makespan_zero.
    + intros job_names Hs Hp. unfold calculate_bin_makespan.
      apply calc_makespan_zero; try done.
      simpl. by destruct jobs.
Qed.

Lemma zero_tables_inherit_predecessor_witness :
  let h := heap_of_list [mkJob "J" "M" 5 0 1] in
  all_zero2b ex_P_zero = true ∧ all_zero3b ex_S_J = true ∧
  ∃ h', calculate_bin_makespan [0%nat] ex_P_zero ex_S_J [("M"%string, 1)] h
        = (Ok 0, h') ∧
        ∀ r, r ∈ [0%nat] → completion_time (h' r) = 0.
Proof.
  split; [reflexivity|]. split; [reflexivity|].
  destruct (zero_tables_inherit_predecessor ex_lp_J [0%nat] ex_P_zero ex_S_J
              [("M"%string, 1)] (heap_of_list [mkJob "J" "M" 5 0 1])
              eq_refl eq_refl) as [_ Hb].
  destruct Hb as [_ Hbin].
  - discriminate.
  - intros r Hr. apply list_elem_of_singleton in Hr. rewrite Hr. reflexivity.
  - apply Hbin.
    + eexists. vm_compute. reflexivity.
    + eexists. vm_compute. reflexivity.
Defined.

(** ** C3: the predecessor in dynamic-bin mode *)

(** Three jobs on one machine in dynamic-bin mode, processing times 1, 2
    and 3: C (start time 0) starts from the dummy job and completes at 3;
    B then follows the live maximum A (input completion time 9) and
    completes at 11; A follows B and completes at 12. *)
Example bin_three_jobs :
  let run :=
    calculate_bin_makespan [0; 1; 2]%nat [[1]; [2]; [3]] ex_S_ABC
      [("M"%string, 1)] (heap_of_list ex_three_jobs) in
  run.1 = Ok 12 ∧
  map (fun r => completion_time (run.2 r)) [0; 1; 2]%nat = [12; 11; 3].
Proof. vm_compute. by split. Qed.

(** C3.  In a run of [calculate_bin_makespan] over distinct job objects
    that returns, take a listed job [r] and the jobs of its machine, in
    list order.  The loop of the machine goes through them sorted by the
    start times they had on entry; when the turn of [r] comes, the jobs
    before it hold the records the run leaves them with and the others
    the records they had on entry: this is the live state [live].  The
    predecessor [lc] resolved for [r] is the dummy job when the start
    time of [r] is 0; otherwise it is the first job with the largest
    completion time among the machine's jobs as they are in [live].  The
    start time [r] ends with is the predecessor's completion time, and
    its completion time is the predecessor's plus the two table
    entries. *)
Theorem bin_predecessor_is_live_maximum jobs P S accelerators h v h' r :
  calculate_bin_makespan jobs P S accelerators h = (Ok v, h') →
  NoDup jobs → r ∈ jobs →
  ∃ before after (live : heap) lc p_times s_times p s,
    py_sorted (fun x => start_time (h x)) (jobs_on h jobs (machine (h r)))
    = before ++ r :: after ∧
    (∀ x, x ∈ before → live x = h' x) ∧
    (∀ x, x ∉ before → live x = h x) ∧
    (start_time (h r) = 0 → lc = dummy_job (machine (h r))) ∧
    (start_time (h r) ≠ 0 →
       ∃ (i : nat) r', jobs_on h jobs (machine (h r)) !! i = Some r' ∧
         lc = live r' ∧
         (∀ x, x ∈ jobs_on h jobs (machine (h r)) →
               completion_time (live x) ≤ completion_time lc) ∧
         (∀ (i' : nat) x, (i' < i)%nat →
               jobs_on h jobs (machine (h r)) !! i' = Some x →
               completion_time (live x) < completion_time lc)) ∧
    start_time (h' r) = completion_time lc ∧
    makeDict3 ("0"%string :: map (fun x => name (h x)) jobs)
      ("0"%string :: map (fun x => name (h x)) jobs) (map fst accelerators) S
    = Ok s_times ∧
    makeDict2 (map (fun x => name (h x)) jobs) (map fst accelerators) P
    = Ok p_times ∧
    p_lookup p_times (name (h r)) (machine (h r)) = Ok p ∧
    s_lookup s_times (name lc) (name (h r)) (machine (h r)) = Ok s ∧
    completion_time (h' r) = completion_time lc + p + s.
Proof.
  unfold calculate_bin_makespan. intros Hrun Hnd Hr.
  destruct (calc_makespan_Ok_inv _ _ _ _ _ _ _ _ _ Hrun)
    as (s_times & p_times & _ & _ & Hs & Hp & _).
  destruct (calc_makespan_moment _ _ _ _ _ _ _ _ _ r s_times p_times
              Hrun Hnd Hr Hs Hp)
    as (before & after & live & lc & p & s
        & Horder & Hbefore & Hout & Hlc & Hpl & Hsl & Hfin).
  assert (r ∉ before) as Hrb.
  { assert (NoDup (before ++ r :: after)) as Hndo.
    { rewrite <- Horder, py_sorted_perm. by apply NoDup_filter. }
    apply NoDup_app in Hndo as (_ & Hdisj & _).
    intros Hin. apply (Hdisj r Hin), list_elem_of_here. }
  destruct (predecessor_bin_first_max _ _ _ _ _ _ Hlc) as [Hzero Hmax].
  rewrite (Hout r Hrb) in Hzero, Hmax.
  exists before, after, live, lc, p_times, s_times, p, s.
  split; [done|]. split; [done|]. split; [done|]. split; [done|].
  split; [done|]. split; [by rewrite Hfin|].
  split; [done|]. split; [done|]. split; [done|]. split; [done|].
  by rewrite Hfin.
Qed.

Lemma bin_predecessor_is_live_maximum_witness :
  let h := heap_of_list ex_three_jobs in
  let h' :=
    (calculate_bin_makespan [0; 1; 2]%nat [[1]; [2]; [3]] ex_S_ABC
       [("M"%string, 1)] h).2 in
  ∃ before after (live : heap) lc p_times s_times p s,
    py_sorted (fun x => start_time (h x))
      (jobs_on h [0; 1; 2]%nat (machine (h 1%nat)))
    = before ++ 1%nat :: after ∧
    (∀ x, x ∈ before → live x = h' x) ∧
    (∀ x, x ∉ before → live x = h x) ∧
    (start_time (h 1%nat) = 0 → lc = dummy_job (machine (h 1%nat))) ∧
    (start_time (h 1%nat) ≠ 0 →
       ∃ (i : nat) r', jobs_on h [0; 1; 2]%nat (machine (h 1%nat)) !! i = Some r' ∧
         lc = live r' ∧
         (∀ x, x ∈ jobs_on h [0; 1; 2]%nat (machine (h 1%nat)) →
               completion_time (live x) ≤ completion_time lc) ∧
         (∀ (i' : nat) x, (i' < i)%nat →
               jobs_on h [0; 1; 2]%nat (machine (h 1%nat)) !! i' = Some x →
               completion_time (live x) < completion_time lc)) ∧
    start_time (h' 1%nat) = completion_time lc ∧
    makeDict3 ("0"%string :: map (fun x => name (h x)) [0; 1; 2]%nat)
      ("0"%string :: map (fun x => name (h x)) [0; 1; 2]%nat)
      (map fst [("M"%string, 1)]) ex_S_ABC
    = Ok s_times ∧
    makeDict2 (map (fun x => name (h x)) [0; 1; 2]%nat)
      (map fst [("M"%string, 1)]) [[1]; [2]; [3]]
    = Ok p_times ∧
    p_lookup p_times (name (h 1%nat)) (machine (h 1%nat)) = Ok p ∧
    s_lookup s_times (name lc) (name (h 1%nat)) (machine (h 1%nat)) = Ok s ∧
    completion_time (h' 1%nat) = completion_time lc + p + s.
Proof.
  intros h h'.
  apply (bin_predecessor_is_live_maximum [0; 1; 2]%nat [[1]; [2]; [3]] ex_S_ABC
           [("M"%string, 1)] h 12 h' 1%nat).
  - vm_compute. reflexivity.
  - apply (bool_decide_unpack _). vm_compute. exact I.
  - apply list_elem_of_further, list_elem_of_here.
Defined.

(** ** C4: the two policies on one job per machine *)

(** C4, as stated, fails.  One job alone on its machine with start time 1
    and input completion time 4, processing time 3: the ordered-list
    policy finds no job completed by time 1 and starts from the dummy job
    (makespan 3); the dynamic-bin policy takes the live maximum, which is
    the job itself with its input completion time (makespan 4 + 3 = 7). *)
Lemma policies_disagree_on_single_job :
  let h := heap_of_list [mkJob "J" "M" 1 4 1] in
  (calculate_makespan ex_lp_J [0%nat] [[3]] ex_S_J h).1 = Ok 3 ∧
  (calculate_bin_makespan [0%nat] [[3]] ex_S_J [("M"%string, 1)] h).1 = Ok 7 ∧
  (calculate_makespan ex_lp_J [0%nat] [[3]] ex_S_J h).1 ≠
  (calculate_bin_makespan [0%nat] [[3]] ex_S_J [("M"%string, 1)] h).1.
Proof. vm_compute. repeat split; discriminate. Qed.

(** C4, amended.  When every machine holds exactly one job and every job
    has start time 0 or an input completion time not after its start
    time, the two entry points, given the same jobs, tables, job names
    and machines, return the same makespan (or raise the same
    exception). *)
Theorem policies_agree_on_single_job_machines
    lp_instance jobs P S accelerators (h : heap) :
  NoDup (map (fun r => machine (h r)) jobs) →
  (∀ r, r ∈ jobs →
        start_time (h r) = 0 ∨ completion_time (h r) ≤ start_time (h r)) →
  LPInstance.jobs lp_instance = "0"%string :: map (fun r => name (h r)) jobs →
  LPInstance.machines lp_instance = map fst accelerators →
  (calculate_makespan lp_instance jobs P S h).1 =
  (calculate_bin_makespan jobs P S accelerators h).1.
Proof.
  intros Hnd Hcond Hjobs Hmachines.
  unfold calculate_makespan, calculate_bin_makespan.
  rewrite Hjobs, Hmachines, !_calc_makespan_eq, !makespans_of_eq.
  destruct (makeDict3 _ _ _ S) as [s|e]; [|done].
  destruct (makeDict2 _ _ P) as [p|e]; [|done].
  pose proof (propagate_single_agree p s jobs h Hnd Hcond) as H.
  destruct (propagate false p s jobs h) as [[ms1|e1] h1],
           (propagate true p s jobs h) as [[ms2|e2] h2]; simpl in *;
    congruence.
Qed.

Lemma policies_agree_on_single_job_machines_witness :
  let h := heap_of_list [mkJob "J" "M" 4 1 1] in
  (calculate_makespan ex_lp_J [0%nat] [[3]] ex_S_J h).1 =
  (calculate_bin_makespan [0%nat] [[3]] ex_S_J [("M"%string, 1)] h).1.
Proof.
  apply (policies_agree_on_single_job_machines ex_lp_J [0%nat] [[3]] ex_S_J
           [("M"%string, 1)] (heap_of_list [mkJob "J" "M" 4 1 1])).
  - simpl. apply NoDup_singleton.
  - intros r Hr. apply list_elem_of_singleton in Hr. rewrite Hr.
    right. simpl. lia.
  - reflexivity.
  - reflexivity.
Defined.

(** ** C5: reordering the job list in ordered-list mode *)

(** C5, as stated, fails when two jobs of a machine have the same input
    completion time: [max] keeps the first of them in list order, and the
    setup time depends on which one it is.  A and B both complete at 5, C
    starts at 5; setup time 1 from A to C and 2 from B to C.  Listing A
    first gives makespan 7, listing B first gives 8. *)
Lemma reordering_changes_makespan_on_ties :
  [0; 1; 2]%nat ≡ₚ [1; 0; 2]%nat ∧
  (calculate_makespan ex_lp_ABC [0; 1; 2]%nat ex_P_ABC ex_S_ABC ex_heap_ABC).1
  = Ok 7 ∧
  (calculate_makespan ex_lp_ABC [1; 0; 2]%nat ex_P_ABC ex_S_ABC ex_heap_ABC).1
  = Ok 8 ∧
  (calculate_makespan ex_lp_ABC [0; 1; 2]%nat ex_P_ABC ex_S_ABC ex_heap_ABC).1
  ≠
  (calculate_makespan ex_lp_ABC [1; 0; 2]%nat ex_P_ABC ex_S_ABC ex_heap_ABC).1.
Proof.
  split; [apply Permutation_swap|]. vm_compute. repeat split; discriminate.
Qed.

(** C5, amended.  In ordered-list mode, for two job lists that are
    permutations of each other (the same, pairwise distinct job objects,
    so the same field values), when no two jobs of one machine share a
    name or an input completion time, [calculate_makespan] returns the
    same makespan (or raises the same exception) for both lists.  The
    jobs of a machine are processed by ascending start time, whatever
    their order in the list. *)
Theorem reordering_keeps_makespan lp_instance jobs jobs' P S (h : heap) :
  jobs ≡ₚ jobs' → NoDup jobs →
  (∀ r1 r2, r1 ∈ jobs → r2 ∈ jobs → machine (h r1) = machine (h r2) →
            name (h r1) = name (h r2) → r1 = r2) →
  (∀ r1 r2, r1 ∈ jobs → r2 ∈ jobs → machine (h r1) = machine (h r2) →
            completion_time (h r1) = completion_time (h r2) → r1 = r2) →
  (calculate_makespan lp_instance jobs P S h).1 =
  (calculate_makespan lp_instance jobs' P S h).1 ∧
  ∀ assigned_jobs, ∃ order,
    sorted_by_start_time assigned_jobs h = (Ok order, h) ∧
    order ≡ₚ assigned_jobs ∧
    StronglySorted (fun r1 r2 => start_time (h r1) ≤ start_time (h r2)) order.
Proof.
  intros Hp Hnd Hnames Hcs. split.
  - unfold calculate_makespan.
    rewrite !calc_makespan_decompose.
    destruct (makeDict3 _ _ _ S) as [s|e]; [|done].
    destruct (makeDict2 _ _ P) as [p|e]; [|done].
    by apply propagate_ordered_perm.
  - intros assigned_jobs. eexists. split; [reflexivity|]. split.
    + apply py_sorted_perm.
    + apply (py_sorted_sorted (fun r => start_time (h r))).
Qed.

Lemma reordering_keeps_makespan_witness :
  (calculate_makespan scen_lp [0; 1]%nat scen_P scen_S (scen_heap 5 8 1 1)).1 =
  (calculate_makespan scen_lp [1; 0]%nat scen_P scen_S (scen_heap 5 8 1 1)).1 ∧
  ∀ assigned_jobs, ∃ order,
    sorted_by_start_time assigned_jobs (scen_heap 5 8 1 1) =
    (Ok order, scen_heap 5 8 1 1) ∧
    order ≡ₚ assigned_jobs ∧
    StronglySorted
      (fun r1 r2 => start_time (scen_heap 5 8 1 1 r1) ≤
                    start_time (scen_heap 5 8 1 1 r2)) order.
Proof.
  apply (reordering_keeps_makespan scen_lp [0; 1]%nat [1; 0]%nat scen_P scen_S
           (scen_heap 5 8 1 1)).
  - apply Permutation_swap.
  - apply NoDup_cons. split.
    + intros H. apply list_elem_of_singleton in H. discriminate.
    + apply NoDup_singleton.
  - intros r1 r2 H1 H2 _ Heq.
    apply elem_of_cons in H1 as [H1|H1];
      [|apply list_elem_of_singleton in H1];
      (apply elem_of_cons in H2 as [H2|H2];
       [|apply list_elem_of_singleton in H2]);
      rewrite H1, H2 in *; try reflexivity; discriminate.
  - intros r1 r2 H1 H2 _ Heq.
    apply elem_of_cons in H1 as [H1|H1];
      [|apply list_elem_of_singleton in H1];
      (apply elem_of_cons in H2 as [H2|H2];
       [|apply list_elem_of_singleton in H2]);
      rewrite H1, H2 in *; try reflexivity; discriminate.
Defined.

(** ** C6: calling twice *)

(** C6, as stated, fails: the call overwrites [start_time] and
    [completion_time] of the entries it is given, so a second call on the
    same entries starts from other values.  One job with start time 5 and
    completion time 3, processing time 4: the first call returns 7, the
    second 4. *)
Lemma second_call_differs :
  let h0 := heap_of_list [mkJob "J" "M" 5 3 1] in
  let first := calculate_makespan ex_lp_J [0%nat] [[4]] ex_S_J h0 in
  let second := calculate_makespan ex_lp_J [0%nat] [[4]] ex_S_J first.2 in
  first.1 = Ok 7 ∧ second.1 = Ok 4 ∧ second.1 ≠ first.1.
Proof. vm_compute. repeat split; discriminate. Qed.

(** C6, amended.  The outcome of [calculate_makespan] is a function of
    the field values of the listed entries and of the tables: on two heaps
    whose listed entries hold the same field values, with the same tables,
    the call returns the same makespan (or raises the same exception) and
    leaves the same field values in the listed entries. *)
Theorem calculate_makespan_same_fields_same_output
    lp_instance jobs P S (h1 h2 : heap) :
  (∀ r, r ∈ jobs → h1 r = h2 r) →
  (calculate_makespan lp_instance jobs P S h1).1 =
  (calculate_makespan lp_instance jobs P S h2).1 ∧
  ∀ r, r ∈ jobs →
       (calculate_makespan lp_instance jobs P S h1).2 r =
       (calculate_makespan lp_instance jobs P S h2).2 r.
Proof.
  intros Hag. unfold calculate_makespan.
  rewrite !_calc_makespan_eq, !makespans_of_eq.
  destruct (makeDict3 _ _ _ S) as [s|e]; [|by split; [|apply Hag]].
  destruct (makeDict2 _ _ P) as [p|e]; [|by split; [|apply Hag]].
  pose proof (propagate_local false p s jobs h1 h2 Hag) as H.
  unfold outcome_rel in H.
  destruct (propagate false p s jobs h1) as [[ms1|e1] h1'],
           (propagate false p s jobs h2) as [[ms2|e2] h2']; simpl in *;
    try done.
  - destruct H as [-> H]. by split.
  - destruct H as [-> H]. by split.
Qed.

Lemma calculate_makespan_same_fields_same_output_witness :
  let h1 := heap_of_list [mkJob "J" "M" 5 3 1] in
  let h2 := heap_of_list [mkJob "J" "M" 5 3 1; mkJob "K" "M" 1 2 1] in
  (calculate_makespan ex_lp_J [0%nat] [[4]] ex_S_J h1).1 =
  (calculate_makespan ex_lp_J [0%nat] [[4]] ex_S_J h2).1 ∧
  ∀ r, r ∈ [0%nat] →
       (calculate_makespan ex_lp_J [0%nat] [[4]] ex_S_J h1).2 r =
       (calculate_makespan ex_lp_J [0%nat] [[4]] ex_S_J h2).2 r.
Proof.
  apply (calculate_makespan_same_fields_same_output ex_lp_J [0%nat] [[4]] ex_S_J
           (heap_of_list [mkJob "J" "M" 5 3 1])
           (heap_of_list [mkJob "J" "M" 5 3 1; mkJob "K" "M" 1 2 1])).
  intros r Hr. apply list_elem_of_singleton in Hr. rewrite Hr. reflexivity.
Defined.

(** ** C7: the resolver's error *)

(** C7.  [_find_last_completed] raises exactly when no job of the list it
    is handed carries the queried name, and what it raises is its
    [ValueError].  The error is not caught: the loop body that called the
    resolver ends with it before writing anything, the loop over the
    machine's jobs ends with it, the loop over the machines ends with
    whatever a machine raised, and [_calc_makespan] ends with it too, so
    no makespan is returned. *)
Theorem find_last_completed_not_found :
  (∀ job_name jobs m,
     (∃ e, _find_last_completed job_name jobs m = Raise e) ↔
     job_name ∉ map name jobs) ∧
  (∀ job_name jobs m e,
     _find_last_completed job_name jobs m = Raise e →
     e = ValueError_not_found job_name) ∧
  (∀ p s m assigned copy done job rest h h1 e,
     for_each (process_job false p s m assigned copy) done h = (Ok tt, h1) →
     _find_last_completed (name (h1 job)) copy m = Raise e →
     process_job false p s m assigned copy job h1 = (Raise e, h1) ∧
     for_each (process_job false p s m assigned copy) (done ++ job :: rest) h
     = (Raise e, h1)) ∧
  (∀ for_bin p s done g rest h bs h1 h2 e,
     for_collect (process_machine for_bin p s) done h = (Ok bs, h1) →
     process_machine for_bin p s g h1 = (Raise e, h2) →
     for_collect (process_machine for_bin p s) (done ++ g :: rest) h
     = (Raise e, h2)) ∧
  (∀ jobs P S job_names machines for_bin h h' e,
     makespans_of jobs P S job_names machines for_bin h = (Raise e, h') →
     _calc_makespan jobs P S job_names machines for_bin h = (Raise e, h')).
Proof.
  split; [|split; [|split; [|split]]].
  - intros job_name jobs m. split.
    + intros [e He]. by apply find_last_completed_Raise in He as [_ ?].
    + intros Hnot.
      destruct (_find_last_completed job_name jobs m) as [lc|e] eqn:H;
        [|by exists e].
      exfalso. unfold _find_last_completed in H.
      destruct (original_starttime_of job_name jobs) as [v|e] eqn:Hv; [|done].
      apply original_starttime_of_Ok in Hv as (j & Hj & Hn & _).
      apply Hnot. rewrite <- Hn. by apply (list_elem_of_fmap_2 name).
  - intros job_name jobs m e He. by apply find_last_completed_Raise in He as [? _].
  - intros p s m assigned copy done job rest h h1 e Hdone He.
    assert (process_job false p s m assigned copy job h1 = (Raise e, h1)) as Hjob.
    { rewrite process_job_eq. unfold step. by rewrite predecessor_ordered, He. }
    split; [done|]. by eapply for_each_raise.
  - intros for_bin p s done g rest h bs h1 h2 e Hdone Hg.
    by eapply for_collect_raise.
  - intros jobs P S job_names machines for_bin h h' e H.
    by rewrite _calc_makespan_eq, H.
Qed.

(** ** C8: keys missing from the time tables *)

(** C8, as stated, fails when the job names hold the dummy's name only:
    the processing-time table is then built over no job name, the
    default of its outer level is never bound, and the lookup for a job
    and a machine, a pair that is absent from the table, raises
    [NameError] instead of giving 0.  [calculate_makespan] on one job
    with such an instance ends with this [NameError]. *)
Lemma lookup_raises_without_job_names :
  (∃ p_times,
     makeDict2 (tail ["0"%string]) ["M"%string] [] = Ok p_times ∧
     ("J"%string ∉ tail ["0"%string]) ∧
     p_lookup p_times "J" "M" = Raise NameError ∧
     p_lookup p_times "J" "M" ≠ Ok 0) ∧
  (calculate_makespan (LPInstance.mk ["0"%string] ["M"%string]) [0%nat] []
     [[[0]]] (heap_of_list [mkJob "J" "M" 0 0 1])).1 = Raise NameError.
Proof.
  split; [|vm_compute; reflexivity].
  eexists. split; [vm_compute; reflexivity|].
  split; [apply not_elem_of_nil|]. split; [reflexivity|discriminate].
Qed.

(** C8, amended.  In the tables that [_calc_makespan] builds with
    [pulp.makeDict(..., 0)] over job names that include at least one job
    besides the dummy, a processing-time lookup whose job or machine is
    not a key, and a setup-time lookup whose predecessor, successor or
    machine is not a key, evaluate to 0 and do not raise.  In particular
    the loop body for a job on a machine unknown to the tables does not
    fail: both tables contribute 0 to the completion time it writes. *)
Theorem lookup_default_zero job_names machines P S p_times s_times :
  makeDict3 job_names job_names machines S = Ok s_times →
  makeDict2 (tail job_names) machines P = Ok p_times →
  tail job_names ≠ [] →
  (∀ job m, job ∉ tail job_names ∨ m ∉ machines →
            p_lookup p_times job m = Ok 0) ∧
  (∀ last job m, last ∉ job_names ∨ job ∉ job_names ∨ m ∉ machines →
                 s_lookup s_times last job m = Ok 0) ∧
  (∀ for_bin m assigned copy job h lc,
     m ∉ machines →
     (last_completed_of for_bin m assigned copy job h).1 = Ok lc →
     ∃ h', process_job for_bin p_times s_times m assigned copy job h
           = (Ok tt, h') ∧
           completion_time (h' job) = completion_time lc + 0 + 0).
Proof.
  intros Hs Hp Hne.
  assert (job_names ≠ []) as Hne0 by (intros ->; done).
  split; [|split].
  - intros job m Habs. by eapply p_lookup_absent.
  - intros last job m Habs. by eapply s_lookup_absent.
  - intros for_bin m assigned copy job h lc Hm Hlc.
    rewrite process_job_eq. unfold step.
    fold (predecessor for_bin m assigned copy job h) in Hlc. rewrite Hlc.
    rewrite (p_lookup_absent _ _ _ _ _ m Hp Hne) by (by right).
    rewrite (s_lookup_absent _ _ _ _ _ _ _ m Hs Hne0 Hne0) by (by right; right).
    eexists. split; [done|]. by rewrite upd_same.
Qed.

Lemma lookup_default_zero_witness :
  ∃ p_times s_times,
    makeDict3 ex_job_names ex_job_names ex_machines ex_S1 = Ok s_times ∧
    makeDict2 (tail ex_job_names) ex_machines [[5; 0]; [0; 3]] = Ok p_times ∧
    tail ex_job_names ≠ [] ∧
    (∀ job m, job ∉ tail ex_job_names ∨ m ∉ ex_machines →
              p_lookup p_times job m = Ok 0) ∧
    (∀ last job m, last ∉ ex_job_names ∨ job ∉ ex_job_names ∨ m ∉ ex_machines →
                   s_lookup s_times last job m = Ok 0) ∧
    (∀ for_bin m assigned copy job h lc,
       m ∉ ex_machines →
       (last_completed_of for_bin m assigned copy job h).1 = Ok lc →
       ∃ h', process_job for_bin p_times s_times m assigned copy job h
             = (Ok tt, h') ∧
             completion_time (h' job) = completion_time lc + 0 + 0).
Proof.
  eexists _, _. split; [vm_compute; reflexivity|].
  split; [vm_compute; reflexivity|].
  split; [discriminate|].
  apply (lookup_default_zero ex_job_names ex_machines [[5; 0]; [0; 3]] ex_S1);
    [vm_compute; reflexivity..|discriminate].
Defined.

(** ** C9: machines do not influence each other *)

(** C9.  Take two runs of the propagator (either policy) on the same
    jobs, job names and machine names, whose processing-time and
    setup-time arrays have the same shape and differ only in the entries
    of machine [M2].  Then every job record of any other machine is the
    same after the two runs, in particular its completion time; both runs
    finish or both raise the same exception; and when they finish, the
    finish time appended to [makespans] for every machine other than [M2]
    is the same. *)
Theorem cross_machine_independence
    for_bin jobs job_names machines P P' S S' M2 h groups :
  ptimes_agree_off M2 machines P P' = true →
  stimes_agree_off M2 machines S S' = true →
  (assign_machines jobs h).1 = Ok groups →
  let run1 := makespans_of jobs P S job_names machines for_bin h in
  let run2 := makespans_of jobs P' S' job_names machines for_bin h in
  (∀ r, machine (h r) ≠ M2 → run1.2 r = run2.2 r) ∧
  match run1.1, run2.1 with
  | Ok ms1, Ok ms2 => Forall3 (fun g v1 v2 => g.1 ≠ M2 → v1 = v2) groups ms1 ms2
  | Raise e1, Raise e2 => e1 = e2
  | _, _ => False
  end.
Proof.
  intros HP HS Hgroups run1 run2. subst run1 run2.
  destruct (tables_agree_off M2 job_names machines P P' S S' HP HS) as [Hs Hp].
  rewrite !makespans_of_eq.
  destruct Hs as [s s' (Hsagree & Hsstatus & Hsnil)|e]; [|by split].
  destruct Hp as [p p' (Hpagree & Hpstatus)|e]; [|by split].
  destruct (propagate_eq for_bin p s jobs h) as (keys & Hnd & Hkeys & Hg & ->).
  destruct (propagate_eq for_bin p' s' jobs h)
    as (keys' & Hnd' & Hkeys' & Hg' & ->).
  assert (groups_of h jobs keys' = groups_of h jobs keys) as -> by congruence.
  assert (groups = groups_of h jobs keys) as -> by congruence.
  assert (∀ m, m ∈ keys → ∃ r, r ∈ jobs ∧ machine (h r) = m) as Hk
    by (intros m; apply Hkeys).
  pose proof (propagate_independent M2 for_bin p p' s s' Hpagree Hsagree) as H.
  specialize (H ltac:(tauto) jobs h keys Hk).
  unfold outcome_rel in H.
  destruct (for_collect _ _ h) as [[ms1|e1] h1],
           (for_collect (fun g => machine_run for_bin p' s' g.1 g.2) _ h)
           as [[ms2|e2] h2]; simpl in *; tauto.
Qed.

Lemma cross_machine_independence_witness :
  let h := heap_of_list ex_two_machines in
  let run1 :=
    makespans_of [0; 1]%nat [[5; 0]; [0; 3]] ex_S0 ex_job_names ex_machines
      false h in
  let run2 :=
    makespans_of [0; 1]%nat [[5; 7]; [0; 9]] ex_S1 ex_job_names ex_machines
      false h in
  (∀ r, machine (h r) ≠ "M2"%string → run1.2 r = run2.2 r) ∧
  match run1.1, run2.1 with
  | Ok ms1, Ok ms2 =>
      Forall3 (fun g v1 v2 => g.1 ≠ "M2"%string → v1 = v2)
        [("M1"%string, [0%nat]); ("M2"%string, [1%nat])] ms1 ms2
  | Raise e1, Raise e2 => e1 = e2
  | _, _ => False
  end.
Proof.
  apply (cross_machine_independence false [0; 1]%nat ex_job_names ex_machines
           [[5; 0]; [0; 3]] [[5; 7]; [0; 9]] ex_S0 ex_S1 "M2"
           (heap_of_list ex_two_machines)
           [("M1"%string, [0%nat]); ("M2"%string, [1%nat])]);
    reflexivity.
Defined.

(** ** C10: an empty job list *)

(** C10.  With an empty job list neither entry point returns a makespan:
    once the two tables are built, no machine is visited, [makespans] is
    empty and [max(makespans)] raises; when a table cannot be built (an
    array shorter than its header list) the call has already raised
    [IndexError].  The heap is untouched. *)
Theorem empty_job_list_raises lp_instance P S accelerators h :
  calculate_makespan lp_instance [] P S h =
    (Raise
       match makeDict3 (LPInstance.jobs lp_instance)
               (LPInstance.jobs lp_instance)
               (LPInstance.machines lp_instance) S,
             makeDict2 (tail (LPInstance.jobs lp_instance))
               (LPInstance.machines lp_instance) P with
       | Ok _, Ok _ => ValueError_max_empty
       | _, _ => IndexError
       end, h) ∧
  calculate_bin_makespan [] P S accelerators h =
    (Raise
       match makeDict3 ["0"%string] ["0"%string] (map fst accelerators) S,
             makeDict2 [] (map fst accelerators) P with
       | Ok _, Ok _ => ValueError_max_empty
       | _, _ => IndexError
       end, h).
Proof.
  split.
  - unfold calculate_makespan. rewrite _calc_makespan_eq, makespans_of_eq.
    destruct (makeDict3 _ _ _ S) as [s|e] eqn:Hs.
    + destruct (makeDict2 _ _ P) as [p|e] eqn:Hp; [done|].
      by apply makeDict2_Raise in Hp as ->.
    + by apply makeDict3_Raise in Hs as ->.
  - unfold calculate_bin_makespan. simpl map.
    rewrite _calc_makespan_eq, makespans_of_eq. simpl tail.
    destruct (makeDict3 _ _ _ S) as [s|e] eqn:Hs.
    + destruct (makeDict2 _ _ P) as [p|e] eqn:Hp; [done|].
      by apply makeDict2_Raise in Hp as ->.
    + by apply makeDict3_Raise in Hs as ->.
Qed.

(** * Further properties of the makespan code *)

Ltac elem_cases H :=
  repeat (apply elem_of_cons in H as [->|H]);
  try (by apply elem_of_nil in H).

Ltac nodup_by_computation :=
  apply (bool_decide_unpack _); vm_compute; exact I.

(** ** The resolver *)

Lemma original_starttime_of_first job_name jobs v :
  original_starttime_of job_name jobs = Ok v →
  ∃ (i : nat) j0, jobs !! i = Some j0 ∧ name j0 = job_name ∧ start_time j0 = v ∧
    ∀ (i' : nat) j', (i' < i)%nat → jobs !! i' = Some j' → name j' ≠ job_name.
Proof.
  induction jobs as [|j jobs IH]; simpl; [done|].
  destruct (String.eqb_spec (name j) job_name) as [Heq|Hne].
  - intros [= <-]. exists 0%nat, j. repeat split; try done. intros; lia.
  - intros H. destruct (IH H) as (i & j0 & Hi & Hn & Hv & Hfirst).
    exists (S i), j0. repeat split; try done.
    intros [|i'] j' Hlt Hj'; simpl in Hj'.
    + by injection Hj' as <-.
    + apply (Hfirst i'); [lia|done].
Qed.

(** X1.  When some job of the list carries the queried name,
    [_find_last_completed] returns: with [j0] the first job of that name,
    it gives the dummy job of the machine if every job of the list
    completes after [j0] starts, and otherwise a job of the list that
    completes no later than [j0] starts and no earlier than any other
    such job. *)
Theorem find_last_completed_latest_before job_name jobs m :
  job_name ∈ map name jobs →
  ∃ (i : nat) j0 lc,
    jobs !! i = Some j0 ∧ name j0 = job_name ∧
    (∀ (i' : nat) j', (i' < i)%nat → jobs !! i' = Some j' → name j' ≠ job_name) ∧
    _find_last_completed job_name jobs m = Ok lc ∧
    ((lc = dummy_job m ∧
      ∀ j, j ∈ jobs → start_time j0 < completion_time j) ∨
     (lc ∈ jobs ∧ completion_time lc ≤ start_time j0 ∧
      ∀ j, j ∈ jobs → completion_time j ≤ start_time j0 →
           completion_time j ≤ completion_time lc)).
Proof.
  intros Hin. destruct (original_starttime_of_elem _ _ Hin) as [v Hv].
  destruct (original_starttime_of_first _ _ _ Hv)
    as (i & j0 & Hi & Hn & <- & Hfirst).
  destruct (find_last_completed_after_start job_name jobs m _ Hv)
    as (lc & Hlc & Hcase).
  exists i, j0, lc. repeat split; try done.
  destruct Hcase as [[Hnil ->]|Hmax].
  - left. split; [done|]. intros j Hj.
    destruct (decide (completion_time j ≤ start_time j0)) as [Hle|]; [|lia].
    assert (j ∈ filter (fun j => completion_time j ≤ start_time j0) jobs) as Hf
      by (by apply list_elem_of_filter).
    rewrite Hnil in Hf. by apply elem_of_nil in Hf.
  - right. pose proof (py_max_elem _ _ _ Hmax) as Hel.
    apply list_elem_of_filter in Hel as [Hle Hel]. repeat split; try done.
    intros j Hj Hjle. apply (py_max_ge _ _ _ j Hmax).
    by apply list_elem_of_filter.
Qed.

Lemma find_last_completed_latest_before_witness :
  ∃ (i : nat) j0 lc,
    demo_jobs !! i = Some j0 ∧ name j0 = "B"%string ∧
    (∀ (i' : nat) j', (i' < i)%nat → demo_jobs !! i' = Some j' →
                      name j' ≠ "B"%string) ∧
    _find_last_completed "B" demo_jobs "M1" = Ok lc ∧
    ((lc = dummy_job "M1" ∧
      ∀ j, j ∈ demo_jobs → start_time j0 < completion_time j) ∨
     (lc ∈ demo_jobs ∧ completion_time lc ≤ start_time j0 ∧
      ∀ j, j ∈ demo_jobs → completion_time j ≤ start_time j0 →
           completion_time j ≤ completion_time lc)).
Proof.
  apply (find_last_completed_latest_before "B" demo_jobs "M1").
  simpl. apply list_elem_of_further, list_elem_of_here.
Defined.

(** ** What a run leaves alone *)

(** X2.  Whatever its outcome, [_calc_makespan] changes nothing but the
    start and completion times of the listed jobs: every object keeps its
    name, machine and capacity, and an object that is not in the job list
    is left as it was. *)
Theorem calc_makespan_touches_only_times jobs P S job_names machines for_bin
    h r :
  let h' := (_calc_makespan jobs P S job_names machines for_bin h).2 in
  name (h' r) = name (h r) ∧ machine (h' r) = machine (h r) ∧
  capacity (h' r) = capacity (h r) ∧
  (r ∉ jobs → h' r = h r).
Proof.
  intros h'. subst h'.
  destruct (calc_makespan_frame jobs P S job_names machines for_bin h r)
    as [(Hn & Hm & Hc) Hfr].
  done.
Qed.

(** ** The value returned *)

(** X3.  The value [_calc_makespan] returns is the largest completion
    time the listed jobs end with: it is the final completion time of
    some listed job, and no listed job ends with a larger one. *)
Theorem makespan_is_largest_completion_time jobs P S job_names machines
    for_bin h v h' :
  _calc_makespan jobs P S job_names machines for_bin h = (Ok v, h') →
  (∃ r, r ∈ jobs ∧ completion_time (h' r) = v) ∧
  ∀ r, r ∈ jobs → completion_time (h' r) ≤ v.
Proof. apply calc_makespan_max. Qed.

Lemma makespan_is_largest_completion_time_witness :
  (∃ r, r ∈ [0; 1; 2]%nat ∧ completion_time ((demo_run true).2 r) = 11) ∧
  ∀ r, r ∈ [0; 1; 2]%nat → completion_time ((demo_run true).2 r) ≤ 11.
Proof.
  apply (makespan_is_largest_completion_time [0; 1; 2]%nat demo_P demo_S
           demo_names demo_machines true demo_heap 11 (demo_run true).2).
  vm_compute. reflexivity.
Defined.

(** ** When a run returns and what it raises *)

(** X4.  [_calc_makespan] returns a value, in either mode, when the job
    list is not empty, there is a job name besides the first (the
    dummy's), the setup-time array has a plane for every job name and
    each of these planes a row for every job name, and the
    processing-time array has a row for every job name but the first. *)
Theorem calc_makespan_returns jobs P S job_names machines for_bin h :
  jobs ≠ [] → tail job_names ≠ [] →
  (length job_names ≤ length S)%nat →
  (∀ (i : nat) plane, (i < length job_names)%nat → S !! i = Some plane →
                      (length job_names ≤ length plane)%nat) →
  (length (tail job_names) ≤ length P)%nat →
  ∃ v h', _calc_makespan jobs P S job_names machines for_bin h = (Ok v, h').
Proof.
  intros Hjobs Htail HS Hplanes HP.
  destruct (makeDict3_Ok job_names job_names machines S HS Hplanes) as [s Hs].
  destruct (makeDict2_Ok (tail job_names) machines P HP) as [p Hp].
  by eapply calc_makespan_built_returns.
Qed.

Lemma calc_makespan_returns_witness :
  ∃ v h', _calc_makespan [0; 1; 2]%nat demo_P demo_S demo_names demo_machines
            false demo_heap = (Ok v, h').
Proof.
  apply (calc_makespan_returns [0; 1; 2]%nat demo_P demo_S demo_names
           demo_machines false demo_heap).
  - discriminate.
  - discriminate.
  - simpl. lia.
  - intros i plane Hi Hplane.
    do 4 (destruct i as [|i]; [injection Hplane as <-; simpl; lia|]).
    simpl in Hi. lia.
  - simpl. lia.
Defined.

(** X5.  The exceptions of [_calc_makespan].  It raises [IndexError] when
    the construction of one of the two tables fails, [NameError] only
    when the job list is not empty and there is no job name besides the
    first, and the [ValueError] of [max] only when the job list is empty;
    in the first and the last case no job has been changed.  The
    resolver's [ValueError] is never raised. *)
Theorem calc_makespan_raises jobs P S job_names machines for_bin h e :
  (_calc_makespan jobs P S job_names machines for_bin h).1 = Raise e →
  (e = IndexError ∧
   (makeDict3 job_names job_names machines S = Raise IndexError ∨
    makeDict2 (tail job_names) machines P = Raise IndexError) ∧
   (_calc_makespan jobs P S job_names machines for_bin h).2 = h) ∨
  (e = NameError ∧ tail job_names = [] ∧ jobs ≠ []) ∨
  (e = ValueError_max_empty ∧ jobs = [] ∧
   (_calc_makespan jobs P S job_names machines for_bin h).2 = h).
Proof.
  destruct (calc_makespan_cases jobs P S job_names machines for_bin h)
    as [[-> Hfail]|(s & p & keys & Hs & Hp & Hnd & Hkeys & ->)].
  { intros [= <-]. by left. }
  intros Hraise. right.
  destruct jobs as [|r0 jobs].
  { right. rewrite (groups_of_nil h keys Hkeys) in *. simpl in *.
    by injection Hraise as <-. }
  left.
  assert (∀ g, g ∈ groups_of h (r0 :: jobs) keys → g.2 ≠ []) as Hgne.
  { intros g Hg. apply groups_of_elem in Hg as (_ & _ & ? & _); [done|].
    intros m. apply Hkeys. }
  pose proof (groups_of_nonempty h (r0 :: jobs) keys Hkeys ltac:(done)) as Hne.
  destruct (decide (tail job_names = [])) as [Htail|Htail].
  - split; [|done].
    pose proof (for_collect_machines_Raise for_bin p s
                  (groups_of h (r0 :: jobs) keys) h) as Hloop.
    destruct (for_collect _ (groups_of h (r0 :: jobs) keys) h)
      as [[vs|e'] h1] eqn:Hrun; simpl in *.
    + apply py_max_Raise in Hraise as ->.
      apply for_collect_length in Hrun.
      by destruct (groups_of h (r0 :: jobs) keys).
    + injection Hraise as <-. by apply Hloop.
  - exfalso.
    assert (job_names ≠ []) as Hjn by (by destruct job_names).
    destruct (for_collect_machines_total for_bin p s
                (groups_of h (r0 :: jobs) keys) h) as (vs & h' & Hrun & Hlen).
    + by eapply p_lookup_total.
    + by eapply s_lookup_total.
    + done.
    + rewrite Hrun in Hraise. simpl in Hraise.
      apply py_max_Raise in Hraise as ->.
      by destruct (groups_of h (r0 :: jobs) keys).
Qed.

Lemma calc_makespan_raises_witness :
  (IndexError = IndexError ∧
   (makeDict3 demo_names demo_names demo_machines [] = Raise IndexError ∨
    makeDict2 (tail demo_names) demo_machines demo_P = Raise IndexError) ∧
   (_calc_makespan [0; 1; 2]%nat demo_P [] demo_names demo_machines true
      demo_heap).2 = demo_heap) ∨
  (IndexError = NameError ∧ tail demo_names = [] ∧ [0; 1; 2]%nat ≠ []) ∨
  (IndexError = ValueError_max_empty ∧ [0; 1; 2]%nat = [] ∧
   (_calc_makespan [0; 1; 2]%nat demo_P [] demo_names demo_machines true
      demo_heap).2 = demo_heap).
Proof.
  apply (calc_makespan_raises [0; 1; 2]%nat demo_P [] demo_names demo_machines
           true demo_heap IndexError).
  vm_compute. reflexivity.
Defined.

(** X6.  [calculate_bin_makespan] takes the job names from the job list
    itself, so it can only raise [IndexError], on an array that is too
    short, or the [ValueError] of [max], on an empty job list; in both
    cases no job has been changed. *)
Theorem bin_makespan_raises jobs P S accelerators h e :
  (calculate_bin_makespan jobs P S accelerators h).1 = Raise e →
  (e = IndexError ∨ (e = ValueError_max_empty ∧ jobs = [])) ∧
  (calculate_bin_makespan jobs P S accelerators h).2 = h.
Proof.
  unfold calculate_bin_makespan.
  set (lp_jobs := "0"%string :: map (fun r => name (h r)) jobs).
  destruct (calc_makespan_cases jobs P S lp_jobs (map fst accelerators) true h)
    as [[-> Hfail]|(s & p & keys & Hs & Hp & Hnd & Hkeys & Heq)].
  { intros [= <-]. split; [by left|done]. }
  destruct jobs as [|r0 jobs].
  { rewrite Heq, (groups_of_nil h keys Hkeys). simpl.
    intros [= <-]. split; [by right|done]. }
  intros Hraise. exfalso.
  destruct (calc_makespan_built_returns (r0 :: jobs) P S lp_jobs
              (map fst accelerators) true h s p Hs Hp) as (v & h' & Hok);
    [done..|].
  by rewrite Hok in Hraise.
Qed.

Lemma bin_makespan_raises_witness :
  (ValueError_max_empty = IndexError ∨
   (ValueError_max_empty = ValueError_max_empty ∧ @nil nat = [])) ∧
  (calculate_bin_makespan [] demo_P demo_S demo_accelerators demo_heap).2
  = demo_heap.
Proof.
  apply (bin_makespan_raises [] demo_P demo_S demo_accelerators demo_heap
           ValueError_max_empty).
  vm_compute. reflexivity.
Defined.

(** ** The record a job ends with *)

(** X7.  In a run over distinct job objects that returns, in either mode,
    a job whose start time is 0 on entry follows the dummy job: its
    completion time is set to its processing time on its machine plus the
    setup time from the dummy job ["0"], whatever the other jobs are. *)
Theorem job_starting_at_zero_follows_dummy jobs P S job_names machines for_bin
    h v h' r :
  _calc_makespan jobs P S job_names machines for_bin h = (Ok v, h') →
  NoDup jobs → r ∈ jobs → start_time (h r) = 0 →
  ∃ s p pv sv,
    makeDict3 job_names job_names machines S = Ok s ∧
    makeDict2 (tail job_names) machines P = Ok p ∧
    p_lookup p (name (h r)) (machine (h r)) = Ok pv ∧
    s_lookup s "0" (name (h r)) (machine (h r)) = Ok sv ∧
    completion_time (h' r) = pv + sv.
Proof.
  intros Hrun Hnd Hr Hz.
  destruct (calc_makespan_Ok_inv _ _ _ _ _ _ _ _ _ Hrun)
    as (s & p & _ & _ & Hs & Hp & _).
  destruct (calc_makespan_start_zero _ _ _ _ _ _ _ _ _ r s p Hrun Hnd Hr Hz Hs Hp)
    as (pv & sv & Hpv & Hsv & Hc & _).
  by exists s, p, pv, sv.
Qed.

Lemma job_starting_at_zero_follows_dummy_witness :
  ∃ s p pv sv,
    makeDict3 demo_names demo_names demo_machines demo_S = Ok s ∧
    makeDict2 (tail demo_names) demo_machines demo_P = Ok p ∧
    p_lookup p (name (demo_heap 2%nat)) (machine (demo_heap 2%nat)) = Ok pv ∧
    s_lookup s "0" (name (demo_heap 2%nat)) (machine (demo_heap 2%nat)) = Ok sv ∧
    completion_time ((demo_run false).2 2%nat) = pv + sv.
Proof.
  apply (job_starting_at_zero_follows_dummy [0; 1; 2]%nat demo_P demo_S
           demo_names demo_machines false demo_heap 10 (demo_run false).2 2%nat).
  - vm_compute. reflexivity.
  - nodup_by_computation.
  - do 2 apply list_elem_of_further. apply list_elem_of_here.
  - reflexivity.
Defined.

(** X8.  In dynamic-bin mode, in a run over distinct job objects that
    returns, every job ends with a consistent pair of times: its
    completion time is its start time plus its processing time plus the
    setup time after its predecessor, and the predecessor is the dummy
    job ["0"] or a listed job of the same machine. *)
Theorem bin_schedule_is_consistent jobs P S job_names machines h v h' r :
  _calc_makespan jobs P S job_names machines true h = (Ok v, h') →
  NoDup jobs → r ∈ jobs →
  ∃ s p pred pv sv,
    makeDict3 job_names job_names machines S = Ok s ∧
    makeDict2 (tail job_names) machines P = Ok p ∧
    (pred = "0"%string ∨
     ∃ r', r' ∈ jobs ∧ machine (h r') = machine (h r) ∧ pred = name (h r')) ∧
    p_lookup p (name (h r)) (machine (h r)) = Ok pv ∧
    s_lookup s pred (name (h r)) (machine (h r)) = Ok sv ∧
    completion_time (h' r) = start_time (h' r) + pv + sv.
Proof.
  intros Hrun Hnd Hr.
  destruct (calc_makespan_Ok_inv _ _ _ _ _ _ _ _ _ Hrun)
    as (s & p & _ & _ & Hs & Hp & _).
  destruct (calc_makespan_written (fun hk => ∀ x, name (hk x) = name (h x))
              _ _ _ _ _ _ _ _ _ r Hrun Hnd Hr s p Hs Hp)
    as (hk & lc & pv & sv & Hk & Hkr & Hlc & Hpv & Hsv & Hfin); [|done|].
  { intros job h1 h2 _ Hname Hstep. by eapply step_keeps_names. }
  exists s, p, (name lc), pv, sv. repeat split; try done.
  - apply predecessor_elem in Hlc as [->|(r' & Hr' & Hcase)]; [by left|].
    right. apply list_elem_of_filter in Hr' as [Hm Hr'].
    exists r'. repeat split; try done.
    destruct Hcase as [->| ->]; [by rewrite Hk|done].
  - by rewrite Hfin.
Qed.

Lemma bin_schedule_is_consistent_witness :
  ∃ s p pred pv sv,
    makeDict3 demo_names demo_names demo_machines demo_S = Ok s ∧
    makeDict2 (tail demo_names) demo_machines demo_P = Ok p ∧
    (pred = "0"%string ∨
     ∃ r', r' ∈ [0; 1; 2]%nat ∧
           machine (demo_heap r') = machine (demo_heap 1%nat) ∧
           pred = name (demo_heap r')) ∧
    p_lookup p (name (demo_heap 1%nat)) (machine (demo_heap 1%nat)) = Ok pv ∧
    s_lookup s pred (name (demo_heap 1%nat)) (machine (demo_heap 1%nat))
    = Ok sv ∧
    completion_time ((demo_run true).2 1%nat)
    = start_time ((demo_run true).2 1%nat) + pv + sv.
Proof.
  apply (bin_schedule_is_consistent [0; 1; 2]%nat demo_P demo_S demo_names
           demo_machines demo_heap 11 (demo_run true).2 1%nat).
  - vm_compute. reflexivity.
  - nodup_by_computation.
  - apply list_elem_of_further, list_elem_of_here.
Defined.

(** X9.  In ordered-list mode, in a run over distinct job objects that
    returns, the completion time a job ends with is computed from the
    records on entry alone: the predecessor is the one the resolver finds
    in the records the jobs of the machine had on entry (the dummy job if
    the job's start time is 0), and it counts with the completion time it
    had on entry, not with the one written in this run. *)
Theorem ordered_completion_from_snapshot jobs P S job_names machines h v h' r :
  _calc_makespan jobs P S job_names machines false h = (Ok v, h') →
  NoDup jobs → r ∈ jobs →
  ∃ s p lc0 pv sv,
    makeDict3 job_names job_names machines S = Ok s ∧
    makeDict2 (tail job_names) machines P = Ok p ∧
    _find_last_completed (name (h r))
      (map h (jobs_on h jobs (machine (h r)))) (machine (h r)) = Ok lc0 ∧
    p_lookup p (name (h r)) (machine (h r)) = Ok pv ∧
    s_lookup s
      (name (if start_time (h r) =? 0 then dummy_job (machine (h r)) else lc0))
      (name (h r)) (machine (h r)) = Ok sv ∧
    completion_time (h' r) =
    completion_time
      (if start_time (h r) =? 0 then dummy_job (machine (h r)) else lc0)
    + pv + sv.
Proof.
  intros Hrun Hnd Hr.
  destruct (calc_makespan_Ok_inv _ _ _ _ _ _ _ _ _ Hrun)
    as (s & p & _ & _ & Hs & Hp & _).
  destruct (calc_makespan_written (fun _ => True)
              _ _ _ _ _ _ _ _ _ r Hrun Hnd Hr s p Hs Hp)
    as (hk & lc & pv & sv & _ & Hkr & Hlc & Hpv & Hsv & Hfin); [done..|].
  rewrite predecessor_ordered, Hkr in Hlc.
  destruct (_find_last_completed (name (h r)) _ (machine (h r))) as [lc0|e];
    [|done].
  injection Hlc as <-. exists s, p, lc0, pv, sv. repeat split; try done.
  by rewrite Hfin.
Qed.

Lemma ordered_completion_from_snapshot_witness :
  ∃ s p lc0 pv sv,
    makeDict3 demo_names demo_names demo_machines demo_S = Ok s ∧
    makeDict2 (tail demo_names) demo_machines demo_P = Ok p ∧
    _find_last_completed (name (demo_heap 1%nat))
      (map demo_heap (jobs_on demo_heap [0; 1; 2]%nat (machine (demo_heap 1%nat))))
      (machine (demo_heap 1%nat)) = Ok lc0 ∧
    p_lookup p (name (demo_heap 1%nat)) (machine (demo_heap 1%nat)) = Ok pv ∧
    s_lookup s
      (name (if start_time (demo_heap 1%nat) =? 0
             then dummy_job (machine (demo_heap 1%nat)) else lc0))
      (name (demo_heap 1%nat)) (machine (demo_heap 1%nat)) = Ok sv ∧
    completion_time ((demo_run false).2 1%nat) =
    completion_time
      (if start_time (demo_heap 1%nat) =? 0
       then dummy_job (machine (demo_heap 1%nat)) else lc0)
    + pv + sv.
Proof.
  apply (ordered_completion_from_snapshot [0; 1; 2]%nat demo_P demo_S
           demo_names demo_machines demo_heap 10 (demo_run false).2 1%nat).
  - vm_compute. reflexivity.
  - nodup_by_computation.
  - apply list_elem_of_further, list_elem_of_here.
Defined.

(** X10.  With no negative entry in the two arrays and no negative
    completion time on entry, in a run over distinct job objects that
    returns, in either mode: the processing time of every listed job on
    its machine is at least 0 and at most the completion time the job
    ends with, which is at most the value returned. *)
Theorem completion_times_bounded_below jobs P S job_names machines for_bin
    h v h' r :
  _calc_makespan jobs P S job_names machines for_bin h = (Ok v, h') →
  NoDup jobs → r ∈ jobs →
  (∀ row x, row ∈ P → x ∈ row → 0 ≤ x) →
  (∀ plane row x, plane ∈ S → row ∈ plane → x ∈ row → 0 ≤ x) →
  (∀ x, x ∈ jobs → 0 ≤ completion_time (h x)) →
  ∃ p pv,
    makeDict2 (tail job_names) machines P = Ok p ∧
    p_lookup p (name (h r)) (machine (h r)) = Ok pv ∧
    0 ≤ pv ∧ pv ≤ completion_time (h' r) ∧ completion_time (h' r) ≤ v.
Proof.
  intros Hrun Hnd Hr HP HS Hin.
  destruct (calc_makespan_Ok_inv _ _ _ _ _ _ _ _ _ Hrun)
    as (s & p & _ & _ & Hs & Hp & _).
  assert (∀ a m v, p_lookup p a m = Ok v → 0 ≤ v) as Hpn.
  { intros a m w. by apply (p_lookup_pred (fun x => 0 ≤ x) _ _ _ _ _ _ _
                              ltac:(done) HP Hp). }
  assert (∀ a b m v, s_lookup s a b m = Ok v → 0 ≤ v) as Hsn.
  { intros a b m w. by apply (s_lookup_pred (fun x => 0 ≤ x) _ _ _ _ _ _ _ _ _
                                ltac:(done) HS Hs). }
  set (m := machine (h r)). set (assigned := jobs_on h jobs m).
  assert (∀ x, x ∈ assigned → 0 ≤ completion_time (h x)) as Hin'.
  { intros x [_ Hx]%list_elem_of_filter. by apply Hin. }
  destruct (calc_makespan_written
              (fun hk => ∀ x, x ∈ assigned → 0 ≤ completion_time (hk x))
              _ _ _ _ _ _ _ _ _ r Hrun Hnd Hr s p Hs Hp)
    as (hk & lc & pv & sv & Hk & Hkr & Hlc & Hpv & Hsv & Hfin); [|done|].
  { intros job h1 h2 _ H1 Hstep.
    eapply (step_nonneg for_bin p s m assigned h job h1 h2); try done.
    - intros a w. apply Hpn.
    - intros a b w. apply Hsn. }
  exists p, pv. split; [done|]. split; [done|]. split; [by eapply Hpn|].
  split; [|by apply (calc_makespan_max _ _ _ _ _ _ _ _ _ Hrun)].
  rewrite Hfin. simpl. apply Hsn in Hsv.
  apply predecessor_elem in Hlc as [->|(r' & Hr' & [->| ->])]; simpl.
  - lia.
  - specialize (Hk r' Hr'). lia.
  - specialize (Hin' r' Hr'). lia.
Qed.

Lemma completion_times_bounded_below_witness :
  ∃ p pv,
    makeDict2 (tail demo_names) demo_machines demo_P = Ok p ∧
    p_lookup p (name (demo_heap 1%nat)) (machine (demo_heap 1%nat)) = Ok pv ∧
    0 ≤ pv ∧ pv ≤ completion_time ((demo_run true).2 1%nat) ∧
    completion_time ((demo_run true).2 1%nat) ≤ 11.
Proof.
  apply (completion_times_bounded_below [0; 1; 2]%nat demo_P demo_S demo_names
           demo_machines true demo_heap 11 (demo_run true).2 1%nat).
  - vm_compute. reflexivity.
  - nodup_by_computation.
  - apply list_elem_of_further, list_elem_of_here.
  - intros row x Hrow Hx. elem_cases Hrow; elem_cases Hx; lia.
  - intros plane row x Hplane Hrow Hx.
    elem_cases Hplane; elem_cases Hrow; elem_cases Hx; lia.
  - intros x Hx. elem_cases Hx; vm_compute; discriminate.
Defined.

(** ** Running twice *)

(** X11.  When every listed job has start time 0 on entry (and, in
    ordered-list mode, none is called ["0"]), a run over distinct job
    objects that returns leaves the jobs in a state that a second run
    with the same arguments does not change: the second run returns the
    same value and leaves every object as the first run left it. *)
Theorem rerun_is_stable_when_all_start_at_zero jobs P S job_names machines
    for_bin h v h' :
  _calc_makespan jobs P S job_names machines for_bin h = (Ok v, h') →
  NoDup jobs →
  (∀ r, r ∈ jobs → start_time (h r) = 0) →
  (for_bin = true ∨ ∀ r, r ∈ jobs → name (h r) ≠ "0"%string) →
  ∃ h'', _calc_makespan jobs P S job_names machines for_bin h' = (Ok v, h'') ∧
         ∀ r, h'' r = h' r.
Proof.
  intros Hrun Hnd Hz Hnames.
  destruct (calc_makespan_Ok_inv _ _ _ _ _ _ _ _ _ Hrun)
    as (s & p & _ & _ & Hs & Hp & _).
  destruct (calc_makespan_Ok_nonempty _ _ _ _ _ _ _ _ _ Hrun) as [Hjobs Htail].
  destruct (calc_makespan_built_returns jobs P S job_names machines for_bin h'
              s p Hs Hp Hjobs Htail) as (v2 & h'' & Hrun2).
  assert (∀ r, same_identity (h' r) (h r) ∧ (r ∉ jobs → h' r = h r)) as Hfr1.
  { intros r.
    pose proof (calc_makespan_frame jobs P S job_names machines for_bin h r) as H.
    by rewrite Hrun in H. }
  assert (∀ r, same_identity (h'' r) (h' r) ∧ (r ∉ jobs → h'' r = h' r)) as Hfr2.
  { intros r.
    pose proof (calc_makespan_frame jobs P S job_names machines for_bin h' r) as H.
    by rewrite Hrun2 in H. }
  assert (∀ r, h'' r = h' r) as Hsame.
  { intros r. destruct (decide (r ∈ jobs)) as [Hr|Hr]; [|by apply Hfr2].
    destruct (Hfr1 r) as [(Hn1 & Hm1 & Hc1) _].
    destruct (Hfr2 r) as [(Hn2 & Hm2 & Hc2) _].
    destruct (calc_makespan_start_zero _ _ _ _ _ _ _ _ _ r s p Hrun Hnd Hr
                (Hz r Hr) Hs Hp) as (pv & sv & Hpv & Hsv & Hcomp & Hstart).
    specialize (Hstart Hnames).
    destruct (calc_makespan_start_zero _ _ _ _ _ _ _ _ _ r s p Hrun2 Hnd Hr
                Hstart Hs Hp) as (pv2 & sv2 & Hpv2 & Hsv2 & Hcomp2 & Hstart2).
    rewrite Hn1, Hm1 in Hpv2, Hsv2.
    assert (pv2 = pv) as -> by congruence. assert (sv2 = sv) as -> by congruence.
    apply job_eq; try done; [|congruence].
    rewrite Hstart. apply Hstart2.
    destruct Hnames as [->|Hnm]; [by left|]. right. intros x Hx.
    destruct (Hfr1 x) as [(-> & _) _]. by apply Hnm. }
  exists h''. split; [|done].
  destruct (calc_makespan_max _ _ _ _ _ _ _ _ _ Hrun) as [(r1 & Hr1 & Hv1) Hub1].
  destruct (calc_makespan_max _ _ _ _ _ _ _ _ _ Hrun2) as [(r2 & Hr2 & Hv2) Hub2].
  assert (v2 = v) as ->; [|done].
  specialize (Hub1 r2 Hr2). specialize (Hub2 r1 Hr1).
  rewrite Hsame in Hv2, Hub2. lia.
Qed.

Lemma rerun_is_stable_when_all_start_at_zero_witness :
  ∃ h'', _calc_makespan [0; 1; 2]%nat demo_P demo_S demo_names demo_machines
           true demo_run_zero.2 = (Ok 10, h'') ∧
         ∀ r, h'' r = demo_run_zero.2 r.
Proof.
  apply (rerun_is_stable_when_all_start_at_zero [0; 1; 2]%nat demo_P demo_S
           demo_names demo_machines true demo_heap_zero 10 demo_run_zero.2).
  - vm_compute. reflexivity.
  - nodup_by_computation.
  - intros r Hr. elem_cases Hr; reflexivity.
  - left. reflexivity.
Defined.

(** ** The tables and the arrays *)

(** X12.  How the two tables index the arrays.  With distinct machine
    names, for a job name [a] whose last occurrence in [job_names] is at
    position [i + 1] and a job name [b] whose last occurrence is at
    position [j]: the processing time of [a] on the [k]-th machine is
    entry [k] of row [i] of the processing-time array (the rows start
    after the dummy's name), and the setup time from [b] to [a] on that
    machine is entry [k] of row [i + 1] of plane [j] of the setup-time
    array; a row that is too short counts as 0 there. *)
Theorem table_entries_follow_the_arrays job_names machines P S p s
    (i j k : nat) a b m :
  makeDict2 (tail job_names) machines P = Ok p →
  makeDict3 job_names job_names machines S = Ok s →
  NoDup machines → machines !! k = Some m →
  last_at job_names (Datatypes.S i) a → last_at job_names j b →
  ∃ row plane srow,
    P !! i = Some row ∧ S !! j = Some plane ∧
    plane !! (Datatypes.S i) = Some srow ∧
    p_lookup p a m = Ok (default 0 (row !! k)) ∧
    s_lookup s b a m = Ok (default 0 (srow !! k)).
Proof.
  intros Hp Hs Hnd Hk Ha Hb.
  destruct (p_lookup_entry _ _ _ _ i k a m Hp Hnd (last_at_tail _ _ _ Ha) Hk)
    as (row & Hrow & Hpv).
  destruct (s_lookup_entry _ _ _ _ _ j (Datatypes.S i) k b a m Hs Hnd Hb Ha Hk)
    as (plane & srow & Hplane & Hsrow & Hsv).
  by exists row, plane, srow.
Qed.

Lemma table_entries_follow_the_arrays_witness :
  ∃ p s row plane srow,
    makeDict2 (tail demo_names) demo_machines demo_P = Ok p ∧
    makeDict3 demo_names demo_names demo_machines demo_S = Ok s ∧
    demo_P !! 1%nat = Some row ∧ demo_S !! 1%nat = Some plane ∧
    plane !! 2%nat = Some srow ∧
    p_lookup p "B" "M2" = Ok (default 0 (row !! 1%nat)) ∧
    s_lookup s "A" "B" "M2" = Ok (default 0 (srow !! 1%nat)).
Proof.
  destruct (makeDict2 (tail demo_names) demo_machines demo_P) as [p|e] eqn:Hp;
    [|by vm_compute in Hp].
  destruct (makeDict3 demo_names demo_names demo_machines demo_S) as [s|e] eqn:Hs;
    [|by vm_compute in Hs].
  destruct (table_entries_follow_the_arrays demo_names demo_machines demo_P
              demo_S p s 1%nat 1%nat 1%nat "B" "A" "M2" Hp Hs)
    as (row & plane & srow & H); [..|by exists p, s, row, plane, srow].
  - nodup_by_computation.
  - reflexivity.
  - apply last_at_NoDup; [nodup_by_computation|reflexivity].
  - apply last_at_NoDup; [nodup_by_computation|reflexivity].
Defined.

(** X13.  [calculate_bin_makespan], end to end.  With pairwise distinct
    job names, none of them ["0"], and distinct accelerator names, in a
    run that returns: the job at position [i] of the job list, if its
    start time is 0 on entry and its machine is the [k]-th accelerator,
    ends with completion time [process_times[i][k]] +
    [setup_times[0][i + 1][k]]. *)
Theorem bin_completion_of_job_starting_at_zero jobs P S accelerators h v h'
    (i k : nat) r :
  calculate_bin_makespan jobs P S accelerators h = (Ok v, h') →
  NoDup (map (fun x => name (h x)) jobs) →
  (∀ x, x ∈ jobs → name (h x) ≠ "0"%string) →
  NoDup (map fst accelerators) →
  jobs !! i = Some r → start_time (h r) = 0 →
  map fst accelerators !! k = Some (machine (h r)) →
  ∃ row plane srow,
    P !! i = Some row ∧ S !! 0%nat = Some plane ∧
    plane !! (Datatypes.S i) = Some srow ∧
    completion_time (h' r) = default 0 (row !! k) + default 0 (srow !! k).
Proof.
  unfold calculate_bin_makespan. intros Hrun Hnames Hzero Hacc Hi Hz Hk.
  set (names := map (fun x => name (h x)) jobs) in *.
  assert (NoDup jobs) as Hnd by (by eapply (NoDup_fmap_1 (fun x => name (h x)))).
  assert (r ∈ jobs) as Hr by (by eapply list_elem_of_lookup_2).
  destruct (calc_makespan_Ok_inv _ _ _ _ _ _ _ _ _ Hrun)
    as (s & p & _ & _ & Hs & Hp & _).
  destruct (calc_makespan_start_zero _ _ _ _ _ _ _ _ _ r s p Hrun Hnd Hr Hz Hs Hp)
    as (pv & sv & Hpv & Hsv & Hc & _).
  assert (names !! i = Some (name (h r))) as Hni.
  { subst names. by rewrite list_lookup_fmap, Hi. }
  assert ("0"%string ∉ names) as H0.
  { intros [x [Hx Hin]]%list_elem_of_fmap. by apply (Hzero x). }
  assert (NoDup ("0"%string :: names)) as Hnd' by (by apply NoDup_cons).
  destruct (p_lookup_entry _ _ _ _ i k (name (h r)) (machine (h r)) Hp Hacc)
    as (row & Hrow & Hpv'); [by apply last_at_NoDup|done|].
  destruct (s_lookup_entry _ _ _ _ _ 0 (Datatypes.S i) k "0"%string (name (h r))
              (machine (h r)) Hs Hacc)
    as (plane & srow & Hplane & Hsrow & Hsv');
    [by apply last_at_NoDup..|done|].
  exists row, plane, srow. repeat split; try done.
  rewrite Hc. congruence.
Qed.

Lemma bin_completion_of_job_starting_at_zero_witness :
  ∃ row plane srow,
    demo_P !! 2%nat = Some row ∧ demo_S !! 0%nat = Some plane ∧
    plane !! 3%nat = Some srow ∧
    completion_time
      ((calculate_bin_makespan [0; 1; 2]%nat demo_P demo_S demo_accelerators
          demo_heap).2 2%nat)
    = default 0 (row !! 1%nat) + default 0 (srow !! 1%nat).
Proof.
  apply (bin_completion_of_job_starting_at_zero [0; 1; 2]%nat demo_P demo_S
           demo_accelerators demo_heap 11
           (calculate_bin_makespan [0; 1; 2]%nat demo_P demo_S demo_accelerators
              demo_heap).2 2%nat 1%nat 2%nat).
  - vm_compute. reflexivity.
  - nodup_by_computation.
  - intros x Hx. elem_cases Hx; discriminate.
  - nodup_by_computation.
  - reflexivity.
  - reflexivity.
  - reflexivity.
Defined.

(** ** The two policies *)

(** X14.  When every listed job has start time 0 on entry, the two
    policies agree on a job list of distinct objects: with the same
    arguments, dynamic-bin mode and ordered-list mode return the same
    value, or raise the same exception, and leave every listed job with
    the same completion time. *)
Theorem policies_agree_when_all_start_at_zero jobs P S job_names machines h :
  NoDup jobs → (∀ r, r ∈ jobs → start_time (h r) = 0) →
  (_calc_makespan jobs P S job_names machines true h).1 =
  (_calc_makespan jobs P S job_names machines false h).1 ∧
  ∀ r, r ∈ jobs →
    completion_time ((_calc_makespan jobs P S job_names machines true h).2 r) =
    completion_time ((_calc_makespan jobs P S job_names machines false h).2 r).
Proof.
  intros Hnd Hz.
  destruct (calc_makespan_cases jobs P S job_names machines true h)
    as [[Ht Hfail]|(s & p & _ & Hs & Hp & _)].
  { destruct (calc_makespan_cases jobs P S job_names machines false h)
      as [[Hf _]|(s & p & _ & Hs & Hp & _)].
    - by rewrite Ht, Hf.
    - destruct Hfail; congruence. }
  destruct (calc_makespan_outcome jobs P S job_names machines true h s p Hs Hp)
    as (Ht0 & Ht1 & Ht2).
  destruct (calc_makespan_outcome jobs P S job_names machines false h s p Hs Hp)
    as (Hf0 & Hf1 & Hf2).
  destruct (decide (jobs = [])) as [Hjobs|Hjobs].
  { by rewrite Ht0, Hf0. }
  destruct (decide (tail job_names = [])) as [Htail|Htail].
  { rewrite Ht1, Hf1 by done. split; [done|]. intros r Hr.
    by rewrite !calc_makespan_unbound. }
  destruct (Ht2 Hjobs Htail) as (v1 & h1 & Hrun1).
  destruct (Hf2 Hjobs Htail) as (v2 & h2 & Hrun2).
  rewrite Hrun1, Hrun2. simpl.
  assert (∀ r, r ∈ jobs → completion_time (h1 r) = completion_time (h2 r)) as Hc.
  { intros r Hr.
    destruct (calc_makespan_start_zero _ _ _ _ _ _ _ _ _ r s p Hrun1 Hnd Hr
                (Hz r Hr) Hs Hp) as (pv & sv & Hpv & Hsv & -> & _).
    destruct (calc_makespan_start_zero _ _ _ _ _ _ _ _ _ r s p Hrun2 Hnd Hr
                (Hz r Hr) Hs Hp) as (pv2 & sv2 & Hpv2 & Hsv2 & -> & _).
    congruence. }
  split; [|done]. f_equal.
  destruct (calc_makespan_max _ _ _ _ _ _ _ _ _ Hrun1) as [(r1 & Hr1 & Hv1) Hub1].
  destruct (calc_makespan_max _ _ _ _ _ _ _ _ _ Hrun2) as [(r2 & Hr2 & Hv2) Hub2].
  specialize (Hub1 r2 Hr2). specialize (Hub2 r1 Hr1).
  rewrite Hc in Hub1, Hv1 by done. lia.
Qed.

Lemma policies_agree_when_all_start_at_zero_witness :
  (_calc_makespan [0; 1; 2]%nat demo_P demo_S demo_names demo_machines true
     demo_heap_zero).1 =
  (_calc_makespan [0; 1; 2]%nat demo_P demo_S demo_names demo_machines false
     demo_heap_zero).1 ∧
  ∀ r, r ∈ [0; 1; 2]%nat →
    completion_time
      ((_calc_makespan [0; 1; 2]%nat demo_P demo_S demo_names demo_machines
          true demo_heap_zero).2 r) =
    completion_time
      ((_calc_makespan [0; 1; 2]%nat demo_P demo_S demo_names demo_machines
          false demo_heap_zero).2 r).
Proof.
  apply (policies_agree_when_all_start_at_zero [0; 1; 2]%nat demo_P demo_S
           demo_names demo_machines demo_heap_zero).
  - nodup_by_computation.
  - intros r Hr. elem_cases Hr; reflexivity.
Defined.

(** ** Dynamic-bin mode puts the jobs of a machine one after the other *)

(** X15.  In dynamic-bin mode, in a run over distinct job objects that
    returns, the loop of a machine goes through its jobs sorted by the
    start times they had on entry.  A job whose start time is not 0 on
    entry ends with a start time that is at least the completion time
    every job before it in this order ends with, and at least the
    completion time that the job itself and the jobs after it had on
    entry. *)
Theorem bin_job_starts_after_earlier_jobs jobs P S job_names machines
    h v h' r :
  _calc_makespan jobs P S job_names machines true h = (Ok v, h') →
  NoDup jobs → r ∈ jobs → start_time (h r) ≠ 0 →
  ∃ before after,
    py_sorted (fun x => start_time (h x)) (jobs_on h jobs (machine (h r)))
    = before ++ r :: after ∧
    (∀ x, x ∈ before → completion_time (h' x) ≤ start_time (h' r)) ∧
    (∀ x, x ∈ r :: after → completion_time (h x) ≤ start_time (h' r)).
Proof.
  intros Hrun Hnd Hr Hstart.
  destruct (calc_makespan_Ok_inv _ _ _ _ _ _ _ _ _ Hrun)
    as (s & p & _ & _ & Hs & Hp & _).
  destruct (calc_makespan_moment _ _ _ _ _ _ _ _ _ r s p Hrun Hnd Hr Hs Hp)
    as (before & after & hk & lc & pv & sv
        & Horder & Hbefore & Hout & Hlc & _ & _ & Hfin).
  assert (NoDup (before ++ r :: after)) as Hndo.
  { rewrite <- Horder, py_sorted_perm. by apply NoDup_filter. }
  apply NoDup_app in Hndo as (_ & Hdisj & _).
  assert (∀ x, x ∈ before ++ r :: after →
               x ∈ jobs_on h jobs (machine (h r))) as Hsub.
  { intros x Hx. rewrite <- Horder in Hx. by apply py_sorted_elem in Hx. }
  destruct (predecessor_bin_first_max _ _ _ _ _ _ Hlc) as [_ Hmax].
  rewrite Hout in Hmax by (intros Hin; apply (Hdisj r Hin), list_elem_of_here).
  destruct (Hmax Hstart) as (i & r' & _ & _ & Hge & _).
  assert (start_time (h' r) = completion_time lc) as -> by (by rewrite Hfin).
  exists before, after. split; [done|]. split.
  - intros x Hx. rewrite <- (Hbefore x Hx). apply Hge, Hsub, elem_of_app.
    by left.
  - intros x Hx. rewrite <- (Hout x) by (intros Hin; by apply (Hdisj x Hin)).
    apply Hge, Hsub, elem_of_app. by right.
Qed.

Lemma bin_job_starts_after_earlier_jobs_witness :
  let h' :=
    (_calc_makespan [0; 1; 2]%nat demo_P demo_S demo_names demo_machines true
       demo_heap_late).2 in
  ∃ before after,
    py_sorted (fun x => start_time (demo_heap_late x))
      (jobs_on demo_heap_late [0; 1; 2]%nat (machine (demo_heap_late 1%nat)))
    = before ++ 1%nat :: after ∧
    (∀ x, x ∈ before → completion_time (h' x) ≤ start_time (h' 1%nat)) ∧
    (∀ x, x ∈ 1%nat :: after →
          completion_time (demo_heap_late x) ≤ start_time (h' 1%nat)).
Proof.
  intros h'.
  apply (bin_job_starts_after_earlier_jobs [0; 1; 2]%nat demo_P demo_S
           demo_names demo_machines demo_heap_late 10 h' 1%nat).
  - vm_compute. reflexivity.
  - nodup_by_computation.
  - apply list_elem_of_further, list_elem_of_here.
  - vm_compute. discriminate.
Defined.

(** * Properties of the GHZ circuit builders *)

(** X16.  For at least one qubit, [create_quantum_only_ghz] builds a
    circuit, without raising: it has [n_qubits] qubits and no classical
    bit, and [n_qubits] instructions, a Hadamard gate on qubit 0 followed
    by the CNOT gates from qubit [i] to qubit [i + 1], for [i] from 0 on,
    in this order. *)
Theorem quantum_only_ghz_is_hadamard_then_cnot_chain (n_qubits : Z) :
  1 ≤ n_qubits →
  ∃ circuit,
    create_quantum_only_ghz n_qubits = Some circuit ∧
    Z.of_nat (QuantumCircuit.num_qubits circuit) = n_qubits ∧
    QuantumCircuit.num_clbits circuit = 0%nat ∧
    Z.of_nat (length (QuantumCircuit.data circuit)) = n_qubits ∧
    QuantumCircuit.data circuit !! 0%nat = Some (QuantumCircuit.HGate 0) ∧
    ∀ i : nat, Z.of_nat i + 1 < n_qubits →
      QuantumCircuit.data circuit !! (i + 1)%nat
      = Some (QuantumCircuit.CXGate i (i + 1)).
Proof.
  intros Hn. eexists. split; [by apply create_quantum_only_ghz_closed|].
  simpl. rewrite length_map, length_seq.
  split; [lia|]. split; [done|]. split; [lia|]. split; [done|].
  intros i Hi. replace (i + 1)%nat with (S i) by lia. simpl.
  rewrite list_lookup_fmap, lookup_seq_lt by lia. simpl.
  by replace (i + 1)%nat with (S i) by lia.
Qed.

Lemma quantum_only_ghz_is_hadamard_then_cnot_chain_witness :
  ∃ circuit,
    create_quantum_only_ghz 3 = Some circuit ∧
    Z.of_nat (QuantumCircuit.num_qubits circuit) = 3 ∧
    QuantumCircuit.num_clbits circuit = 0%nat ∧
    Z.of_nat (length (QuantumCircuit.data circuit)) = 3 ∧
    QuantumCircuit.data circuit !! 0%nat = Some (QuantumCircuit.HGate 0) ∧
    ∀ i : nat, Z.of_nat i + 1 < 3 →
      QuantumCircuit.data circuit !! (i + 1)%nat
      = Some (QuantumCircuit.CXGate i (i + 1)).
Proof. apply (quantum_only_ghz_is_hadamard_then_cnot_chain 3). lia. Defined.

(** X17.  For at least one qubit, [create_ghz] builds a circuit, without
    raising: it has [n_qubits] qubits and as many classical bits, its
    first [n_qubits] instructions are those of the circuit of
    [create_quantum_only_ghz], and they are followed by [n_qubits]
    measurements, of qubit [i] into classical bit [i], for [i] from 0 on,
    in this order. *)
Theorem create_ghz_measures_every_qubit (n_qubits : Z) :
  1 ≤ n_qubits →
  ∃ circuit quantum_only,
    create_ghz n_qubits = Some circuit ∧
    create_quantum_only_ghz n_qubits = Some quantum_only ∧
    Z.of_nat (QuantumCircuit.num_qubits circuit) = n_qubits ∧
    Z.of_nat (QuantumCircuit.num_clbits circuit) = n_qubits ∧
    Z.of_nat (length (QuantumCircuit.data circuit)) = 2 * n_qubits ∧
    take (Z.to_nat n_qubits) (QuantumCircuit.data circuit)
    = QuantumCircuit.data quantum_only ∧
    ∀ i : nat, Z.of_nat i < n_qubits →
      QuantumCircuit.data circuit !! (Z.to_nat n_qubits + i)%nat
      = Some (QuantumCircuit.Measure i i).
Proof.
  intros Hn. eexists _, _.
  split; [by apply create_ghz_closed|].
  split; [by apply create_quantum_only_ghz_closed|].
  assert (length (ghz_gates (Z.to_nat n_qubits)) = Z.to_nat n_qubits) as Hlen.
  { unfold ghz_gates. simpl. rewrite length_map, length_seq. lia. }
  cbn [QuantumCircuit.num_qubits QuantumCircuit.num_clbits QuantumCircuit.data].
  split; [lia|]. split; [lia|]. split.
  { rewrite length_app, Hlen. unfold ghz_measurements.
    rewrite length_map, length_seq. lia. }
  split.
  { rewrite take_app_length'; done. }
  intros i Hi. rewrite lookup_app_r by lia. rewrite Hlen.
  replace (Z.to_nat n_qubits + i - Z.to_nat n_qubits)%nat with i by lia.
  unfold ghz_measurements. by rewrite list_lookup_fmap, lookup_seq_lt by lia.
Qed.

Lemma create_ghz_measures_every_qubit_witness :
  ∃ circuit quantum_only,
    create_ghz 3 = Some circuit ∧
    create_quantum_only_ghz 3 = Some quantum_only ∧
    Z.of_nat (QuantumCircuit.num_qubits circuit) = 3 ∧
    Z.of_nat (QuantumCircuit.num_clbits circuit) = 3 ∧
    Z.of_nat (length (QuantumCircuit.data circuit)) = 2 * 3 ∧
    take (Z.to_nat 3) (QuantumCircuit.data circuit)
    = QuantumCircuit.data quantum_only ∧
    ∀ i : nat, Z.of_nat i < 3 →
      QuantumCircuit.data circuit !! (Z.to_nat 3 + i)%nat
      = Some (QuantumCircuit.Measure i i).
Proof. apply (create_ghz_measures_every_qubit 3). lia. Defined.

(** X18.  Without a qubit there is no circuit: for [n_qubits] 0 or
    negative both builders raise [CircuitError], from the Hadamard gate
    on qubit 0 that is out of range, or from the negative register
    size. *)
Theorem ghz_builders_reject_no_qubits (n_qubits : Z) :
  n_qubits ≤ 0 →
  create_ghz n_qubits = None ∧ create_quantum_only_ghz n_qubits = None.
Proof. apply create_ghz_rejected. Qed.

Lemma ghz_builders_reject_no_qubits_witness :
  create_ghz 0 = None ∧ create_quantum_only_ghz 0 = None.
Proof. apply (ghz_builders_reject_no_qubits 0). lia. Defined.

(** X19.  The circuit of [create_quantum_only_ghz] prepares the state of
    the docstring.  It has one Hadamard gate, and run on all qubits in
    state 0 its gates give the sum of two terms with equal coefficients,
    all qubits 0 and all qubits 1: with the factor 1/sqrt(2) of the one
    Hadamard gate, the state 1/sqrt(2) (|0...0> + |1...1>). *)
Theorem quantum_only_ghz_prepares_ghz_state (n_qubits : Z) :
  1 ≤ n_qubits →
  ∃ circuit,
    create_quantum_only_ghz n_qubits = Some circuit ∧
    hadamard_count (QuantumCircuit.data circuit) = 1%nat ∧
    apply_gates (QuantumCircuit.data circuit)
      [(1, replicate (Z.to_nat n_qubits) false)]
    = [(1, replicate (Z.to_nat n_qubits) false);
       (1, replicate (Z.to_nat n_qubits) true)].
Proof.
  intros Hn. eexists. split; [by apply create_quantum_only_ghz_closed|].
  simpl. split; [apply hadamard_count_ghz|]. apply ghz_gates_state. lia.
Qed.

Lemma quantum_only_ghz_prepares_ghz_state_witness :
  ∃ circuit,
    create_quantum_only_ghz 3 = Some circuit ∧
    hadamard_count (QuantumCircuit.data circuit) = 1%nat ∧
    apply_gates (QuantumCircuit.data circuit) [(1, replicate (Z.to_nat 3) false)]
    = [(1, replicate (Z.to_nat 3) false); (1, replicate (Z.to_nat 3) true)].
Proof. apply (quantum_only_ghz_prepares_ghz_state 3). lia. Defined.
